(** * Granite snack cookbook: the chess session controller and [split_text]

    A shallow embedding of the two pieces of original logic of the notebooks:

    - [split_text], the word-preserving chunker of the contract-analysis
      recipe (module [SplitText]);
    - the chess tools ([legal_moves], [is_ai_turn], [make_ai_move],
      [make_user_move], ...) and the session loop of the automatic
      tool-calling recipe (module [Chess]).

    Python [str] values are lists of code points, Python [int]s are [Z],
    exceptions are values of a sum type, and the two globals [board] and
    [ai_pos] of the chess cells are threaded explicitly. *)

From Stdlib Require Import List ZArith NArith Bool Lia String Ascii DecimalString.
Import ListNotations.

Set Implicit Arguments.

(* ------------------------------------------------------------------ *)
(** ** Python strings *)

Module PyStr.

(** A Python 3 [str] is a sequence of Unicode code points. *)
Definition char := N.
Definition str := list char.

Definition of_ascii (a : ascii) : char := N_of_ascii a.

Fixpoint of_string (s : string) : str :=
  match s with
  | EmptyString => []
  | String a s' => of_ascii a :: of_string s'
  end.

Definition in_range (lo hi c : N) : bool := ((lo <=? c) && (c <=? hi))%N.

(** [str.isspace] on one code point, the predicate [str.split()] uses to
    delimit words (CPython's [_PyUnicode_IsWhitespace]). *)
Definition isspace (c : char) : bool :=
  in_range 9 13 c || in_range 28 32 c || (c =? 133)%N || (c =? 160)%N
  || (c =? 5760)%N || in_range 8192 8202 c || (c =? 8232)%N
  || (c =? 8233)%N || (c =? 8239)%N || (c =? 8287)%N || (c =? 12288)%N.

Definition space : char := 32%N.

(** What [split] emits when a run of non-blank characters ends; the run
    is accumulated in reverse. *)
Definition flush (cur : str) : list str :=
  match cur with
  | [] => []
  | _ :: _ => [rev cur]
  end.

(** [s.split()] with no separator: the maximal runs of non-blank
    characters, in order; leading, trailing and repeated blanks produce
    no empty word. *)
Fixpoint split_from (cur : str) (s : str) : list str :=
  match s with
  | [] => flush cur
  | c :: s' =>
      if isspace c then flush cur ++ split_from [] s'
      else split_from (c :: cur) s'
  end.

Definition split (s : str) : list str := split_from [] s.

(** [sep.join(l)]. *)
Fixpoint join (sep : str) (l : list str) : str :=
  match l with
  | [] => []
  | [x] => x
  | x :: rest => x ++ sep ++ join sep rest
  end.

(** A word as [split] produces them: not empty, no blank inside. *)
Definition is_word (w : str) : Prop :=
  w <> [] /\ forallb (fun c => negb (isspace c)) w = true.

End PyStr.

(* ------------------------------------------------------------------ *)
(** ** [split_text] *)

Module SplitText.
Import PyStr.

(** The three locals the [for] loop of [split_text] updates. *)
Record loop_state := {
  chunks : list str;
  current_chunk : list str;
  current_length : Z
}.

(** One iteration of [for word in words]. *)
Definition loop_body (max_tokens : Z) (st : loop_state) (word : str)
  : loop_state :=
  let word_length := (Z.of_nat (List.length word) + 1)%Z in
  let st1 :=
    if (current_length st + word_length >? max_tokens)%Z then
      {| chunks := chunks st ++ [join [space] (current_chunk st)];
         current_chunk := [];
         current_length := 0 |}
    else st in
  {| chunks := chunks st1;
     current_chunk := current_chunk st1 ++ [word];
     current_length := (current_length st1 + word_length)%Z |}.

Definition split_text (text : str) (max_tokens : Z) : list str :=
  let words := split text in
  let st0 := {| chunks := []; current_chunk := []; current_length := 0 |} in
  let st := fold_left (loop_body max_tokens) words st0 in
  match current_chunk st with
  | [] => chunks st
  | _ :: _ => chunks st ++ [join [space] (current_chunk st)]
  end.

(** The words held by a state of the loop: those of the finished chunks,
    then the pending ones. *)
Definition held (st : loop_state) : list str :=
  List.concat (map split (chunks st)) ++ current_chunk st.

(** The default of the [max_tokens] parameter. *)
Definition split_text_default (text : str) : list str :=
  split_text text 100000.

End SplitText.

(* ------------------------------------------------------------------ *)
(** ** The rules engine *)

(** The chess cells drive the [chess] package, which is not part of the
    repository.  Its [Board] object is taken as an interface: the fields are
    the attributes and methods the cells use, under their own names.  A
    board is a value here, so a method that mutates ([push]) returns the
    new board, and one that can raise ([parse_san]) returns a sum. *)
Class RulesEngine := {
  Board : Type;
  Move : Type;
  (** what [parse_san] raises: a subclass of [ValueError] *)
  SanError : Type;
  (** [chess.Board()], also the value after [board.reset()] *)
  board_reset : Board;
  (** [board.turn]: [true] is [chess.WHITE] *)
  board_turn : Board -> bool;
  (** [board.legal_moves], in iteration order *)
  board_legal_moves : Board -> list Move;
  board_generate_legal_captures : Board -> list Move;
  board_gives_check : Board -> Move -> bool;
  board_move_stack : Board -> list Move;
  board_san : Board -> Move -> string;
  board_parse_san : Board -> string -> SanError + Move;
  board_push : Board -> Move -> Board;
  board_is_checkmate : Board -> bool;
  board_is_stalemate : Board -> bool;
  board_is_insufficient_material : Board -> bool;
  board_is_seventyfive_moves : Board -> bool;
  board_is_fivefold_repetition : Board -> bool
}.

(** A small engine to run the model on: a pile of counters, the side to
    move takes one or two, and the side that finds the pile empty is
    mated.  Moves are written ["1"] and ["2"]. *)
Module Toy.

Record board := {
  pile : nat;
  white_to_move : bool;
  stack : list nat
}.

Definition legal (b : board) : list nat :=
  match pile b with
  | 0 => []
  | 1 => [1]
  | _ => [1; 2]
  end.

Definition san (m : nat) : string :=
  match m with
  | 1 => "1"
  | 2 => "2"
  | _ => "?"
  end.

Definition parse_san (b : board) (s : string) : string + nat :=
  if String.eqb s "1" then
    if 1 <=? pile b then inr 1 else inl "illegal san"%string
  else if String.eqb s "2" then
    if 2 <=? pile b then inr 2 else inl "illegal san"%string
  else inl "invalid san"%string.

Definition push (b : board) (m : nat) : board :=
  {| pile := pile b - m;
     white_to_move := negb (white_to_move b);
     stack := stack b ++ [m] |}.

Definition start : board :=
  {| pile := 3; white_to_move := true; stack := [] |}.

#[export] Instance engine : RulesEngine := {|
  Board := board;
  Move := nat;
  SanError := string;
  board_reset := start;
  board_turn := white_to_move;
  board_legal_moves := legal;
  board_generate_legal_captures := fun _ => [];
  board_gives_check := fun b m => pile b =? m;
  board_move_stack := stack;
  board_san := fun _ => san;
  board_parse_san := parse_san;
  board_push := push;
  board_is_checkmate := fun b => pile b =? 0;
  board_is_stalemate := fun _ => false;
  board_is_insufficient_material := fun _ => false;
  board_is_seventyfive_moves := fun _ => false;
  board_is_fivefold_repetition := fun _ => false
|}.

End Toy.

(* ------------------------------------------------------------------ *)
(** ** The chess tools and the session loop *)

Module Chess.

(** [str.lower] on 8-bit (Latin-1) text, the alphabet of the lines typed
    at the prompt in this model. *)
Definition lower_ascii (a : ascii) : ascii :=
  let n := nat_of_ascii a in
  if ((65 <=? n) && (n <=? 90)) || ((192 <=? n) && (n <=? 214))
     || ((216 <=? n) && (n <=? 222))
  then ascii_of_nat (n + 32) else a.

Fixpoint lower (s : string) : string :=
  match s with
  | EmptyString => EmptyString
  | String a s' => String (lower_ascii a) (lower s')
  end.

(** The functions of the cell, as names: what [model.act] is given is a
    list of them. *)
Inductive Tool :=
| T_legal_moves
| T_possible_captures
| T_possible_checks
| T_get_move_history
| T_is_ai_turn
| T_make_ai_move
| T_make_user_move.

Definition Tool_eqb (a b : Tool) : bool :=
  match a, b with
  | T_legal_moves, T_legal_moves
  | T_possible_captures, T_possible_captures
  | T_possible_checks, T_possible_checks
  | T_get_move_history, T_get_move_history
  | T_is_ai_turn, T_is_ai_turn
  | T_make_ai_move, T_make_ai_move
  | T_make_user_move, T_make_user_move => true
  | _, _ => false
  end.

(** A tool request of the agent: a function name, with a move text for
    the functions that take one. *)
Inductive ToolCall :=
| CallQuery (t : Tool)
| CallMove (t : Tool) (move : string).

Definition callee (c : ToolCall) : Tool :=
  match c with
  | CallQuery t => t
  | CallMove t _ => t
  end.

(** The error taxonomy of the specification. *)
Inductive ErrorKind := ILLEGAL_MOVE | WRONG_TURN | OTHER_ERROR.

(** The termination reasons of the specification. *)
Inductive TerminationReason :=
| CHECKMATE | STALEMATE | INSUFFICIENT_MATERIAL | MOVE_LIMIT_DRAW
| REPETITION_DRAW | USER_QUIT | NONE.

Section WithEngine.
Context {E : RulesEngine}.

(** *** Exceptions *)

Inductive Exn :=
| SanException (e : SanError)   (* raised by [board.push_san] *)
| ValueError (arg : ExnArg)
| IndexError
| EOFError
with ExnArg :=
| ArgStr (s : string)           (* [ValueError("...")] *)
| ArgExn (e : Exn).             (* [ValueError(e)] *)

(** [isinstance(e, ValueError)]: the engine's errors are subclasses. *)
Definition is_ValueError (e : Exn) : bool :=
  match e with
  | SanException _ | ValueError _ => true
  | IndexError | EOFError => false
  end.

Definition error_kind (e : Exn) : ErrorKind :=
  match e with
  | ValueError (ArgExn (SanException _)) => ILLEGAL_MOVE
  | ValueError (ArgStr s) =>
      if String.eqb s "Not AI's turn." || String.eqb s "Not player's turn."
      then WRONG_TURN else OTHER_ERROR
  | _ => OTHER_ERROR
  end.

Inductive result (A : Type) :=
| Ok (a : A)
| Raise (e : Exn).
Arguments Ok {A} a.
Arguments Raise {A} e.

(** *** The globals of the cells and what a run shows *)

Record Globals := {
  board : Board;
  ai_pos : Z
}.

Definition set_board (g : Globals) (b : Board) : Globals :=
  {| board := b; ai_pos := ai_pos g |}.

(** How a call of [make_ai_move] or [make_user_move] ended. *)
Inductive Submitted :=
| Committed (after : Board)
| Rejected (e : Exn).

Inductive Event :=
| EvClearOutput                                  (* [clear_output(wait=True)] *)
| EvDisplay (b : Board) (white_below : bool)     (* [display(SVG(chess.svg.board(..)))] *)
| EvPrint (s : string)                           (* [print(s)] *)
| EvPrintMoves (l : list string)                 (* [print("Possible moves:", l)] *)
| EvPrintExn (e : Exn)                           (* [print(e)] *)
| EvInput (prompt reply : string)                (* [input(prompt)] returned [reply] *)
| EvAct (tools : list Tool) (max_prediction_rounds : nat)  (* [model.act] entered *)
| EvSubmit (f : Tool) (move : string) (r : Submitted).       (* a move function was called *)

(** A piece of the program: it runs on the globals, returns or raises,
    leaves the globals as they are at that point, and lists what it
    showed, asked and called on the way. *)
Definition Prog (A : Type) : Type :=
  Globals -> result A * Globals * list Event.

Definition ret {A} (a : A) : Prog A := fun g => (Ok a, g, []).
Definition raise {A} (e : Exn) : Prog A := fun g => (Raise e, g, []).
Definition emit (e : Event) : Prog unit := fun g => (Ok tt, g, [e]).
Definition get_globals : Prog Globals := fun g => (Ok g, g, []).

Definition bind {A B} (p : Prog A) (k : A -> Prog B) : Prog B :=
  fun g =>
    match p g with
    | (Ok a, g1, t1) =>
        let '(r, g2, t2) := k a g1 in (r, g2, t1 ++ t2)
    | (Raise e, g1, t1) => (Raise e, g1, t1)
    end.

(** [try: p  except ValueError as e: h(e)] *)
Definition try_except_ValueError {A} (p : Prog A) (h : Exn -> Prog A)
  : Prog A :=
  fun g =>
    match p g with
    | (Raise e, g1, t1) =>
        if is_ValueError e
        then let '(r, g2, t2) := h e g1 in (r, g2, t1 ++ t2)
        else (Raise e, g1, t1)
    | ok => ok
    end.

Notation "x <- p ;; k" := (bind p (fun x => k))
  (at level 61, p at next level, right associativity).
Notation "p ;; k" := (bind p (fun _ => k))
  (at level 61, right associativity).

(** *** The tools *)

Definition legal_moves (g : Globals) : list string :=
  map (board_san (board g)) (board_legal_moves (board g)).

Definition possible_captures (g : Globals) : list string :=
  map (board_san (board g)) (board_generate_legal_captures (board g)).

Definition possible_checks (g : Globals) : list string :=
  map (board_san (board g))
      (filter (board_gives_check (board g)) (board_legal_moves (board g))).

Definition get_move_history (g : Globals) : list string :=
  map (board_san (board g)) (board_move_stack (board g)).

Definition is_ai_turn (g : Globals) : bool :=
  Bool.eqb (board_turn (board g)) (ai_pos g =? 0)%Z.

(** [board.push_san(san)]: parse in the current position, then push. *)
Definition push_san (san : string) : Prog unit :=
  fun g =>
    match board_parse_san (board g) san with
    | inl e => (Raise (SanException e), g, [])
    | inr m => (Ok tt, set_board g (board_push (board g) m), [])
    end.

Definition make_ai_move (move : string) : Prog unit :=
  g <- get_globals ;;
  if is_ai_turn g then
    try_except_ValueError (push_san move)
                          (fun e => raise (ValueError (ArgExn e)))
  else raise (ValueError (ArgStr "Not AI's turn.")).

Definition make_user_move (move : string) : Prog unit :=
  g <- get_globals ;;
  if negb (is_ai_turn g) then
    try_except_ValueError (push_san move)
                          (fun e => raise (ValueError (ArgExn e)))
  else raise (ValueError (ArgStr "Not player's turn.")).

(** The body of [get_end_state], on the board it reads. *)
Definition end_state_of (b : Board) : option string :=
  if board_is_checkmate b then Some "Checkmate!"%string
  else if board_is_stalemate b then Some "Stalemate!"%string
  else if board_is_insufficient_material b
       then Some "Draw by insufficient material!"%string
  else if board_is_seventyfive_moves b
       then Some "Draw by 75-move rule!"%string
  else if board_is_fivefold_repetition b
       then Some "Draw by fivefold repetition!"%string
  else None.

Definition get_end_state (g : Globals) : option string :=
  end_state_of (board g).

(** *** Calls of the move functions, recorded *)

(** [p move], with its outcome added to what the run lists. *)
Definition logged (f : Tool) (p : string -> Prog unit) (move : string)
  : Prog unit :=
  fun g =>
    let '(r, g', t) := p move g in
    (r, g',
     t ++ [EvSubmit f move
             match r with
             | Ok _ => Committed (board g')
             | Raise e => Rejected e
             end]).

Definition call_make_ai_move : string -> Prog unit :=
  logged T_make_ai_move make_ai_move.

Definition call_make_user_move : string -> Prog unit :=
  logged T_make_user_move make_user_move.

(** *** The agent *)

(** [model.act] belongs to the model runtime, not to the repository.
    One invocation is the tool requests the model makes, grouped by
    prediction round; the runtime serves the requests of the first
    [max_prediction_rounds] rounds in order.  It serves only functions
    of the list it was given, and an exception of a tool goes back to
    the model as text, so it never leaves [act]. *)
Definition reported {A} (p : Prog A) : Prog unit :=
  fun g => let '(_, g', t) := p g in (Ok tt, g', t).

Definition run_tool_call (tools : list Tool) (c : ToolCall) : Prog unit :=
  if existsb (Tool_eqb (callee c)) tools then
    match c with
    | CallMove T_make_ai_move m => reported (call_make_ai_move m)
    | CallMove T_make_user_move m => reported (call_make_user_move m)
    | _ => ret tt        (* the queries only read [board] *)
    end
  else ret tt.

Fixpoint run_tool_calls (tools : list Tool) (cs : list ToolCall)
  : Prog unit :=
  match cs with
  | [] => ret tt
  | c :: cs' => run_tool_call tools c ;; run_tool_calls tools cs'
  end.

Definition act (tools : list Tool) (max_prediction_rounds : nat)
           (rounds : list (list ToolCall)) : Prog unit :=
  emit (EvAct tools max_prediction_rounds) ;;
  run_tool_calls tools (List.concat (firstn max_prediction_rounds rounds)).

(** *** The session cell *)

Definition string_of_Z (z : Z) : string :=
  NilZero.string_of_int (Z.to_int z).

Definition display_board : Prog unit :=
  g <- get_globals ;;
  if (ai_pos g =? 1)%Z then emit (EvDisplay (board g) true)
  else emit (EvDisplay (board g) false).

Definition update_board (move : Z) : Prog unit :=
  emit EvClearOutput ;;
  emit (EvPrint ("Board after move " ++ string_of_Z (move + 1))%string) ;;
  display_board.

(** The second argument of both [model.act] calls. *)
Definition act_tools : list Tool :=
  [T_get_move_history; T_legal_moves; T_possible_captures;
   T_possible_checks; T_make_ai_move].

Definition max_prediction_rounds : nat := 5.

(** The AI's turn: [model.act(...)], then the failsafe. *)
Definition ai_turn (rounds : list (list ToolCall)) : Prog unit :=
  act act_tools max_prediction_rounds rounds ;;
  g <- get_globals ;;
  if is_ai_turn g then
    match legal_moves g with
    | [] => raise IndexError                 (* [legal_moves()[0]] *)
    | first :: _ => call_make_ai_move first
    end
  else ret tt.

(** The user's turn: the inner [while True].  [lines] is what will be
    typed at the prompt; [input] raises [EOFError] when nothing is
    left.  Returns [userEndGame] and the lines not read. *)
Fixpoint user_turn (prompt : string) (lines : list string)
  : Prog (bool * list string) :=
  match lines with
  | [] => raise EOFError
  | user_move :: rest =>
      emit (EvInput prompt user_move) ;;
      if String.eqb (lower user_move) "quit" then
        emit (EvPrint "Game ended by user.") ;;
        ret (true, rest)
      else if String.eqb (lower user_move) "help" then
        g <- get_globals ;;
        emit (EvPrintMoves (legal_moves g)) ;;
        user_turn prompt rest
      else
        try_except_ValueError
          (call_make_user_move user_move ;; ret (false, rest))
          (fun e => emit (EvPrintExn e) ;; user_turn prompt rest)
  end.

Definition prompt_black : string :=
  "User (Playing Black): Input your move. Input 'help' to see the list of possible moves. Input 'quit' to end the game ->".

Definition prompt_white : string :=
  "User (Playing White): Input your move. Input 'help' to see the list of possible moves. Input 'quit' to end the game ->".

(** The two ways out of the outer [while True]. *)
Inductive Exit :=
| GameOver (game_over_message : string)
| UserQuit.

(** [update_board(move); move += 1; game_over_message = get_end_state();
    if game_over_message: print(game_over_message); break], followed
    by [k] on the new [move] when the loop goes on.  Every message of
    [get_end_state] is a non-empty string, hence true as a
    condition. *)
Definition after_ply (move : Z) (k : Z -> Prog (option Exit))
  : Prog (option Exit) :=
  update_board move ;;
  g <- get_globals ;;
  match get_end_state g with
  | Some game_over_message =>
      emit (EvPrint game_over_message) ;;
      ret (Some (GameOver game_over_message))
  | None => k (move + 1)%Z
  end.

(** The AI's part of an iteration: its turn, then the display and
    the end check. *)
Definition ai_ply (rounds : list (list ToolCall)) (move : Z)
           (k : Z -> Prog (option Exit)) : Prog (option Exit) :=
  ai_turn rounds ;;
  after_ply move k.

(** The user's part of an iteration: the turn,
    [if userEndGame: break], then the display and the end check. *)
Definition user_ply (prompt : string) (lines : list string) (move : Z)
           (k : list string -> Z -> Prog (option Exit))
  : Prog (option Exit) :=
  r <- user_turn prompt lines ;;
  let '(userEndGame, lines) := r in
  if userEndGame : bool then ret (Some UserQuit)
  else after_ply move (k lines).

(** The outer [while True] of the cell: the AI's part then the
    user's when [ai_pos == 0], the user's then the AI's otherwise.
    The loop has no bound of its own; [fuel] bounds the number of
    iterations that are unfolded, and [None] is returned when it is
    used up.  [agent move] is what the model requests in the
    [model.act] call made at ply count [move]. *)
Fixpoint game_loop (fuel : nat) (agent : Z -> list (list ToolCall))
         (move : Z) (lines : list string) : Prog (option Exit) :=
  match fuel with
  | 0 => ret None
  | S fuel' =>
      g <- get_globals ;;
      if (ai_pos g =? 0)%Z then
        ai_ply (agent move) move (fun move =>
          user_ply prompt_black lines move (fun lines move =>
            game_loop fuel' agent move lines))
      else
        user_ply prompt_white lines move (fun lines move =>
          ai_ply (agent move) move (fun move =>
            game_loop fuel' agent move lines))
  end.

(** The whole cell: [board.reset()], the draw of [ai_pos]
    ([round(random.random())], given as [draw]), the first display and
    the loop.  Every iteration that does not leave the loop reads a
    line, so one more iteration than there are lines is enough. *)
Definition session (draw : Z) (agent : Z -> list (list ToolCall))
           (lines : list string)
  : result (option Exit) * Globals * list Event :=
  (emit EvClearOutput ;;
   display_board ;;
   game_loop (S (List.length lines)) agent 0 lines)
    {| board := board_reset; ai_pos := draw |}.

(** *** The session with another AI turn *)

(** The same cell with [ai] in the place of [ai_turn]: a session that
    is the same for every [ai] that agrees with [ai_turn] on some states
    runs the AI's turn in those states only. *)
Definition ai_ply_with (ai : list (list ToolCall) -> Prog unit)
           (rounds : list (list ToolCall)) (move : Z)
           (k : Z -> Prog (option Exit)) : Prog (option Exit) :=
  ai rounds ;;
  after_ply move k.

Fixpoint game_loop_with (ai : list (list ToolCall) -> Prog unit)
         (fuel : nat) (agent : Z -> list (list ToolCall))
         (move : Z) (lines : list string) : Prog (option Exit) :=
  match fuel with
  | 0 => ret None
  | S fuel' =>
      g <- get_globals ;;
      if (ai_pos g =? 0)%Z then
        ai_ply_with ai (agent move) move (fun move =>
          user_ply prompt_black lines move (fun lines move =>
            game_loop_with ai fuel' agent move lines))
      else
        user_ply prompt_white lines move (fun lines move =>
          ai_ply_with ai (agent move) move (fun move =>
            game_loop_with ai fuel' agent move lines))
  end.

Definition session_with (ai : list (list ToolCall) -> Prog unit)
           (draw : Z) (agent : Z -> list (list ToolCall))
           (lines : list string)
  : result (option Exit) * Globals * list Event :=
  (emit EvClearOutput ;;
   display_board ;;
   game_loop_with ai (S (List.length lines)) agent 0 lines)
    {| board := board_reset; ai_pos := draw |}.

(** White is to move and the game is not over: the state at the head of
    every iteration. *)
Definition at_loop_head (g : Globals) : Prop :=
  board_turn (board g) = true /\ get_end_state g = None.

(** *** The vocabulary of the specification *)

Definition reason_of_message (msg : string) : TerminationReason :=
  if String.eqb msg "Checkmate!" then CHECKMATE
  else if String.eqb msg "Stalemate!" then STALEMATE
  else if String.eqb msg "Draw by insufficient material!"
       then INSUFFICIENT_MATERIAL
  else if String.eqb msg "Draw by 75-move rule!" then MOVE_LIMIT_DRAW
  else if String.eqb msg "Draw by fivefold repetition!"
       then REPETITION_DRAW
  else NONE.

(** The reason computed from the position, as after every ply. *)
Definition termination_reason (g : Globals) : TerminationReason :=
  match get_end_state g with
  | Some msg => reason_of_message msg
  | None => NONE
  end.

(** The reason a finished session ended with. *)
Definition exit_reason (x : Exit) : TerminationReason :=
  match x with
  | GameOver msg => reason_of_message msg
  | UserQuit => USER_QUIT
  end.

(** The two sides, and the operations of the arbiter in the words
    of the specification. *)
Inductive Side := AUTOMATED | HUMAN.

Definition is_current_turn (side : Side) (g : Globals) : bool :=
  match side with
  | AUTOMATED => is_ai_turn g
  | HUMAN => negb (is_ai_turn g)
  end.

Definition apply_move (side : Side) : string -> Prog unit :=
  match side with
  | AUTOMATED => make_ai_move
  | HUMAN => make_user_move
  end.

Definition wrong_turn_message (side : Side) : string :=
  match side with
  | AUTOMATED => "Not AI's turn."
  | HUMAN => "Not player's turn."
  end.

(** A prompt or an agent invocation. *)
Definition is_prompt_or_act (e : Event) : bool :=
  match e with
  | EvInput _ _ | EvAct _ _ => true
  | _ => false
  end.

Definition is_submit (e : Event) : bool :=
  match e with
  | EvSubmit _ _ _ => true
  | _ => false
  end.

Definition is_commit (e : Event) : bool :=
  match e with
  | EvSubmit _ _ (Committed _) => true
  | _ => false
  end.

(** The line typed is the [quit] command. *)
Definition is_quit_input (e : Event) : bool :=
  match e with
  | EvInput _ reply => String.eqb (lower reply) "quit"
  | _ => false
  end.

(** A ply was committed and [get_end_state] on its position gives
    [msg]. *)
Definition is_final_commit (msg : string) (e : Event) : bool :=
  match e with
  | EvSubmit _ _ (Committed b) =>
      match end_state_of b with
      | Some m => String.eqb m msg
      | None => false
      end
  | _ => false
  end.

(** No prompt and no agent invocation. *)
Definition quiet (t : list Event) : Prop :=
  forallb (fun e => negb (is_prompt_or_act e)) t = true.

(** No event of the kind [P]. *)
Definition free_of (P : Event -> bool) (t : list Event) : Prop :=
  existsb P t = false.

(** Whatever follows an event of the kind [P] satisfies [Q]. *)
Fixpoint after_each (P : Event -> bool) (Q : list Event -> Prop)
         (t : list Event) : Prop :=
  match t with
  | [] => True
  | e :: t' => (P e = true -> Q t') /\ after_each P Q t'
  end.

(** An agent invocation has the tool list and the round cap of the
    source. *)
Definition act_as_written (e : Event) : Prop :=
  match e with
  | EvAct tools n => tools = act_tools /\ n = max_prediction_rounds
  | _ => True
  end.

Definition is_act (e : Event) : bool :=
  match e with
  | EvAct _ _ => true
  | _ => false
  end.

(** Neither [quit], nor a committed ply, nor an agent invocation. *)
Definition is_noise (e : Event) : bool :=
  negb (is_quit_input e) && negb (is_commit e) && negb (is_act e).

(** Committed plies with an end state [msg], or none of them: the
    family of events the invariant below follows. *)
Definition no_final_commit (msg : string) (e : Event) : bool := false.

(** What holds of every run of the loop, finished or not: [quit] is
    followed by its message and nothing else and ends the loop as a
    user exit; an event of the family [F msg] is followed by no
    prompt and no agent invocation and ends the loop with the message
    [msg]; the agent is invoked as written. *)
Definition loop_inv (F : string -> Event -> bool)
           (r : result (option Exit)) (t : list Event) : Prop :=
  after_each is_quit_input (eq [EvPrint "Game ended by user."]) t
  /\ (existsb is_quit_input t = true -> r = Ok (Some UserQuit))
  /\ (forall msg,
         after_each (F msg) quiet t
         /\ (existsb (F msg) t = true -> r = Ok (Some (GameOver msg))))
  /\ Forall act_as_written t.

(** Nothing in [t] that the invariant speaks of. *)
Definition plain (F : string -> Event -> bool) (t : list Event) : Prop :=
  free_of is_quit_input t
  /\ (forall msg, free_of (F msg) t)
  /\ Forall act_as_written t.

Definition good (F : string -> Event -> bool) (p : Prog (option Exit))
  : Prop :=
  forall g r g' t, p g = (r, g', t) -> loop_inv F r t.

(** The loop did not stop for lack of fuel. *)
Definition live (p : Prog (option Exit)) : Prop :=
  forall g, fst (fst (p g)) <> Ok None.

(** What [update_board(move)] shows. *)
Definition shown_after_ply (move : Z) (g : Globals) : list Event :=
  [EvClearOutput;
   EvPrint ("Board after move " ++ string_of_Z (move + 1))%string;
   EvDisplay (board g) (ai_pos g =? 1)%Z].

(** A ply of the user after which the game goes on. *)
Definition is_open_user_ply (e : Event) : bool :=
  match e with
  | EvSubmit T_make_user_move _ (Committed b) =>
      match end_state_of b with
      | None => true
      | Some _ => false
      end
  | _ => false
  end.

(** The board is shown, and what comes next is the invocation of the
    agent as the source writes it. *)
Definition agent_is_next (t : list Event) : Prop :=
  exists move g t',
    t = shown_after_ply move g
          ++ EvAct act_tools max_prediction_rounds :: t'.

(** The five query operations of the arbiter as the specification
    lists them, and the capability set it says the agent is given:
    these and the move submission of the automated side. *)
Definition spec_queries : list Tool :=
  [T_legal_moves; T_possible_captures; T_possible_checks;
   T_get_move_history; T_is_ai_turn].

Definition spec_capability_set : list Tool :=
  spec_queries ++ [T_make_ai_move].

(** The plies a run committed, as its calls recorded them. *)
Definition commits (t : list Event) : list Event := filter is_commit t.

(** A call of [make_ai_move] refused because the AI is not to move. *)
Definition is_off_turn_refusal (e : Event) : Prop :=
  exists move,
    e = EvSubmit T_make_ai_move move
          (Rejected (ValueError (ArgStr "Not AI's turn."))).

End WithEngine.

Arguments Ok {E A} a.
Arguments Raise {E A} e.

End Chess.

(* ------------------------------------------------------------------ *)
(** ** Small runs on the toy engine *)

Module Examples.
Import Chess.
#[local] Existing Instance Toy.engine.

(** The AI drew white: it moves first. *)
Definition ai_first : Globals :=
  {| board := Toy.start; ai_pos := 0 |}.

(** The user drew white. *)
Definition human_first : Globals :=
  {| board := Toy.start; ai_pos := 1 |}.

(** An agent that looks at the legal moves and then asks for a move
    that does not exist. *)
Definition agent_confused (move : Z) : list (list ToolCall) :=
  [[CallQuery T_legal_moves]; [CallMove T_make_ai_move "7"]].

(** An agent that takes two counters and then tries to move again. *)
Definition agent_greedy (move : Z) : list (list ToolCall) :=
  [[CallMove T_make_ai_move "2"; CallMove T_make_ai_move "1"]].

(** An agent that requests nothing. *)
Definition agent_silent (move : Z) : list (list ToolCall) := [].

End Examples.

(* ------------------------------------------------------------------ *)
(** ** Measures on chunks *)

Module ChunkShape.
Import PyStr.

(** What a list of words costs in the accounting of [split_text]: the
    length of each word and one for the space. *)
Fixpoint words_cost (ws : list str) : Z :=
  match ws with
  | [] => 0
  | w :: ws' => Z.of_nat (List.length w) + 1 + words_cost ws'
  end.

(** No chunk could have taken the first word of the next one: a chunk
    that is not empty, a space, that word and its own space exceed the
    budget. *)
Fixpoint tight (max_tokens : Z) (cs : list str) : Prop :=
  match cs with
  | [] => True
  | c :: rest =>
      match rest with
      | [] => True
      | d :: _ =>
          c = []
          \/ exists w ws,
              split d = w :: ws
              /\ (Z.of_nat (List.length c) + 1
                  + (Z.of_nat (List.length w) + 1) > max_tokens)%Z
      end
      /\ tight max_tokens rest
  end.

(** A chunk and the words it was made of: at most one word, or words
    within the budget. *)
Definition made_of (max_tokens : Z) (c : str) (ws : list str) : Prop :=
  Forall is_word ws /\ c = join [space] ws
  /\ (List.length ws <= 1 \/ (words_cost ws <= max_tokens)%Z).

(** What the loop of [split_text] keeps true of its three locals. *)
Definition well_formed (max_tokens : Z) (st : SplitText.loop_state) : Prop :=
  SplitText.current_length st = words_cost (SplitText.current_chunk st)
  /\ Forall is_word (SplitText.current_chunk st)
  /\ (List.length (SplitText.current_chunk st) <= 1
      \/ (SplitText.current_length st <= max_tokens)%Z)
  /\ Forall (fun c => exists ws, made_of max_tokens c ws)
            (SplitText.chunks st).

End ChunkShape.

(* ------------------------------------------------------------------ *)
(** ** [get_letter_frequency] *)

Module LetterFrequency.
Import PyStr.

(** A Python [dict] from letters to [int]: the items in insertion order,
    no key twice. *)
Definition dict := list (char * Z).

(** [k in d] *)
Fixpoint contains (d : dict) (k : char) : bool :=
  match d with
  | [] => false
  | (k', _) :: d' => (k' =? k)%N || contains d' k
  end.

(** [d[k]]; [None] stands for [KeyError]. *)
Fixpoint getitem (d : dict) (k : char) : option Z :=
  match d with
  | [] => None
  | (k', v) :: d' => if (k' =? k)%N then Some v else getitem d' k
  end.

(** [d[k] = v]: in place for a key that is there, at the end for a new
    one. *)
Fixpoint setitem (d : dict) (k : char) (v : Z) : dict :=
  match d with
  | [] => [(k, v)]
  | (k', v') :: d' =>
      if (k' =? k)%N then (k', v) :: d' else (k', v') :: setitem d' k v
  end.

(** [list(d.keys())] and [sum(d.values())]. *)
Definition keys (d : dict) : list char := map fst d.

Fixpoint sum_values (d : dict) : Z :=
  match d with
  | [] => 0
  | (_, v) :: d' => v + sum_values d'
  end.

(** One iteration of [for letter in word]. *)
Definition count_letter (letter_frequencies : dict) (letter : char)
  : option dict :=
  if contains letter_frequencies letter then
    (* letter_frequencies[letter] += 1 *)
    match getitem letter_frequencies letter with
    | Some n => Some (setitem letter_frequencies letter (n + 1))
    | None => None
    end
  else
    Some (setitem letter_frequencies letter 1).

Definition get_letter_frequency (word : str) : option dict :=
  fold_left
    (fun acc letter =>
       match acc with
       | Some letter_frequencies => count_letter letter_frequencies letter
       | None => None
       end)
    word (Some []).

(** The letters of a word, each once, in the order they first appear. *)
Definition first_seen (word : str) : list char :=
  rev (nodup N.eq_dec (rev word)).

(** What the loop has counted after the letters of [seen]. *)
Definition counted (seen : str) (d : dict) : Prop :=
  (forall c,
      getitem d c
      = if count_occ N.eq_dec seen c =? 0 then None
        else Some (Z.of_nat (count_occ N.eq_dec seen c)))
  /\ keys d = first_seen seen
  /\ sum_values d = Z.of_nat (List.length seen).

End LetterFrequency.

(* ------------------------------------------------------------------ *)
(** ** [generate_analysis_with_watsonx] *)

Module ContractAnalysis.
Import PyStr.

Section WithModel.
(** The two objects the function is given: [prompt_template], of which it
    uses [format_prompt(chunk=...)], and [watson_llm], of which it uses
    [invoke(prompt)].  The model object may change with every call, so
    [invoke] returns the object after the call with the reply. *)
Variable Prompt : Type.
Variable LLM : Type.
Variable format_prompt : str -> Prompt.
Variable invoke : LLM -> Prompt -> str * LLM.

(** What the function does besides returning: the lines it logs and the
    calls of the model. *)
Inductive Entry :=
| LogInfo (msg : str)
| LlmCall (prompt : Prompt) (reply : str).

Definition format_nat (n : nat) : str :=
  of_string (Chess.string_of_Z (Z.of_nat n)).

(** The locals of the [for] loop. *)
Record analysis_state := {
  watson_llm : LLM;
  results : list str;
  log : list Entry
}.

(** One iteration of [for i, chunk in enumerate(chunks)]. *)
Definition analysis_step (n_chunks : nat) (st : analysis_state)
           (i_chunk : nat * str) : analysis_state :=
  let '(i, chunk) := i_chunk in
  let msg := of_string "Processing chunk " ++ format_nat (i + 1)
             ++ of_string " of " ++ format_nat n_chunks
             ++ of_string "..." in
  let prompt := format_prompt chunk in
  let '(result, llm') := invoke (watson_llm st) prompt in
  {| watson_llm := llm';
     results := results st ++ [result];
     log := log st ++ [LogInfo msg; LlmCall prompt result] |}.

Definition newline : char := 10%N.

(** Returns the report, the model object after the calls and what was
    logged and called. *)
Definition generate_analysis_with_watsonx (text : str) (llm : LLM)
  : str * LLM * list Entry :=
  let chunks := SplitText.split_text text 100000 in
  let n := List.length chunks in
  let st0 :=
    {| watson_llm := llm;
       results := [];
       log := [LogInfo (of_string "Split text into " ++ format_nat n
                        ++ of_string " chunks for processing.")] |} in
  let st := fold_left (analysis_step n) (combine (seq 0 n) chunks) st0 in
  (join [newline; newline] (results st), watson_llm st, log st).

(** The model called on the prompts one after the other, each call on
    the object the call before left: the replies, and the object after
    the last call. *)
Fixpoint invoke_each (llm : LLM) (prompts : list Prompt)
  : list str * LLM :=
  match prompts with
  | [] => ([], llm)
  | prompt :: prompts' =>
      let '(reply, llm1) := invoke llm prompt in
      let '(replies, llm2) := invoke_each llm1 prompts' in
      (reply :: replies, llm2)
  end.

(** The prompts of the calls in a log, and the replies. *)
Definition prompts_of (l : list Entry) : list Prompt :=
  flat_map (fun e => match e with LlmCall p _ => [p] | LogInfo _ => [] end) l.

Definition replies_of (l : list Entry) : list str :=
  flat_map (fun e => match e with LlmCall _ r => [r] | LogInfo _ => [] end) l.

End WithModel.

End ContractAnalysis.

(* ------------------------------------------------------------------ *)
(** ** What a session shows, in order *)

Module SessionShape.
Import Chess.

Section WithEngine.
Context {E : RulesEngine}.

(** The prompt of the user's turn: the text for black when the AI drew
    white ([ai_pos == 0]), the text for white otherwise. *)
Definition user_prompt (a : Z) : string :=
  if (a =? 0)%Z then prompt_black else prompt_white.

(** For the draw [a]: a display is oriented as [update_board] orients it
    and a prompt is the one of the user's colour. *)
Definition as_assigned (a : Z) (e : Event) : Prop :=
  match e with
  | EvDisplay _ white_below => white_below = (a =? 1)%Z
  | EvInput prompt _ => prompt = user_prompt a
  | _ => True
  end.

(** A prompt of the user's turn [prompt], and no display. *)
Definition of_user_turn (prompt : string) (e : Event) : Prop :=
  match e with
  | EvInput p _ => p = prompt
  | EvDisplay _ _ | EvAct _ _ | EvClearOutput => False
  | _ => True
  end.

(** The functions that committed the plies of a run, in order. *)
Definition committers (t : list Event) : list Tool :=
  flat_map (fun e =>
              match e with
              | EvSubmit f _ (Committed _) => [f]
              | _ => []
              end) t.

(** The committed plies come from the two sides in turn, the AI first
    when [ai_next]. *)
Fixpoint alternate (ai_next : bool) (l : list Tool) : Prop :=
  match l with
  | [] => True
  | f :: l' =>
      f = (if ai_next then T_make_ai_move else T_make_user_move)
      /\ alternate (negb ai_next) l'
  end.

(** The first committed ply or display of a run. *)
Fixpoint next_board_event (t : list Event) : option Event :=
  match t with
  | [] => None
  | e :: t' =>
      match e with
      | EvDisplay _ _ | EvSubmit _ _ (Committed _) => Some e
      | _ => next_board_event t'
      end
  end.

(** Every committed ply is followed by a display of the position it led
    to, before any other ply and any other display. *)
Fixpoint rendered (t : list Event) : Prop :=
  match t with
  | [] => True
  | e :: t' =>
      match e with
      | EvSubmit _ _ (Committed b) =>
          exists white_below,
            next_board_event t' = Some (EvDisplay b white_below)
      | _ => True
      end
      /\ rendered t'
  end.

(** What a run of the loop from ply count [move] and globals [g] keeps,
    whatever the engine. *)
Definition assignment_kept (move : Z) (g : Globals)
           (r : result (option Exit)) (g' : Globals) (t : list Event)
  : Prop :=
  ai_pos g' = ai_pos g
  /\ Forall (as_assigned (ai_pos g)) t
  /\ (forall msg,
         r = Ok (Some (GameOver msg)) ->
         get_end_state g' = Some msg /\ exists pre, t = pre ++ [EvPrint msg])
  /\ (r = Ok (Some UserQuit) ->
      exists pre reply,
        t = pre ++ [EvInput (user_prompt (ai_pos g)) reply;
                    EvPrint "Game ended by user."]
        /\ String.eqb (lower reply) "quit" = true).

(** What it keeps when a push hands the move over. *)
Definition plies_in_turn (move : Z) (g : Globals)
           (r : result (option Exit)) (g' : Globals) (t : list Event)
  : Prop :=
  alternate (is_ai_turn g) (committers t)
  /\ is_ai_turn g'
     = xorb (is_ai_turn g) (Nat.odd (List.length (committers t)))
  /\ rendered t.

(** The only exception that leaves the loop is the end of the typed
    lines. *)
Definition no_crash (move : Z) (g : Globals)
           (r : result (option Exit)) (g' : Globals) (t : list Event)
  : Prop :=
  forall e, r = Raise e -> e = EOFError.

(** The line [update_board(move)] prints above the board. *)
Definition board_caption (move : Z) : string :=
  ("Board after move " ++ string_of_Z (move + 1))%string.

(** The lines printed right after the output was cleared: the captions
    of the boards shown by [update_board]. *)
Fixpoint captions (t : list Event) : list string :=
  match t with
  | [] => []
  | e :: t' =>
      match e, t' with
      | EvClearOutput, EvPrint s :: _ => s :: captions t'
      | _, _ => captions t'
      end
  end.

(** The boards shown from ply count [move] on are captioned with the
    numbers that follow, one for every committed ply. *)
Definition captioned (move : Z) (g : Globals)
           (r : result (option Exit)) (g' : Globals) (t : list Event)
  : Prop :=
  captions t
  = map (fun k => board_caption (move + Z.of_nat k))
        (seq 0 (List.length (committers t))).

End WithEngine.
End SessionShape.

(* ================================================================== *)
(** * Properties *)

(* ------------------------------------------------------------------ *)
(** ** [split] and [join] *)

Module PyStrFacts.
Import PyStr.

Lemma isspace_space : isspace space = true.
Proof. reflexivity. Qed.

(** Reading a blank closes the current run. *)
Lemma split_from_blank (cur a b : str) (c : char) :
  isspace c = true ->
  split_from cur (a ++ c :: b) = split_from cur a ++ split_from [] b.
Proof.
  intros Hc. revert cur.
  induction a as [|x a IH]; intros cur; simpl.
  - now rewrite Hc.
  - destruct (isspace x).
    + now rewrite IH, app_assoc.
    + apply IH.
Qed.

Lemma split_blank (a b : str) (c : char) :
  isspace c = true -> split (a ++ c :: b) = split a ++ split b.
Proof. apply split_from_blank. Qed.

(** A run without blanks is accumulated whole. *)
Lemma split_from_solid (w cur : str) :
  forallb (fun c => negb (isspace c)) w = true ->
  split_from cur w = flush (rev w ++ cur).
Proof.
  revert cur. induction w as [|x w IH]; intros cur H; simpl in *.
  - reflexivity.
  - apply andb_prop in H as [Hx Hw].
    destruct (isspace x); [discriminate|].
    rewrite IH by assumption. now rewrite <- app_assoc.
Qed.

Lemma split_word (w : str) : is_word w -> split w = [w].
Proof.
  intros [Hne Hw]. unfold split. rewrite split_from_solid by assumption.
  rewrite app_nil_r. unfold flush.
  destruct (rev w) eqn:Hr.
  - apply (f_equal (@rev _)) in Hr. rewrite rev_involutive in Hr.
    now subst.
  - now rewrite <- Hr, rev_involutive.
Qed.

Lemma flush_words (cur : str) :
  forallb (fun c => negb (isspace c)) cur = true ->
  Forall is_word (flush cur).
Proof.
  intros H. destruct cur as [|c cur]; simpl; constructor; [|constructor].
  split.
  - intros Hnil. apply (f_equal (@List.length _)) in Hnil.
    rewrite length_app in Hnil. simpl in Hnil. lia.
  - rewrite forallb_forall in *. intros x Hx. apply H.
    now apply in_rev.
Qed.

(** Everything [split] returns is a word. *)
Lemma split_from_words (s cur : str) :
  forallb (fun c => negb (isspace c)) cur = true ->
  Forall is_word (split_from cur s).
Proof.
  revert cur. induction s as [|c s IH]; intros cur H; simpl.
  - now apply flush_words.
  - destruct (isspace c) eqn:Hc.
    + apply Forall_app. split; [now apply flush_words | now apply IH].
    + apply IH. simpl. now rewrite Hc.
Qed.

Lemma split_words (s : str) : Forall is_word (split s).
Proof. now apply split_from_words. Qed.

(** Splitting a space-join splits the parts. *)
Lemma split_join (l : list str) :
  split (join [space] l) = List.concat (map split l).
Proof.
  induction l as [|x l IH]; [reflexivity|].
  destruct l as [|y l].
  - simpl. now rewrite app_nil_r.
  - change (join [space] (x :: y :: l))
      with (x ++ space :: join [space] (y :: l)).
    rewrite split_blank by apply isspace_space.
    now rewrite IH.
Qed.

Lemma split_join_words (ws : list str) :
  Forall is_word ws -> split (join [space] ws) = ws.
Proof.
  intros H. rewrite split_join.
  induction H as [|w ws Hw _ IH]; [reflexivity|].
  simpl. now rewrite (split_word Hw), IH.
Qed.

End PyStrFacts.

(* ------------------------------------------------------------------ *)
(** ** [split_text] keeps the words *)

Module SplitTextFacts.
Import PyStr PyStrFacts SplitText.

Lemma concat_map_snoc (l : list str) (x : str) :
  List.concat (map split (l ++ [x])) = List.concat (map split l) ++ split x.
Proof. now rewrite map_app, concat_app; simpl; rewrite app_nil_r. Qed.

Lemma loop_body_held (max_tokens : Z) (st : loop_state) (word : str) :
  Forall is_word (current_chunk st) ->
  is_word word ->
  held (loop_body max_tokens st word) = held st ++ [word]
  /\ Forall is_word (current_chunk (loop_body max_tokens st word)).
Proof.
  intros Hcur Hw. unfold loop_body, held.
  destruct (current_length st + _ >? max_tokens)%Z; simpl.
  - rewrite concat_map_snoc, split_join_words by assumption.
    split; [reflexivity | now constructor].
  - split; [now rewrite app_assoc|].
    apply Forall_app; split; [assumption | now constructor].
Qed.

Lemma loop_held (max_tokens : Z) (words : list str) (st : loop_state) :
  Forall is_word (current_chunk st) ->
  Forall is_word words ->
  held (fold_left (loop_body max_tokens) words st) = held st ++ words
  /\ Forall is_word (current_chunk (fold_left (loop_body max_tokens) words st)).
Proof.
  intros Hcur Hws. revert st Hcur.
  induction Hws as [|w ws Hw _ IH]; intros st Hcur; simpl.
  - now rewrite app_nil_r.
  - destruct (loop_body_held max_tokens st Hcur Hw) as [Hh Hc].
    destruct (IH _ Hc) as [Hh' Hc'].
    split; [|assumption].
    now rewrite Hh', Hh, <- app_assoc.
Qed.

(** The words of the returned chunks, chunk by chunk. *)
Lemma split_text_chunks (text : str) (max_tokens : Z) :
  List.concat (map split (split_text text max_tokens)) = split text.
Proof.
  unfold split_text.
  set (st0 := {| chunks := []; current_chunk := []; current_length := 0 |}).
  destruct (@loop_held max_tokens (split text) st0) as [Hh Hc];
    [constructor | apply split_words |].
  unfold held in Hh. simpl in Hh.
  destruct (current_chunk _) as [|w ws] eqn:Hcur.
  - now rewrite app_nil_r in Hh.
  - rewrite concat_map_snoc, split_join_words by assumption.
    exact Hh.
Qed.

(** A word longer than the budget is kept whole, after an empty first
    chunk; blanks of any kind and number separate the words. *)
Example split_text_long_word :
  split_text (of_string "abcdef  gh i") 4
  = [of_string ""; of_string "abcdef"; of_string "gh"; of_string "i"].
Proof. reflexivity. Qed.

Example split_text_packs :
  split_text (of_string " the quick  brown fox ") 10
  = [of_string "the quick"; of_string "brown fox"].
Proof. reflexivity. Qed.

(** C10. For every text and every [max_tokens] (positive or not), the
    chunks of [split_text] keep the words of the text: joining the chunks
    with spaces and splitting on blanks gives the same words, in the same
    order, as splitting the text. *)
Theorem split_text_preserves_words (text : str) (max_tokens : Z) :
  split (join [space] (split_text text max_tokens)) = split text.
Proof.
  rewrite split_join. apply split_text_chunks.
Qed.

End SplitTextFacts.

(* ------------------------------------------------------------------ *)
(** ** The move functions *)

Module ArbiterFacts.
Import Chess.

Section WithEngine.
Context {E : RulesEngine}.

Lemma make_ai_move_off_turn (move : string) (g : Globals) :
  is_ai_turn g = false ->
  make_ai_move move g = (Raise (ValueError (ArgStr "Not AI's turn.")), g, []).
Proof.
  intros H. unfold make_ai_move, bind, get_globals. now rewrite H.
Qed.

Lemma make_user_move_off_turn (move : string) (g : Globals) :
  is_ai_turn g = true ->
  make_user_move move g
  = (Raise (ValueError (ArgStr "Not player's turn.")), g, []).
Proof.
  intros H. unfold make_user_move, bind, get_globals. now rewrite H.
Qed.

(** On the side's own turn the outcome is the one of the parser. *)
Lemma apply_move_on_turn (side : Side) (move : string) (g : Globals) :
  is_current_turn side g = true ->
  apply_move side move g
  = match board_parse_san (board g) move with
    | inl e => (Raise (ValueError (ArgExn (SanException e))), g, [])
    | inr m => (Ok tt, set_board g (board_push (board g) m), [])
    end.
Proof.
  intros H.
  destruct side; simpl in *;
    unfold make_ai_move, make_user_move, bind, get_globals;
    rewrite H; unfold try_except_ValueError, push_san;
    destruct (board_parse_san (board g) move); reflexivity.
Qed.

Lemma apply_move_off_turn (side : Side) (move : string) (g : Globals) :
  is_current_turn side g = false ->
  apply_move side move g
  = (Raise (ValueError (ArgStr (wrong_turn_message side))), g, []).
Proof.
  intros H. destruct side; simpl in *.
  - now apply make_ai_move_off_turn.
  - apply make_user_move_off_turn. now destruct (is_ai_turn g).
Qed.

Lemma wrong_turn_kind (side : Side) :
  error_kind (ValueError (ArgStr (wrong_turn_message side))) = WRONG_TURN.
Proof. now destruct side. Qed.

(** A successful move is a push of a parsed move, made on the side's
    own turn. *)
Lemma apply_move_ok (side : Side) (move : string) (g g' : Globals)
      (t : list Event) :
  apply_move side move g = (Ok tt, g', t) ->
  is_current_turn side g = true
  /\ t = []
  /\ exists m, board_parse_san (board g) move = inr m
               /\ g' = set_board g (board_push (board g) m).
Proof.
  intros H. destruct (is_current_turn side g) eqn:Hturn.
  - rewrite apply_move_on_turn in H by assumption.
    destruct (board_parse_san (board g) move) as [e|m]; [discriminate|].
    injection H as <- <-. eauto.
  - rewrite apply_move_off_turn in H by assumption. discriminate.
Qed.

(** C2. Whatever the position and the move text, legal or not, a move
    submitted by the side that is not to move is refused with the
    wrong-turn error of that side (["Not AI's turn."] from
    [make_ai_move], ["Not player's turn."] from [make_user_move]),
    and the globals are as before. *)
Theorem wrong_turn_rejected (side : Side) (move : string) (g : Globals) :
  is_current_turn side g = false ->
  apply_move side move g
  = (Raise (ValueError (ArgStr (wrong_turn_message side))), g, [])
  /\ error_kind (ValueError (ArgStr (wrong_turn_message side)))
     = WRONG_TURN.
Proof.
  intros H. split; [now apply apply_move_off_turn | apply wrong_turn_kind].
Qed.



Section Listed.
(** What the engine promises: the notation it prints for a legal
    move parses back to that move. *)
Hypothesis san_round_trip :
  forall (b : Board) (m : Move),
    In m (board_legal_moves b) ->
    board_parse_san b (board_san b m) = inr m.

(** A text the parser refuses is none of those [legal_moves()]
    lists. *)
Lemma refused_text_not_listed (move : string) (g : Globals)
      (e : SanError) :
  board_parse_san (board g) move = inl e -> ~ In move (legal_moves g).
Proof.
  intros Hp Hin. unfold legal_moves in Hin.
  apply in_map_iff in Hin as (m & <- & Hm).
  rewrite (san_round_trip _ _ Hm) in Hp. discriminate.
Qed.
End Listed.

Section Alternation.
(** What the engine promises: a push hands the move to the other
    colour. *)
Hypothesis push_turn :
  forall (b : Board) (m : Move),
    board_turn (board_push b m) = negb (board_turn b).

Lemma is_ai_turn_push (g : Globals) (m : Move) :
  is_ai_turn (set_board g (board_push (board g) m))
  = negb (is_ai_turn g).
Proof.
  unfold is_ai_turn. simpl. rewrite push_turn.
  now destruct (board_turn (board g)), (ai_pos g =? 0)%Z.
Qed.

Lemma apply_move_flips (side : Side) (move : string) (g g' : Globals)
      (t : list Event) :
  apply_move side move g = (Ok tt, g', t) ->
  is_ai_turn g' = negb (is_ai_turn g).
Proof.
  intros H. apply apply_move_ok in H as (_ & _ & m & _ & ->).
  apply is_ai_turn_push.
Qed.

(** C6. After a successful [make_ai_move] or [make_user_move] whose
    position is not terminal, [is_ai_turn] is the negation of what
    it was, and so is [is_current_turn] of either side.  (The flip
    does not depend on the reason; see [apply_move_flips].) *)
Theorem turn_alternates (side : Side) (move : string) (g g' : Globals)
        (t : list Event) :
  apply_move side move g = (Ok tt, g', t) ->
  termination_reason g' = NONE ->
  is_ai_turn g' = negb (is_ai_turn g)
  /\ forall s, is_current_turn s g' = negb (is_current_turn s g).
Proof.
  intros H _. pose proof (apply_move_flips _ _ _ H) as Hf.
  split; [assumption|].
  intros [|]; simpl; now rewrite Hf.
Qed.
End Alternation.

End WithEngine.
End ArbiterFacts.

(* ------------------------------------------------------------------ *)
(** ** The AI's turn *)

Module AgentFacts.
Import Chess ArbiterFacts.

Section WithEngine.
Context {E : RulesEngine}.

Lemma commits_app (a b : list Event) :
  commits (a ++ b) = commits a ++ commits b.
Proof. apply filter_app. Qed.

Lemma commits_nil_in (t : list Event) (f : Tool) (m : string) (b : Board) :
  commits t = [] -> ~ In (EvSubmit f m (Committed b)) t.
Proof.
  intros Hc Hin.
  assert (H : In (EvSubmit f m (Committed b)) (commits t))
    by (apply filter_In; now split).
  now rewrite Hc in H.
Qed.

(** The three ways a recorded call of [make_ai_move] ends. *)
Lemma call_make_ai_move_cases (move : string) (g : Globals) :
  (is_ai_turn g = false
   /\ call_make_ai_move move g
      = (Raise (ValueError (ArgStr "Not AI's turn.")), g,
         [EvSubmit T_make_ai_move move
            (Rejected (ValueError (ArgStr "Not AI's turn.")))]))
  \/ (is_ai_turn g = true
      /\ exists e,
        board_parse_san (board g) move = inl e
        /\ call_make_ai_move move g
           = (Raise (ValueError (ArgExn (SanException e))), g,
              [EvSubmit T_make_ai_move move
                 (Rejected (ValueError (ArgExn (SanException e))))]))
  \/ (is_ai_turn g = true
      /\ exists m,
        board_parse_san (board g) move = inr m
        /\ call_make_ai_move move g
           = (Ok tt, set_board g (board_push (board g) m),
              [EvSubmit T_make_ai_move move
                 (Committed (board_push (board g) m))])).
Proof.
  unfold call_make_ai_move, logged.
  destruct (is_ai_turn g) eqn:Hturn.
  - right.
    pose proof (apply_move_on_turn AUTOMATED move g Hturn) as Hm.
    simpl in Hm. rewrite Hm.
    destruct (board_parse_san (board g) move) as [e|m]; [left|right];
      (split; [reflexivity|]); eauto.
  - left. now rewrite (make_ai_move_off_turn move g Hturn).
Qed.

(** Of what the agent may request, only [make_ai_move] does
    anything. *)
Lemma run_tool_call_act_tools (c : ToolCall) (g : Globals) :
  run_tool_call act_tools c g
  = match c with
    | CallMove T_make_ai_move m => reported (call_make_ai_move m) g
    | _ => (Ok tt, g, [])
    end.
Proof. destruct c as [[]|[] m]; reflexivity. Qed.

Lemma run_tool_call_off_turn (c : ToolCall) (g : Globals) :
  is_ai_turn g = false ->
  exists t, run_tool_call act_tools c g = (Ok tt, g, t)
            /\ Forall is_off_turn_refusal t.
Proof.
  intros Hturn. rewrite run_tool_call_act_tools.
  destruct c as [t|t m]; [now exists []|].
  destruct t; try (now exists []).
  unfold reported.
  destruct (call_make_ai_move_cases m g) as [[_ ->]|[[H _]|[H _]]];
    try congruence.
  eexists. split; [reflexivity|].
  constructor; [now exists m | constructor].
Qed.

(** Once the AI is not to move, nothing the agent requests changes the
    board. *)
Lemma run_tool_calls_off_turn (cs : list ToolCall) (g : Globals) :
  is_ai_turn g = false ->
  exists t, run_tool_calls act_tools cs g = (Ok tt, g, t)
            /\ Forall is_off_turn_refusal t.
Proof.
  intros Hturn. induction cs as [|c cs IH]; simpl.
  - now exists [].
  - destruct (run_tool_call_off_turn c g Hturn) as (t1 & H1 & F1).
    destruct IH as (t2 & H2 & F2).
    exists (t1 ++ t2). unfold bind. rewrite H1, H2.
    split; [reflexivity | now apply Forall_app].
Qed.

Lemma off_turn_refusals_plain (t : list Event) :
  Forall is_off_turn_refusal t ->
  forallb is_submit t = true /\ commits t = [].
Proof.
  induction 1 as [|e t [m ->] _ [IH1 IH2]]; [now split|].
  simpl. now rewrite IH1.
Qed.

(** One request: the board stays, or it is the AI's turn and the
    request is a [make_ai_move] that the engine accepts. *)
Lemma run_tool_call_result (c : ToolCall) (g : Globals) :
  exists g' t,
    run_tool_call act_tools c g = (Ok tt, g', t)
    /\ forallb is_submit t = true
    /\ ((g' = g /\ commits t = [])
        \/ (is_ai_turn g = true
            /\ exists m text,
              board_parse_san (board g) text = inr m
              /\ g' = set_board g (board_push (board g) m)
              /\ t = [EvSubmit T_make_ai_move text (Committed (board g'))])).
Proof.
  rewrite run_tool_call_act_tools.
  destruct c as [f|f move]; [exists g, []; auto|].
  destruct f; try (exists g, []; now auto).
  unfold reported.
  destruct (call_make_ai_move_cases move g)
    as [[_ ->]|[(_ & e & _ & ->)|(Hturn & m & Hp & ->)]].
  - eexists _, _. split; [reflexivity|]. auto.
  - eexists _, _. split; [reflexivity|]. auto.
  - eexists _, _. split; [reflexivity|]. split; [reflexivity|].
    right. split; [assumption|]. now exists m, move.
Qed.

(** An invocation that committed nothing left the globals alone. *)
Lemma run_tool_calls_no_commit (cs : list ToolCall) (g : Globals) :
  commits (snd (run_tool_calls act_tools cs g)) = [] ->
  exists t, run_tool_calls act_tools cs g = (Ok tt, g, t)
            /\ forallb is_submit t = true.
Proof.
  induction cs as [|c cs IH]; simpl.
  - intros _. now exists [].
  - unfold bind.
    destruct (run_tool_call_result c g)
      as (g1 & t1 & -> & Hs1 & [[-> Hc1]|(_ & m & text & _ & _ & ->)]).
    + destruct (run_tool_calls act_tools cs g) as [[r2 g2] t2] eqn:H2.
      simpl. rewrite commits_app, Hc1. simpl. intros Hc2.
      destruct IH as (t & Ht & Hs); [exact Hc2|].
      injection Ht as -> -> ->.
      exists (t1 ++ t). split; [reflexivity|].
      rewrite forallb_app. now rewrite Hs1, Hs.
    + destruct (run_tool_calls act_tools cs g1) as [[r2 g2] t2].
      unfold commits. simpl. discriminate.
Qed.

Lemma act_events (tools : list Tool) (n : nat)
      (rounds : list (list ToolCall)) (g : Globals) :
  act tools n rounds g
  = let '(r, g', t) :=
      run_tool_calls tools (List.concat (firstn n rounds)) g in
    (r, g', EvAct tools n :: t).
Proof. reflexivity. Qed.

Section Fallback.
(** What the engine promises: the notation it prints for a legal
    move parses back to that move, and a position without a legal
    move is mate or stalemate. *)
Hypothesis san_round_trip :
  forall (b : Board) (m : Move),
    In m (board_legal_moves b) ->
    board_parse_san b (board_san b m) = inr m.
Hypothesis no_moves_is_terminal :
  forall b : Board,
    board_legal_moves b = [] ->
    board_is_checkmate b || board_is_stalemate b = true.

Lemma playable_has_move (g : Globals) :
  get_end_state g = None ->
  exists first rest, board_legal_moves (board g) = first :: rest.
Proof.
  intros Hend. destruct (board_legal_moves (board g)) as [|m l] eqn:Hl.
  - apply no_moves_is_terminal in Hl.
    unfold get_end_state, end_state_of in Hend.
    destruct (board_is_checkmate (board g)); [discriminate|].
    destruct (board_is_stalemate (board g)); discriminate.
  - eauto.
Qed.

(** The failsafe alone, on the AI's turn in a playable position. *)
Lemma failsafe_commits (g : Globals) (first : Move) (rest : list Move) :
  board_legal_moves (board g) = first :: rest ->
  is_ai_turn g = true ->
  legal_moves g = board_san (board g) first :: map (board_san (board g)) rest
  /\ call_make_ai_move (board_san (board g) first) g
     = (Ok tt, set_board g (board_push (board g) first),
        [EvSubmit T_make_ai_move (board_san (board g) first)
           (Committed (board_push (board g) first))]).
Proof.
  intros Hl Hturn. split; [unfold legal_moves; now rewrite Hl|].
  assert (Hp : board_parse_san (board g) (board_san (board g) first)
               = inr first)
    by (apply san_round_trip; rewrite Hl; now left).
  destruct (call_make_ai_move_cases (board_san (board g) first) g)
    as [[H _]|[(_ & e & H & _)|(_ & m & H & ->)]]; congruence.
Qed.

(** C3. On the AI's turn in a position that is not terminal, when
    the invocation of the agent (the requests of at most five
    rounds) ends with no move committed, the loop commits exactly
    one move: the first element of [legal_moves()] as evaluated
    after the invocation, on a board the invocation left as it
    was. *)
Theorem fallback_commits_first_legal_move
        (rounds : list (list ToolCall)) (g : Globals) :
  is_ai_turn g = true ->
  get_end_state g = None ->
  commits (snd (act act_tools max_prediction_rounds rounds g)) = [] ->
  exists (first : Move) (t1 : list Event),
    act act_tools max_prediction_rounds rounds g = (Ok tt, g, t1)
    /\ hd_error (board_legal_moves (board g)) = Some first
    /\ hd_error (legal_moves g) = Some (board_san (board g) first)
    /\ ai_turn rounds g
       = (Ok tt, set_board g (board_push (board g) first),
          t1 ++ [EvSubmit T_make_ai_move (board_san (board g) first)
                   (Committed (board_push (board g) first))])
    /\ commits
         (t1 ++ [EvSubmit T_make_ai_move (board_san (board g) first)
                   (Committed (board_push (board g) first))])
       = [EvSubmit T_make_ai_move (board_san (board g) first)
            (Committed (board_push (board g) first))].
Proof.
  intros Hturn Hend Hnone.
  destruct (playable_has_move g Hend) as (first & rest & Hl).
  destruct (failsafe_commits g Hl Hturn) as [Hlm Hcall].
  rewrite act_events in Hnone.
  destruct (run_tool_calls_no_commit
              (List.concat (firstn max_prediction_rounds rounds)) g)
    as (t & Hrun & _).
  { destruct (run_tool_calls act_tools _ g) as [[r g'] t].
    exact Hnone. }
  assert (Hact : act act_tools max_prediction_rounds rounds g
                 = (Ok tt, g, EvAct act_tools max_prediction_rounds :: t))
    by (rewrite act_events; now rewrite Hrun).
  exists first, (EvAct act_tools max_prediction_rounds :: t).
  split; [exact Hact|].
  split; [now rewrite Hl|].
  split; [now rewrite Hlm|].
  split.
  - unfold ai_turn, bind. rewrite Hact. unfold get_globals.
    rewrite Hturn, Hlm, Hcall. reflexivity.
  - rewrite Hrun in Hnone. unfold commits in *.
    rewrite filter_app. simpl in *. now rewrite Hnone.
Qed.
End Fallback.

Section OnePly.
Hypothesis push_turn :
  forall (b : Board) (m : Move),
    board_turn (board_push b m) = negb (board_turn b).

(** What the requests of one invocation do to the board: nothing,
    or a single push made on the AI's turn. *)
Lemma run_tool_calls_result (cs : list ToolCall) (g : Globals) :
  exists g' t,
    run_tool_calls act_tools cs g = (Ok tt, g', t)
    /\ forallb is_submit t = true
    /\ ((g' = g /\ commits t = [])
        \/ (is_ai_turn g = true /\ is_ai_turn g' = false
            /\ exists m text,
              board_parse_san (board g) text = inr m
              /\ g' = set_board g (board_push (board g) m)
              /\ commits t
                 = [EvSubmit T_make_ai_move text (Committed (board g'))])).
Proof.
  revert g. induction cs as [|c cs IH]; intros g; simpl.
  - exists g, []. auto.
  - unfold bind.
    destruct (run_tool_call_result c g)
      as (g1 & t1 & -> & Hs1
          & [[-> Hc1]|(Hturn & m & text & Hp & Hg1 & ->)]).
    + destruct (IH g) as (g2 & t2 & -> & Hs2 & Hcase).
      exists g2, (t1 ++ t2). split; [reflexivity|].
      split; [rewrite forallb_app; now rewrite Hs1, Hs2|].
      rewrite commits_app, Hc1. exact Hcase.
    + assert (Hoff : is_ai_turn g1 = false)
        by (subst g1; rewrite (is_ai_turn_push push_turn), Hturn;
            reflexivity).
      destruct (run_tool_calls_off_turn cs g1 Hoff) as (t2 & -> & F2).
      destruct (off_turn_refusals_plain F2) as [Hs2 Hc2].
      eexists g1, (_ :: t2). split; [reflexivity|].
      split; [exact Hs2|].
      right. split; [assumption|]. split; [assumption|].
      exists m, text. split; [assumption|]. split; [assumption|].
      change (commits (EvSubmit T_make_ai_move text
                         (Committed (board g1)) :: t2))
        with (EvSubmit T_make_ai_move text (Committed (board g1))
                :: commits t2).
      now rewrite Hc2.
Qed.

(** What the AI's turn does to the board: nothing (the AI was not
    to move, or the failsafe raised), or a single push made on the
    AI's turn. *)
Lemma ai_turn_result (rounds : list (list ToolCall)) (g : Globals) :
  exists r g' t,
    ai_turn rounds g
    = (r, g', EvAct act_tools max_prediction_rounds :: t)
    /\ forallb is_submit t = true
    /\ ((g' = g /\ commits t = [] /\ (r = Ok tt -> is_ai_turn g = false))
        \/ (r = Ok tt /\ is_ai_turn g = true /\ is_ai_turn g' = false
            /\ exists m text,
              board_parse_san (board g) text = inr m
              /\ g' = set_board g (board_push (board g) m)
              /\ commits t
                 = [EvSubmit T_make_ai_move text (Committed (board g'))])).
Proof.
  unfold ai_turn, bind. rewrite act_events.
  destruct (run_tool_calls_result
              (List.concat (firstn max_prediction_rounds rounds)) g)
    as (g1 & t1 & -> & Hs1 & Hcase).
  unfold get_globals.
  destruct Hcase as [[-> Hc1]|(Hturn & Hoff & m & text & Hp & Hg1 & Hc1)].
  - destruct (is_ai_turn g) eqn:Hturn.
    + destruct (legal_moves g) as [|first rest].
      * simpl. eexists _, _, _. split; [reflexivity|]. rewrite ?app_nil_r.
        split; [assumption|].
        left. repeat split; auto. discriminate.
      * destruct (call_make_ai_move_cases first g)
          as [[H _]|[(_ & e & _ & ->)|(_ & m & Hp & ->)]];
          [congruence| |].
        -- simpl. eexists _, _, _. split; [reflexivity|]. rewrite ?app_nil_r.
           split; [rewrite forallb_app; now rewrite Hs1|].
           left. split; [reflexivity|].
           split; [now rewrite commits_app, Hc1|discriminate].
        -- simpl. eexists _, _, _. split; [reflexivity|]. rewrite ?app_nil_r.
           split; [rewrite forallb_app; now rewrite Hs1|].
           right. split; [reflexivity|]. split; [reflexivity|].
           split; [now rewrite (is_ai_turn_push push_turn), Hturn|].
           exists m, first. split; [assumption|].
           split; [reflexivity|]. now rewrite commits_app, Hc1.
    + simpl. eexists _, _, _. split; [reflexivity|]. rewrite ?app_nil_r.
      split; [assumption|].
      left. repeat split; auto.
  - rewrite Hoff. simpl. eexists _, _, _. split; [reflexivity|]. rewrite ?app_nil_r.
    split; [assumption|].
    right. split; [reflexivity|]. split; [assumption|].
    split; [assumption|]. now exists m, text.
Qed.

(** A commit recorded during the AI's turn is the board the turn
    ends on, and the turn did not raise. *)
Lemma ai_turn_commit (rounds : list (list ToolCall)) (g g' : Globals)
      (r : result unit) (t : list Event) (f : Tool) (move : string)
      (b : Board) :
  ai_turn rounds g = (r, g', t) ->
  In (EvSubmit f move (Committed b)) t ->
  r = Ok tt /\ b = board g'.
Proof.
  intros Hrun Hin.
  destruct (ai_turn_result rounds g)
    as (r0 & g0 & t0 & H0 & _ & Hcase).
  rewrite Hrun in H0. injection H0 as -> -> ->.
  destruct Hin as [Hin|Hin]; [discriminate|].
  destruct Hcase as [(_ & Hc & _)|(-> & _ & _ & m & text & _ & _ & Hc)].
  - now apply commits_nil_in in Hin.
  - assert (H : In (EvSubmit f move (Committed b)) (commits t0))
      by (apply filter_In; now split).
    rewrite Hc in H. destruct H as [H|[]].
    injection H as _ _ <-. now split.
Qed.

Section Playable.
Hypothesis san_round_trip :
  forall (b : Board) (m : Move),
    In m (board_legal_moves b) ->
    board_parse_san b (board_san b m) = inr m.
Hypothesis no_moves_is_terminal :
  forall b : Board,
    board_legal_moves b = [] ->
    board_is_checkmate b || board_is_stalemate b = true.

(** C9. On the AI's turn in a position that is not terminal,
    the turn commits exactly one ply.  A successful
    [make_ai_move] hands the move to the other side, so every
    later [make_ai_move] of the same invocation is refused with
    ["Not AI's turn."] and the board stays; and when the agent
    committed a move, the failsafe adds nothing. *)
Theorem one_ai_ply_per_turn (rounds : list (list ToolCall))
        (g : Globals) :
  is_ai_turn g = true ->
  get_end_state g = None ->
  (exists m text t,
      ai_turn rounds g
      = (Ok tt, set_board g (board_push (board g) m), t)
      /\ commits t
         = [EvSubmit T_make_ai_move text
              (Committed (board_push (board g) m))])
  /\ (forall move g1 t1,
         make_ai_move move g = (Ok tt, g1, t1) ->
         is_ai_turn g1 = false
         /\ (forall move2,
                make_ai_move move2 g1
                = (Raise (ValueError (ArgStr "Not AI's turn.")), g1, []))
         /\ (forall cs,
                exists t,
                  run_tool_calls act_tools cs g1 = (Ok tt, g1, t)
                  /\ Forall is_off_turn_refusal t))
  /\ (commits (snd (act act_tools max_prediction_rounds rounds g)) <> []
      -> ai_turn rounds g
         = act act_tools max_prediction_rounds rounds g).
Proof.
  intros Hturn Hend. split; [|split].
  - destruct (ai_turn_result rounds g)
      as (r & g' & t & Hrun & _ & Hcase).
    destruct Hcase
      as [(-> & Hc & Hr)|(-> & _ & _ & m & text & _ & -> & Hc)].
    + (* no commit at all: excluded, the failsafe succeeds *)
      exfalso.
      destruct (playable_has_move no_moves_is_terminal g Hend)
        as (first & rest & Hl).
      destruct (failsafe_commits san_round_trip g Hl Hturn)
        as [Hlm Hcall].
      unfold ai_turn, bind in Hrun. rewrite act_events in Hrun.
      destruct (run_tool_calls_no_commit
                  (List.concat (firstn max_prediction_rounds rounds)) g)
        as (t1 & Hrun1 & _).
      { destruct (run_tool_calls_result
                    (List.concat (firstn max_prediction_rounds rounds)) g)
          as (g1 & t1 & H1 & _ & Hcase).
        rewrite H1 in *. simpl.
        destruct Hcase as [[_ ?]|(_ & Hoff & _)]; [assumption|].
        unfold get_globals in Hrun. rewrite Hoff in Hrun.
        simpl in Hrun. injection Hrun as _ -> _.
        congruence. }
      rewrite Hrun1 in Hrun. unfold get_globals in Hrun.
      rewrite Hturn, Hlm, Hcall in Hrun.
      injection Hrun as _ _ Ht. subst t.
      rewrite commits_app in Hc.
      apply app_eq_nil in Hc as [_ Hc]. discriminate.
    + exists m, text, (EvAct act_tools max_prediction_rounds :: t).
      split; [exact Hrun | exact Hc].
  - intros move g1 t1 Hok.
    pose proof (apply_move_flips push_turn AUTOMATED _ _ Hok) as Hoff.
    rewrite Hturn in Hoff. simpl in Hoff.
    split; [assumption|]. split.
    + intros move2. now apply make_ai_move_off_turn.
    + intros cs. now apply run_tool_calls_off_turn.
  - intros Hsome. unfold ai_turn, bind.
    rewrite act_events in *.
    destruct (run_tool_calls_result
                (List.concat (firstn max_prediction_rounds rounds)) g)
      as (g1 & t1 & H1 & _ & Hcase).
    rewrite H1 in *. simpl in Hsome.
    destruct Hcase as [[_ Hc]|(_ & Hoff & _)]; [contradiction|].
    unfold get_globals. rewrite Hoff. simpl.
    now rewrite app_nil_r.
Qed.
End Playable.
End OnePly.

End WithEngine.
End AgentFacts.

(* ------------------------------------------------------------------ *)
(** ** The user's turn *)

Module UserFacts.
Import Chess ArbiterFacts.

Section WithEngine.
Context {E : RulesEngine}.

(** The two ways a recorded call of [make_user_move] ends. *)
Lemma call_make_user_move_cases (move : string) (g : Globals) :
  (exists e,
      is_ValueError e = true
      /\ call_make_user_move move g
         = (Raise e, g, [EvSubmit T_make_user_move move (Rejected e)]))
  \/ (is_ai_turn g = false
      /\ exists m,
        board_parse_san (board g) move = inr m
        /\ call_make_user_move move g
           = (Ok tt, set_board g (board_push (board g) m),
              [EvSubmit T_make_user_move move
                 (Committed (board_push (board g) m))])).
Proof.
  unfold call_make_user_move, logged.
  destruct (is_ai_turn g) eqn:Hturn.
  - left. rewrite (make_user_move_off_turn move g Hturn).
    eexists. split; [|reflexivity]. reflexivity.
  - assert (Hh : is_current_turn HUMAN g = true) by (simpl; now rewrite Hturn).
    pose proof (apply_move_on_turn HUMAN move g Hh) as Hm.
    simpl in Hm. rewrite Hm.
    destruct (board_parse_san (board g) move) as [e|m]; [left|right].
    + eexists. split; [|reflexivity]. reflexivity.
    + split; [reflexivity|]. now exists m.
Qed.

Lemma user_turn_eof (prompt : string) (g : Globals) :
  user_turn prompt [] g = (Raise EOFError, g, []).
Proof. reflexivity. Qed.

Lemma user_turn_quit (prompt user_move : string) (rest : list string)
      (g : Globals) :
  String.eqb (lower user_move) "quit" = true ->
  user_turn prompt (user_move :: rest) g
  = (Ok (true, rest), g,
     [EvInput prompt user_move; EvPrint "Game ended by user."]).
Proof.
  intros H. simpl. unfold bind, emit. now rewrite H.
Qed.

Lemma user_turn_help (prompt user_move : string) (rest : list string)
      (g : Globals) :
  String.eqb (lower user_move) "help" = true ->
  user_turn prompt (user_move :: rest) g
  = let '(r, g', t) := user_turn prompt rest g in
    (r, g', EvInput prompt user_move :: EvPrintMoves (legal_moves g) :: t).
Proof.
  intros H. simpl. unfold bind, emit, get_globals.
  assert (Hq : String.eqb (lower user_move) "quit" = false).
  { apply String.eqb_eq in H. now rewrite H. }
  rewrite Hq, H.
  now destruct (user_turn prompt rest g) as [[r g'] t].
Qed.

(** A line that is neither command is submitted as a move: committed,
    or refused, printed and followed by another prompt. *)
Lemma user_turn_move (prompt user_move : string) (rest : list string)
      (g : Globals) :
  String.eqb (lower user_move) "quit" = false ->
  String.eqb (lower user_move) "help" = false ->
  (exists e,
      call_make_user_move user_move g
      = (Raise e, g, [EvSubmit T_make_user_move user_move (Rejected e)])
      /\ user_turn prompt (user_move :: rest) g
         = let '(r, g', t) := user_turn prompt rest g in
           (r, g',
            EvInput prompt user_move
              :: EvSubmit T_make_user_move user_move (Rejected e)
              :: EvPrintExn e :: t))
  \/ (is_ai_turn g = false
      /\ exists m,
        board_parse_san (board g) user_move = inr m
        /\ user_turn prompt (user_move :: rest) g
           = (Ok (false, rest), set_board g (board_push (board g) m),
              [EvInput prompt user_move;
               EvSubmit T_make_user_move user_move
                 (Committed (board_push (board g) m))])).
Proof.
  intros Hq Hh. simpl. unfold bind at 1, emit. rewrite Hq, Hh.
  unfold try_except_ValueError, bind.
  destruct (call_make_user_move_cases user_move g)
    as [(e & He & Hcall)|(Hturn & m & Hp & Hcall)]; rewrite Hcall.
  - left. exists e. split; [reflexivity|]. rewrite He.
    now destruct (user_turn prompt rest g) as [[r g'] t].
  - right. split; [assumption|]. exists m. now split.
Qed.

(** Whatever the line, the turn begins by reading it. *)
Lemma user_turn_prompts_first (prompt next : string)
      (rest : list string) (g : Globals) :
  exists r g' t,
    user_turn prompt (next :: rest) g = (r, g', EvInput prompt next :: t).
Proof.
  destruct (String.eqb (lower next) "quit") eqn:Hq.
  - rewrite user_turn_quit by assumption. eauto.
  - destruct (String.eqb (lower next) "help") eqn:Hh.
    + rewrite user_turn_help by assumption.
      destruct (user_turn prompt rest g) as [[r g'] t]. eauto.
    + destruct (user_turn_move prompt next rest g Hq Hh)
        as [(e & _ & ->)|(_ & m & _ & ->)].
      * destruct (user_turn prompt rest g) as [[r g'] t]. eauto.
      * eauto.
Qed.

(** C7. When the line typed is [help] in any letter case, the loop
    shows exactly [legal_moves()] of the current position and goes on
    as the same loop on the same globals with the lines that
    follow: no move function is called, nothing changes, and the next
    thing it does is prompt again. *)
Theorem help_shows_legal_moves (prompt user_move : string)
        (rest : list string) (g : Globals) :
  lower user_move = "help"%string ->
  exists r g' t,
    user_turn prompt rest g = (r, g', t)
    /\ user_turn prompt (user_move :: rest) g
       = (r, g',
          EvInput prompt user_move :: EvPrintMoves (legal_moves g) :: t)
    /\ match rest with
       | next :: _ => exists t', t = EvInput prompt next :: t'
       | [] => r = Raise EOFError /\ t = []
       end.
Proof.
  intros H.
  assert (Hh : String.eqb (lower user_move) "help" = true)
    by (now rewrite H).
  rewrite (user_turn_help prompt user_move rest g Hh).
  destruct (user_turn prompt rest g) as [[r g'] t] eqn:Hrest.
  exists r, g', t. split; [reflexivity|]. split; [reflexivity|].
  destruct rest as [|next rest'].
  - rewrite user_turn_eof in Hrest. now injection Hrest as <- _ <-.
  - destruct (user_turn_prompts_first prompt next rest' g)
      as (r1 & g1 & t1 & H1).
    rewrite H1 in Hrest. injection Hrest as _ _ <-. eauto.
Qed.

End WithEngine.
End UserFacts.

(* ------------------------------------------------------------------ *)
(** ** Runs of the session loop *)

Module TraceFacts.
Import Chess.

Section WithEngine.
Context {E : RulesEngine}.

Lemma free_of_app (P : Event -> bool) (a b : list Event) :
  free_of P (a ++ b) <-> free_of P a /\ free_of P b.
Proof.
  unfold free_of. rewrite existsb_app. apply orb_false_iff.
Qed.

Lemma existsb_free_app (P : Event -> bool) (a t : list Event) :
  free_of P a -> existsb P (a ++ t) = existsb P t.
Proof. unfold free_of. intros H. now rewrite existsb_app, H. Qed.

Lemma after_each_app_free (P : Event -> bool) (Q : list Event -> Prop)
      (a t : list Event) :
  free_of P a -> after_each P Q t -> after_each P Q (a ++ t).
Proof.
  unfold free_of. induction a as [|x a IH]; simpl; [auto|].
  intros H Ht. apply orb_false_iff in H as [Hx Ha].
  split; [congruence | auto].
Qed.

Lemma after_each_free (P : Event -> bool) (Q : list Event -> Prop)
      (t : list Event) :
  free_of P t -> after_each P Q t.
Proof.
  intros H. rewrite <- (app_nil_r t).
  now apply after_each_app_free.
Qed.

Lemma after_each_at (P : Event -> bool) (Q : list Event -> Prop)
      (pre : list Event) (e : Event) (post : list Event) :
  after_each P Q (pre ++ e :: post) -> P e = true -> Q post.
Proof.
  induction pre as [|x pre IH]; simpl; intros [H1 H2] He; auto.
Qed.

Lemma quiet_app (a b : list Event) : quiet a -> quiet b -> quiet (a ++ b).
Proof.
  unfold quiet. intros Ha Hb. now rewrite forallb_app, Ha, Hb.
Qed.

Lemma quiet_after_each (P : Event -> bool) (t : list Event) :
  quiet t -> after_each P quiet t.
Proof.
  unfold quiet. induction t as [|x t IH]; simpl; [auto|].
  intros H. apply andb_prop in H as [_ Ht]. auto.
Qed.

(** Calls of the move functions are neither prompts nor
    invocations. *)
Lemma submits_quiet (t : list Event) :
  forallb is_submit t = true -> quiet t.
Proof.
  unfold quiet. induction t as [|x t IH]; simpl; [auto|].
  intros H. apply andb_prop in H as [Hx Ht].
  rewrite IH by assumption. now destruct x.
Qed.

Lemma submits_no_quit (t : list Event) :
  forallb is_submit t = true -> free_of is_quit_input t.
Proof.
  unfold free_of. induction t as [|x t IH]; simpl; [auto|].
  intros H. apply andb_prop in H as [Hx Ht].
  rewrite IH by assumption. now destruct x.
Qed.

Lemma submits_no_act (t : list Event) :
  forallb is_submit t = true -> Forall act_as_written t.
Proof.
  induction t as [|x t IH]; simpl; [constructor|].
  intros H. apply andb_prop in H as [Hx Ht].
  constructor; [now destruct x | auto].
Qed.

Lemma final_commit_is_commit (msg : string) (e : Event) :
  is_final_commit msg e = true ->
  exists f move b, e = EvSubmit f move (Committed b)
                   /\ end_state_of b = Some msg.
Proof.
  destruct e as [| | | | | | |f move [b|x]]; try discriminate.
  simpl. destruct (end_state_of b) as [m|] eqn:Hb; [|discriminate].
  intros H. apply String.eqb_eq in H. subst m. eauto.
Qed.

(** *** The invariant, piece by piece *)

Section Family.
Variable F : string -> Event -> bool.
Hypothesis F_final :
  forall msg e, F msg e = true -> is_final_commit msg e = true.

Lemma family_commit (msg : string) (e : Event) :
  F msg e = true -> is_commit e = true.
Proof.
  intros H. apply F_final, final_commit_is_commit in H
    as (f & move & b & -> & _).
  reflexivity.
Qed.

Lemma no_commit_no_final (t : list Event) (msg : string) :
  commits t = [] -> free_of (F msg) t.
Proof.
  unfold free_of, commits. induction t as [|x t IH]; simpl; [auto|].
  destruct (F msg x) eqn:HF.
  - apply family_commit in HF. rewrite HF. discriminate.
  - destruct (is_commit x); [discriminate | exact IH].
Qed.

Lemma existsb_final_in (msg : string) (t : list Event) :
  existsb (F msg) t = true ->
  exists f move b, In (EvSubmit f move (Committed b)) t
                   /\ end_state_of b = Some msg.
Proof.
  intros H. apply existsb_exists in H as (e & Hin & He).
  apply F_final, final_commit_is_commit in He
    as (f & move & b & -> & Hb).
  eauto.
Qed.

Lemma noise_plain (t : list Event) :
  forallb is_noise t = true -> plain F t.
Proof.
  unfold plain, free_of.
  induction t as [|x t IH]; simpl; intros H.
  - repeat split; constructor.
  - apply andb_prop in H as [Hx Ht].
    destruct (IH Ht) as (H1 & H2 & H3).
    unfold is_noise in Hx.
    apply andb_prop in Hx as [Hx Hact].
    apply andb_prop in Hx as [Hquit Hcommit].
    repeat split.
    + rewrite H1. now destruct (is_quit_input x).
    + intros msg. rewrite H2. destruct (F msg x) eqn:HF; [|reflexivity].
      apply family_commit in HF. rewrite HF in Hcommit. discriminate.
    + constructor; [now destruct x | assumption].
Qed.

Lemma plain_app (a b : list Event) :
  plain F a -> plain F b -> plain F (a ++ b).
Proof.
  intros (Ha1 & Ha2 & Ha3) (Hb1 & Hb2 & Hb3). repeat split.
  - now apply free_of_app.
  - intros msg. now apply free_of_app.
  - now apply Forall_app.
Qed.

Lemma loop_inv_plain (r : result (option Exit)) (t : list Event) :
  plain F t -> loop_inv F r t.
Proof.
  intros (H1 & H2 & H3). unfold loop_inv, free_of in *.
  split; [now apply after_each_free|].
  split; [congruence|].
  split; [|assumption].
  intros msg. specialize (H2 msg).
  split; [now apply after_each_free | congruence].
Qed.

Lemma loop_inv_prepend (r : result (option Exit)) (a t : list Event) :
  plain F a -> loop_inv F r t -> loop_inv F r (a ++ t).
Proof.
  intros (Ha1 & Ha2 & Ha3) (H1 & H2 & H3 & H4). unfold loop_inv.
  split; [now apply after_each_app_free|].
  split; [now rewrite existsb_free_app|].
  split; [|now apply Forall_app].
  intros msg. destruct (H3 msg) as [H5 H6].
  split; [now apply after_each_app_free|].
  now rewrite existsb_free_app.
Qed.

Lemma loop_inv_quit (prompt reply : string) :
  String.eqb (lower reply) "quit" = true ->
  loop_inv F (Ok (Some UserQuit))
           [EvInput prompt reply; EvPrint "Game ended by user."].
Proof.
  intros Hq.
  assert (Hf : forall msg e, is_commit e = false -> F msg e = false).
  { intros msg e He. destruct (F msg e) eqn:HF; [|reflexivity].
    apply family_commit in HF. congruence. }
  unfold loop_inv. split; [|split; [|split]].
  - simpl. repeat split; (reflexivity || discriminate).
  - reflexivity.
  - intros msg. simpl. rewrite !Hf by reflexivity.
    repeat split; discriminate.
  - repeat constructor.
Qed.

(** The last ply of a finished game and what follows it. *)
Lemma loop_inv_last_ply (x : Event) (l : list Event) (msg : string) :
  quiet l ->
  free_of is_quit_input (x :: l) ->
  Forall act_as_written (x :: l) ->
  (forall msg', existsb (F msg') (x :: l) = true -> msg' = msg) ->
  loop_inv F (Ok (Some (GameOver msg))) (x :: l).
Proof.
  intros Hq Hfree Hact Hmsg. unfold loop_inv.
  split; [now apply after_each_free|].
  split; [unfold free_of in Hfree; congruence|].
  split; [|assumption].
  intros msg'. split.
  - split; [auto | now apply quiet_after_each].
  - intros H. now rewrite (Hmsg msg' H).
Qed.
End Family.

End WithEngine.
End TraceFacts.

Module SessionFacts.
Import Chess ArbiterFacts AgentFacts UserFacts TraceFacts.

Section WithEngine.
Context {E : RulesEngine}.

Lemma after_ply_eq (move : Z) (k : Z -> Prog (option Exit)) (g : Globals) :
  after_ply move k g
  = match get_end_state g with
    | Some msg =>
        (Ok (Some (GameOver msg)), g,
         shown_after_ply move g ++ [EvPrint msg])
    | None =>
        let '(r, g', t) := k (move + 1)%Z g in
        (r, g', shown_after_ply move g ++ t)
    end.
Proof.
  unfold after_ply, update_board, display_board, shown_after_ply,
    bind, emit, get_globals.
  destruct (ai_pos g =? 1)%Z; simpl;
    destruct (get_end_state g); simpl; try reflexivity;
    now destruct (k (move + 1)%Z g) as [[r g'] t].
Qed.

(** The cell: the first display, then the loop. *)
Lemma session_eq (draw : Z) (agent : Z -> list (list ToolCall))
      (lines : list string) :
  session draw agent lines
  = let '(r, g', t) :=
      game_loop (S (List.length lines)) agent 0 lines
                {| board := board_reset; ai_pos := draw |} in
    (r, g', EvClearOutput :: EvDisplay board_reset (draw =? 1)%Z :: t).
Proof.
  unfold session.
  generalize (game_loop (S (List.length lines)) agent 0 lines) as p.
  intros p. cbv [bind emit display_board get_globals ai_pos board].
  destruct (draw =? 1)%Z; now destruct (p _) as [[r g'] t].
Qed.

(** What the user's turn records: lines that are neither [quit] nor
    an accepted move, then the end of the lines, [quit], or an
    accepted move. *)
Lemma user_turn_summary (prompt : string) (lines : list string)
      (g : Globals) :
  exists t0,
    forallb is_noise t0 = true
    /\ (user_turn prompt lines g = (Raise EOFError, g, t0)
        \/ (exists s rest,
               String.eqb (lower s) "quit" = true
               /\ List.length rest < List.length lines
               /\ user_turn prompt lines g
                  = (Ok (true, rest), g,
                     t0 ++ [EvInput prompt s;
                            EvPrint "Game ended by user."]))
        \/ (exists s rest m,
               String.eqb (lower s) "quit" = false
               /\ List.length rest < List.length lines
               /\ is_ai_turn g = false
               /\ user_turn prompt lines g
                  = (Ok (false, rest),
                     set_board g (board_push (board g) m),
                     t0 ++ [EvInput prompt s;
                            EvSubmit T_make_user_move s
                              (Committed (board_push (board g) m))]))).
Proof.
  induction lines as [|s rest IH].
  - exists []. split; [reflexivity|]. left. apply user_turn_eof.
  - destruct (String.eqb (lower s) "quit") eqn:Hq.
    { exists []. split; [reflexivity|]. right. left. exists s, rest.
      split; [assumption|]. split; [simpl; lia|].
      now apply user_turn_quit. }
    destruct IH as (t0 & Hn0 & IH).
    assert (Hgo : forall pre : list Event,
               forallb is_noise pre = true ->
               user_turn prompt (s :: rest) g
               = (let '(r, g', t) := user_turn prompt rest g in
                  (r, g', pre ++ t)) ->
               exists t1,
                 forallb is_noise t1 = true
                 /\ (user_turn prompt (s :: rest) g = (Raise EOFError, g, t1)
                     \/ (exists s' rest',
                            String.eqb (lower s') "quit" = true
                            /\ List.length rest' < List.length (s :: rest)
                            /\ user_turn prompt (s :: rest) g
                               = (Ok (true, rest'), g,
                                  t1 ++ [EvInput prompt s';
                                         EvPrint "Game ended by user."]))
                     \/ (exists s' rest' m,
                            String.eqb (lower s') "quit" = false
                            /\ List.length rest' < List.length (s :: rest)
                            /\ is_ai_turn g = false
                            /\ user_turn prompt (s :: rest) g
                               = (Ok (false, rest'),
                                  set_board g (board_push (board g) m),
                                  t1 ++ [EvInput prompt s';
                                         EvSubmit T_make_user_move s'
                                           (Committed
                                              (board_push (board g) m))])))).
    { intros pre Hpre Heq. exists (pre ++ t0).
      split; [rewrite forallb_app; now rewrite Hpre, Hn0|].
      rewrite Heq.
      destruct IH as [->|[(s' & rest' & Hs' & Hlen & ->)
                         |(s' & rest' & m & Hs' & Hlen & Hturn & ->)]].
      - now left.
      - right. left. exists s', rest'. split; [assumption|].
        split; [simpl; lia|]. now rewrite app_assoc.
      - right. right. exists s', rest', m. split; [assumption|].
        split; [simpl; lia|]. split; [assumption|].
        now rewrite app_assoc. }
    destruct (String.eqb (lower s) "help") eqn:Hh.
    + apply (Hgo [EvInput prompt s; EvPrintMoves (legal_moves g)]).
      * unfold is_noise. simpl. now rewrite Hq.
      * now rewrite user_turn_help.
    + destruct (user_turn_move prompt s rest g Hq Hh)
        as [(e & _ & Heq)|(Hturn & m & _ & Heq)].
      * apply (Hgo [EvInput prompt s;
                    EvSubmit T_make_user_move s (Rejected e);
                    EvPrintExn e]).
        -- unfold is_noise. simpl. now rewrite Hq.
        -- exact Heq.
      * exists []. split; [reflexivity|]. right. right.
        exists s, rest, m.
        split; [assumption|]. split; [simpl; lia|].
        split; [assumption|]. exact Heq.
Qed.

(** The requests of an invocation record calls of the move functions
    only, whatever the engine. *)
Lemma run_tool_calls_events (cs : list ToolCall) (g : Globals) :
  exists g' t, run_tool_calls act_tools cs g = (Ok tt, g', t)
               /\ forallb is_submit t = true.
Proof.
  revert g. induction cs as [|c cs IH]; intros g; simpl.
  - now exists g, [].
  - unfold bind.
    destruct (run_tool_call_result c g) as (g1 & t1 & -> & Hs1 & _).
    destruct (IH g1) as (g2 & t2 & -> & Hs2).
    exists g2, (t1 ++ t2). split; [reflexivity|].
    rewrite forallb_app. now rewrite Hs1, Hs2.
Qed.

Lemma ai_turn_events (rounds : list (list ToolCall)) (g : Globals) :
  exists r g' t,
    ai_turn rounds g = (r, g', EvAct act_tools max_prediction_rounds :: t)
    /\ forallb is_submit t = true.
Proof.
  unfold ai_turn, bind. rewrite act_events.
  destruct (run_tool_calls_events
              (List.concat (firstn max_prediction_rounds rounds)) g)
    as (g1 & t1 & -> & Hs1).
  unfold get_globals. destruct (is_ai_turn g1).
  - destruct (legal_moves g1) as [|first rest].
    + simpl. eexists _, _, _. split; [reflexivity|].
      now rewrite app_nil_r.
    + unfold call_make_ai_move, logged.
      destruct (make_ai_move first g1) as [[r2 g2] t2] eqn:Hm.
      assert (t2 = []) as ->.
      { destruct r2 as [[]|e].
        - now apply (apply_move_ok AUTOMATED) in Hm as (_ & -> & _).
        - destruct (is_ai_turn g1) eqn:Hturn.
          + pose proof (apply_move_on_turn AUTOMATED first g1 Hturn) as H.
            simpl in H. rewrite H in Hm.
            destruct (board_parse_san (board g1) first);
              now injection Hm as _ _ <-.
          + rewrite make_ai_move_off_turn in Hm by assumption.
            now injection Hm as _ _ <-. }
      simpl. eexists _, _, _. split; [reflexivity|].
      rewrite forallb_app. now rewrite Hs1.
  - simpl. eexists _, _, _. split; [reflexivity|].
    now rewrite app_nil_r.
Qed.

Section Family.
Variable F : string -> Event -> bool.
Hypothesis F_final :
  forall msg e, F msg e = true -> is_final_commit msg e = true.

Lemma shown_after_ply_plain (move : Z) (g : Globals) :
  plain F (shown_after_ply move g).
Proof. now apply noise_plain. Qed.

(** The display and the end check after a ply [x], with [l] what
    the turn recorded after it. *)
Lemma inv_after_ply (x : Event) (l : list Event) (move : Z)
      (k : Z -> Prog (option Exit)) (g g' : Globals)
      (r : result (option Exit)) (t : list Event) :
  after_ply move k g = (r, g', t) ->
  (forall m, good F (k m)) ->
  quiet l ->
  free_of is_quit_input (x :: l) ->
  Forall act_as_written (x :: l) ->
  (forall msg, existsb (F msg) (x :: l) = true ->
               get_end_state g = Some msg) ->
  loop_inv F r ((x :: l) ++ t).
Proof.
  intros Hrun Hk Hq Hfree Hact Hend. rewrite after_ply_eq in Hrun.
  destruct (shown_after_ply_plain move g) as (Hs1 & Hs2 & Hs3).
  destruct (get_end_state g) as [msg|] eqn:Hg.
  - injection Hrun as <- <- <-.
    change ((x :: l) ++ shown_after_ply move g ++ [EvPrint msg])
      with (x :: (l ++ shown_after_ply move g ++ [EvPrint msg])).
    apply loop_inv_last_ply.
    + apply quiet_app; [assumption | reflexivity].
    + change (free_of is_quit_input
                ((x :: l) ++ shown_after_ply move g ++ [EvPrint msg])).
      apply free_of_app. split; [assumption | reflexivity].
    + change (Forall act_as_written
                ((x :: l) ++ shown_after_ply move g ++ [EvPrint msg])).
      apply Forall_app. split; [assumption | repeat constructor].
    + intros msg' H.
      change (existsb (F msg')
                ((x :: l) ++ shown_after_ply move g ++ [EvPrint msg])
              = true) in H.
      rewrite existsb_app in H. apply orb_true_iff in H as [H|H].
      * apply Hend in H. congruence.
      * rewrite existsb_app in H. apply orb_true_iff in H as [H|H].
        -- specialize (Hs2 msg'). unfold free_of in Hs2. congruence.
        -- simpl in H. rewrite orb_false_r in H.
           apply (family_commit F F_final) in H. discriminate.
  - destruct (k (move + 1)%Z g) as [[r1 g1] t1] eqn:Hk1.
    injection Hrun as <- <- <-.
    enough (Hen : loop_inv F r1
                    (((x :: l) ++ shown_after_ply move g) ++ t1))
      by (rewrite <- app_assoc in Hen; exact Hen).
    apply loop_inv_prepend.
    + apply plain_app; [|apply shown_after_ply_plain].
      repeat split; [assumption | | assumption].
      intros msg. unfold free_of.
      destruct (existsb (F msg) (x :: l)) eqn:Hx; [|reflexivity].
      apply Hend in Hx. discriminate.
    + exact (Hk _ _ _ _ _ Hk1).
Qed.

Lemma good_user_ply (prompt : string) (lines : list string) (move : Z)
      (k : list string -> Z -> Prog (option Exit)) :
  (forall l m, good F (k l m)) ->
  good F (user_ply prompt lines move k).
Proof.
  intros Hk g r g' t Hrun. unfold user_ply, bind in Hrun.
  destruct (user_turn_summary prompt lines g)
    as (t0 & Hn0
        & [Heq|[(s & rest & Hq & _ & Heq)
               |(s & rest & m & Hq & _ & Hturn & Heq)]]);
    rewrite Heq in Hrun;
    pose proof (noise_plain F F_final t0 Hn0) as Hplain.
  - injection Hrun as <- <- <-. now apply loop_inv_plain.
  - simpl in Hrun. injection Hrun as <- <- <-.
    rewrite app_nil_r. apply loop_inv_prepend; [assumption|].
    now apply loop_inv_quit.
  - destruct (after_ply move (k rest) _) as [[r1 g1] t1] eqn:Hply.
    injection Hrun as <- <- <-.
    change (t0 ++ [EvInput prompt s;
                   EvSubmit T_make_user_move s
                     (Committed (board_push (board g) m))])
      with (t0 ++ [EvInput prompt s]
               ++ [EvSubmit T_make_user_move s
                     (Committed (board_push (board g) m))]).
    rewrite <- !app_assoc. apply loop_inv_prepend; [assumption|].
    apply loop_inv_prepend with (a := [EvInput prompt s]).
    { apply noise_plain; [assumption|]. unfold is_noise. simpl.
      now rewrite Hq. }
    eapply inv_after_ply; [exact Hply | apply Hk | | | |].
    + reflexivity.
    + reflexivity.
    + repeat constructor.
    + intros msg H.
      apply (existsb_final_in F F_final) in H
        as (f & mv & b & Hin & Hb).
      destruct Hin as [Hin|[]]. injection Hin as _ _ <-. exact Hb.
Qed.

Section Loop.
Hypothesis good_ai_ply :
  forall (rounds : list (list ToolCall)) (move : Z)
         (k : Z -> Prog (option Exit)),
    (forall m, good F (k m)) -> good F (ai_ply rounds move k).

(** Every run of the loop, with any fuel, satisfies the
    invariant. *)
Lemma game_loop_good (fuel : nat) (agent : Z -> list (list ToolCall))
      (move : Z) (lines : list string) :
  good F (game_loop fuel agent move lines).
Proof.
  revert move lines. induction fuel as [|fuel IH]; intros move lines.
  - intros g r g' t Hrun. injection Hrun as <- <- <-.
    apply loop_inv_plain. now apply noise_plain.
  - intros g r g' t Hrun. simpl in Hrun.
    unfold bind at 1, get_globals in Hrun.
    destruct (ai_pos g =? 0)%Z.
    + destruct (ai_ply _ _ _ g) as [[r1 g1] t1] eqn:H1.
      injection Hrun as <- <- <-. simpl.
      eapply good_ai_ply; [|exact H1].
      intros m. apply good_user_ply. intros l m'. apply IH.
    + destruct (user_ply _ _ _ _ g) as [[r1 g1] t1] eqn:H1.
      injection Hrun as <- <- <-. simpl.
      eapply good_user_ply; [|exact H1].
      intros l m. apply good_ai_ply. intros m'. apply IH.
Qed.

Lemma session_good (draw : Z) (agent : Z -> list (list ToolCall))
      (lines : list string) (r : result (option Exit)) (g' : Globals)
      (t : list Event) :
  session draw agent lines = (r, g', t) -> loop_inv F r t.
Proof.
  rewrite session_eq.
  destruct (game_loop _ _ _ _ _) as [[r1 g1] t1] eqn:Hloop.
  intros Hrun. injection Hrun as <- <- <-.
  apply loop_inv_prepend
    with (a := [EvClearOutput; EvDisplay board_reset (draw =? 1)%Z]).
  - now apply noise_plain.
  - exact (game_loop_good _ _ _ _ _ Hloop).
Qed.
End Loop.
End Family.

(** The AI's part, for the prompts and invocations alone: no promise
    of the engine is needed. *)
Lemma good_ai_ply_io (rounds : list (list ToolCall)) (move : Z)
      (k : Z -> Prog (option Exit)) :
  (forall m, good no_final_commit (k m)) ->
  good no_final_commit (ai_ply rounds move k).
Proof.
  assert (HF : forall msg e, no_final_commit msg e = true ->
                             is_final_commit msg e = true)
    by discriminate.
  intros Hk g r g' t Hrun. unfold ai_ply, bind in Hrun.
  destruct (ai_turn_events rounds g) as (r1 & g1 & t1 & Hturn & Hs).
  rewrite Hturn in Hrun.
  assert (Hnone : forall msg l, existsb (no_final_commit msg) l = false)
    by (intros msg l; induction l; simpl; auto).
  destruct r1 as [[]|e].
  - destruct (after_ply move k g1) as [[r2 g2] t2] eqn:Hply.
    injection Hrun as <- <- <-.
    eapply inv_after_ply; [exact HF | exact Hply | exact Hk | | | |].
    + now apply submits_quiet.
    + unfold free_of. simpl. now apply submits_no_quit.
    + constructor; [now split | now apply submits_no_act].
    + intros msg H. rewrite Hnone in H. discriminate.
  - injection Hrun as <- <- <-. apply loop_inv_plain.
    repeat split.
    + unfold free_of. simpl. now apply submits_no_quit.
    + intros msg. apply Hnone.
    + constructor; [now split | now apply submits_no_act].
Qed.

Lemma session_good_io (draw : Z) (agent : Z -> list (list ToolCall))
      (lines : list string) (r : result (option Exit)) (g' : Globals)
      (t : list Event) :
  session draw agent lines = (r, g', t) -> loop_inv no_final_commit r t.
Proof.
  apply session_good; [discriminate | apply good_ai_ply_io].
Qed.

Section OnePly.
Hypothesis push_turn :
  forall (b : Board) (m : Move),
    board_turn (board_push b m) = negb (board_turn b).

Lemma good_ai_ply_final (rounds : list (list ToolCall)) (move : Z)
      (k : Z -> Prog (option Exit)) :
  (forall m, good is_final_commit (k m)) ->
  good is_final_commit (ai_ply rounds move k).
Proof.
  assert (HF : forall msg e, is_final_commit msg e = true ->
                             is_final_commit msg e = true)
    by auto.
  intros Hk g r g' t Hrun. unfold ai_ply, bind in Hrun.
  destruct (ai_turn_result push_turn rounds g)
    as (r1 & g1 & t1 & Hturn & Hs & Hcase).
  rewrite Hturn in Hrun.
  destruct r1 as [[]|e].
  - destruct (after_ply move k g1) as [[r2 g2] t2] eqn:Hply.
    injection Hrun as <- <- <-.
    eapply inv_after_ply; [exact HF | exact Hply | exact Hk | | | |].
    + now apply submits_quiet.
    + unfold free_of. simpl. now apply submits_no_quit.
    + constructor; [now split | now apply submits_no_act].
    + intros msg H.
      apply (existsb_final_in is_final_commit HF) in H
        as (f & mv & b & Hin & Hb).
      eapply (ai_turn_commit push_turn) in Hin; [|exact Hturn].
      destruct Hin as [_ ->]. exact Hb.
  - injection Hrun as <- <- <-. apply loop_inv_plain.
    destruct Hcase as [(_ & Hc & _)|(Hr & _)]; [|discriminate].
    repeat split.
    + unfold free_of. simpl. now apply submits_no_quit.
    + intros msg. unfold free_of. simpl.
      now apply (no_commit_no_final is_final_commit HF).
    + constructor; [now split | now apply submits_no_act].
Qed.

Lemma session_good_final (draw : Z) (agent : Z -> list (list ToolCall))
      (lines : list string) (r : result (option Exit)) (g' : Globals)
      (t : list Event) :
  session draw agent lines = (r, g', t) -> loop_inv is_final_commit r t.
Proof.
  apply session_good; [auto | apply good_ai_ply_final].
Qed.
End OnePly.

(** *** Enough fuel *)

Lemma live_after_ply (move : Z) (k : Z -> Prog (option Exit)) :
  (forall m, live (k m)) -> live (after_ply move k).
Proof.
  intros Hk g. rewrite after_ply_eq.
  destruct (get_end_state g); [discriminate|].
  specialize (Hk (move + 1)%Z g).
  now destruct (k (move + 1)%Z g) as [[r g'] t].
Qed.

Lemma live_ai_ply (rounds : list (list ToolCall)) (move : Z)
      (k : Z -> Prog (option Exit)) :
  (forall m, live (k m)) -> live (ai_ply rounds move k).
Proof.
  intros Hk g. unfold ai_ply, bind.
  destruct (ai_turn rounds g) as [[[[]|e] g1] t1]; [|discriminate].
  pose proof (live_after_ply move k Hk g1) as H.
  now destruct (after_ply move k g1) as [[r2 g2] t2].
Qed.

Lemma live_user_ply (prompt : string) (lines : list string) (move : Z)
      (k : list string -> Z -> Prog (option Exit)) :
  (forall l m, List.length l < List.length lines -> live (k l m)) ->
  live (user_ply prompt lines move k).
Proof.
  intros Hk g. unfold user_ply, bind.
  destruct (user_turn_summary prompt lines g)
    as (t0 & _
        & [->|[(s & rest & _ & _ & ->)
              |(s & rest & m & _ & Hlen & _ & ->)]]);
    try discriminate.
  pose proof (live_after_ply move (k rest) (fun m' => Hk rest m' Hlen)
                             (set_board g (board_push (board g) m))) as H.
  now destruct (after_ply move (k rest) _) as [[r2 g2] t2].
Qed.

(** With more fuel than lines to read, the loop ends by itself. *)
Lemma game_loop_live (fuel : nat) (agent : Z -> list (list ToolCall))
      (move : Z) (lines : list string) :
  List.length lines < fuel ->
  live (game_loop fuel agent move lines).
Proof.
  revert move lines. induction fuel as [|fuel IH]; intros move lines Hlen;
    [lia|].
  assert (Hu : forall p m,
             live (user_ply p lines m
                     (fun l m' => game_loop fuel agent m' l))).
  { intros p m. apply live_user_ply. intros l m' Hl. apply IH. lia. }
  assert (Ha : forall l m,
             List.length l < List.length lines ->
             live (ai_ply (agent m) m
                     (fun m' => game_loop fuel agent m' l))).
  { intros l m Hl. apply live_ai_ply. intros m'. apply IH. lia. }
  intros g. simpl. unfold bind at 1, get_globals.
  destruct (ai_pos g =? 0)%Z.
  - pose proof (live_ai_ply (agent move) move _
                  (fun m => Hu prompt_black m) g) as H.
    revert H. destruct (ai_ply _ _ _ g) as [[r1 g1] t1]. now simpl.
  - pose proof (live_user_ply prompt_white lines move _ Ha g) as H.
    revert H. destruct (user_ply _ _ _ _ g) as [[r1 g1] t1]. now simpl.
Qed.

(** The fuel [session] gives the loop is never the reason it
    stops: a session ends with one of the two exits, or with an
    exception (the end of the typed lines among them). *)
Lemma session_live (draw : Z) (agent : Z -> list (list ToolCall))
      (lines : list string) :
  fst (fst (session draw agent lines)) <> Ok None.
Proof.
  rewrite session_eq.
  pose proof (@game_loop_live (S (List.length lines)) agent 0%Z lines
                ltac:(lia) {| board := board_reset; ai_pos := draw |}) as H.
  now destruct (game_loop _ _ _ _ _) as [[r g'] t].
Qed.

(** *** The claims about whole sessions *)

(** C4. In every session, a line that is [quit] in any letter case
    is followed by the message ["Game ended by user."] and by
    nothing else: the session is over, it ends as a user exit (reason
    USER_QUIT), and no move function is called after the line. *)
Theorem quit_ends_session (draw : Z) (agent : Z -> list (list ToolCall))
        (lines : list string) (pre post : list Event)
        (prompt reply : string) :
  snd (session draw agent lines) = pre ++ EvInput prompt reply :: post ->
  lower reply = "quit"%string ->
  post = [EvPrint "Game ended by user."]
  /\ existsb is_submit post = false
  /\ fst (fst (session draw agent lines)) = Ok (Some UserQuit)
  /\ exit_reason UserQuit = USER_QUIT.
Proof.
  intros Ht Hq.
  destruct (session draw agent lines) as [[r g'] t] eqn:Hrun.
  simpl in *. subst t.
  destruct (session_good_io _ _ _ Hrun) as (H1 & H2 & _).
  assert (Hquit : is_quit_input (EvInput prompt reply) = true)
    by (simpl; now rewrite Hq).
  pose proof (after_each_at _ _ _ _ _ H1 Hquit) as Hpost.
  subst post. repeat split.
  apply H2. rewrite existsb_app. simpl. rewrite Hq. simpl.
  apply orb_true_r.
Qed.

Section OnePlyClaims.
Hypothesis push_turn :
  forall (b : Board) (m : Move),
    board_turn (board_push b m) = negb (board_turn b).

(** C5. In every session, after a committed ply the end state is
    computed from the position the ply led to: when it is not
    [None], no prompt and no agent invocation follows and the
    session ends with that message.  For checkmate: the session
    ends as a game over with ["Checkmate!"] (reason CHECKMATE), and
    there is no prompt and no agent invocation after the ply. *)
Theorem checkmate_ends_session (draw : Z)
        (agent : Z -> list (list ToolCall)) (lines : list string)
        (pre post : list Event) (f : Tool) (move : string)
        (b : Board) :
  snd (session draw agent lines)
  = pre ++ EvSubmit f move (Committed b) :: post ->
  (forall msg,
      end_state_of b = Some msg ->
      quiet post
      /\ fst (fst (session draw agent lines)) = Ok (Some (GameOver msg)))
  /\ (board_is_checkmate b = true ->
      quiet post
      /\ fst (fst (session draw agent lines))
         = Ok (Some (GameOver "Checkmate!"))
      /\ exit_reason (GameOver "Checkmate!") = CHECKMATE).
Proof.
  intros Ht.
  destruct (session draw agent lines) as [[r g'] t] eqn:Hrun.
  simpl in *. subst t.
  destruct (session_good_final push_turn _ _ _ Hrun) as (_ & _ & H & _).
  assert (Hgen : forall msg,
             end_state_of b = Some msg ->
             quiet post /\ r = Ok (Some (GameOver msg))).
  { intros msg Hb. destruct (H msg) as [H1 H2].
    assert (Hfin : is_final_commit msg (EvSubmit f move (Committed b))
                   = true)
      by (simpl; rewrite Hb; apply String.eqb_refl).
    split; [exact (after_each_at _ _ _ _ _ H1 Hfin)|].
    apply H2. rewrite existsb_app. simpl. rewrite Hb, String.eqb_refl.
    simpl. apply orb_true_r. }
  split; [exact Hgen|].
  intros Hmate.
  destruct (Hgen "Checkmate!"%string) as [Hq Hr].
  { unfold end_state_of. now rewrite Hmate. }
  now repeat split.
Qed.
End OnePlyClaims.

End WithEngine.
End SessionFacts.

(* ------------------------------------------------------------------ *)
(** ** Where the AI's turn is run *)

Module TurnFacts.
Import Chess ArbiterFacts AgentFacts UserFacts SessionFacts.

Section WithEngine.
Context {E : RulesEngine}.

Lemma game_loop_head (fuel : nat) (agent : Z -> list (list ToolCall))
      (move : Z) (lines : list string) (g : Globals) :
  game_loop (S fuel) agent move lines g
  = if (ai_pos g =? 0)%Z then
      ai_ply (agent move) move
             (fun move =>
                user_ply prompt_black lines move
                         (fun lines move => game_loop fuel agent move lines))
             g
    else
      user_ply prompt_white lines move
               (fun lines move =>
                  ai_ply (agent move) move
                         (fun move => game_loop fuel agent move lines))
               g.
Proof.
  simpl. unfold bind at 1, get_globals.
  destruct (ai_pos g =? 0)%Z.
  - now destruct (ai_ply _ _ _ g) as [[? ?] ?].
  - now destruct (user_ply _ _ _ _ g) as [[? ?] ?].
Qed.

Lemma game_loop_with_head (ai : list (list ToolCall) -> Prog unit)
      (fuel : nat) (agent : Z -> list (list ToolCall))
      (move : Z) (lines : list string) (g : Globals) :
  game_loop_with ai (S fuel) agent move lines g
  = if (ai_pos g =? 0)%Z then
      ai_ply_with ai (agent move) move
             (fun move =>
                user_ply prompt_black lines move
                         (fun lines move =>
                            game_loop_with ai fuel agent move lines))
             g
    else
      user_ply prompt_white lines move
               (fun lines move =>
                  ai_ply_with ai (agent move) move
                         (fun move => game_loop_with ai fuel agent move lines))
               g.
Proof.
  simpl. unfold bind at 1, get_globals.
  destruct (ai_pos g =? 0)%Z.
  - now destruct (ai_ply_with _ _ _ _ g) as [[? ?] ?].
  - now destruct (user_ply _ _ _ _ g) as [[? ?] ?].
Qed.

Lemma session_with_eq (ai : list (list ToolCall) -> Prog unit) (draw : Z)
      (agent : Z -> list (list ToolCall)) (lines : list string) :
  session_with ai draw agent lines
  = let '(r, g', t) :=
      game_loop_with ai (S (List.length lines)) agent 0 lines
                     {| board := board_reset; ai_pos := draw |} in
    (r, g', EvClearOutput :: EvDisplay board_reset (draw =? 1)%Z :: t).
Proof.
  unfold session_with.
  generalize (game_loop_with ai (S (List.length lines)) agent 0 lines) as p.
  intros p. cbv [bind emit display_board get_globals ai_pos board].
  destruct (draw =? 1)%Z; now destruct (p _) as [[r g'] t].
Qed.

Lemma after_ply_ext (move : Z) (k k' : Z -> Prog (option Exit))
      (g : Globals) :
  (get_end_state g = None -> k (move + 1)%Z g = k' (move + 1)%Z g) ->
  after_ply move k g = after_ply move k' g.
Proof.
  intros H. rewrite !after_ply_eq.
  destruct (get_end_state g); [reflexivity|]. now rewrite H.
Qed.

Lemma user_ply_ext (prompt : string) (lines : list string) (move : Z)
      (k k' : list string -> Z -> Prog (option Exit)) (g : Globals) :
  (forall rest m,
      is_ai_turn g = false ->
      after_ply move (k rest) (set_board g (board_push (board g) m))
      = after_ply move (k' rest) (set_board g (board_push (board g) m))) ->
  user_ply prompt lines move k g = user_ply prompt lines move k' g.
Proof.
  intros H. unfold user_ply, bind.
  destruct (user_turn_summary prompt lines g)
    as (t0 & _
        & [->|[(s & rest & _ & _ & ->)
              |(s & rest & m & _ & _ & Hturn & ->)]]);
    try reflexivity.
  now rewrite (H rest m Hturn).
Qed.

Section Playable.
Hypothesis push_turn :
  forall (b : Board) (m : Move),
    board_turn (board_push b m) = negb (board_turn b).

Lemma ai_ply_ext (rounds : list (list ToolCall)) (move : Z)
      (k k' : Z -> Prog (option Exit)) (g : Globals) :
  is_ai_turn g = true ->
  (forall m,
      after_ply move k (set_board g (board_push (board g) m))
      = after_ply move k' (set_board g (board_push (board g) m))) ->
  ai_ply rounds move k g = ai_ply rounds move k' g.
Proof.
  intros Hturn H. unfold ai_ply, bind.
  destruct (ai_turn_result push_turn rounds g)
    as (r1 & g1 & t1 & -> & _ & Hcase).
  destruct r1 as [[]|e]; [|reflexivity].
  destruct Hcase as [(_ & _ & Hoff)|(_ & _ & _ & m & text & _ & -> & _)].
  - rewrite Hoff in Hturn by reflexivity. discriminate.
  - now rewrite H.
Qed.

Variable ai : list (list ToolCall) -> Prog unit.
Hypothesis ai_agrees :
  forall rounds g,
    is_ai_turn g = true -> get_end_state g = None ->
    ai rounds g = ai_turn rounds g.

Lemma ai_ply_with_agrees (rounds : list (list ToolCall)) (move : Z)
      (k : Z -> Prog (option Exit)) (g : Globals) :
  is_ai_turn g = true -> get_end_state g = None ->
  ai_ply_with ai rounds move k g = ai_ply rounds move k g.
Proof.
  intros Hturn Hend. unfold ai_ply_with, ai_ply, bind.
  now rewrite ai_agrees.
Qed.

Lemma pushed_turn (g : Globals) (m : Move) :
  board_turn (board (set_board g (board_push (board g) m)))
  = negb (board_turn (board g)).
Proof. simpl. apply push_turn. Qed.

(** From the head of an iteration on, the loop is the same with [ai]
    as with [ai_turn]. *)
Lemma game_loop_with_agrees (fuel : nat) (agent : Z -> list (list ToolCall))
      (move : Z) (lines : list string) (g : Globals) :
  at_loop_head g ->
  game_loop_with ai fuel agent move lines g
  = game_loop fuel agent move lines g.
Proof.
  revert move lines g.
  induction fuel as [|fuel IH]; intros move lines g [Hwhite Hend];
    [reflexivity|].
  rewrite game_loop_with_head, game_loop_head.
  destruct (ai_pos g =? 0)%Z eqn:Hpos.
  - assert (Hturn : is_ai_turn g = true)
      by (unfold is_ai_turn; now rewrite Hwhite, Hpos).
    rewrite ai_ply_with_agrees by assumption.
    apply ai_ply_ext; [assumption|]. intros m.
    apply after_ply_ext. intros Hend1.
    apply user_ply_ext. intros rest m' Hoff.
    apply after_ply_ext. intros Hend2.
    apply IH. split; [|assumption].
    rewrite !pushed_turn, Hwhite. reflexivity.
  - assert (Hturn : is_ai_turn g = false)
      by (unfold is_ai_turn; now rewrite Hwhite, Hpos).
    apply user_ply_ext. intros rest m _.
    apply after_ply_ext. intros Hend1.
    assert (Hturn1 : is_ai_turn (set_board g (board_push (board g) m)) = true)
      by (rewrite (is_ai_turn_push push_turn), Hturn; reflexivity).
    rewrite ai_ply_with_agrees by assumption.
    apply ai_ply_ext; [assumption|]. intros m'.
    apply after_ply_ext. intros Hend2.
    apply IH. split; [|assumption].
    rewrite !pushed_turn, Hwhite. reflexivity.
Qed.

Hypothesis white_first : board_turn board_reset = true.
Hypothesis start_playable : end_state_of board_reset = None.

(** In a session the AI's turn is run only when the AI is to move and
    the game is not over: whatever [ai] does elsewhere, the session is
    the same. *)
Lemma ai_turn_only_when_playable (draw : Z)
      (agent : Z -> list (list ToolCall)) (lines : list string) :
  session_with ai draw agent lines = session draw agent lines.
Proof.
  rewrite session_with_eq, session_eq.
  rewrite game_loop_with_agrees; [reflexivity|]. now split.
Qed.
End Playable.

End WithEngine.
End TurnFacts.

(* ------------------------------------------------------------------ *)
(** ** The toy engine keeps the promises, and the claims at work on it *)

Module ToyFacts.
Import Chess Examples.
#[local] Existing Instance Toy.engine.

Lemma toy_push_turn :
  forall (b : Toy.board) (m : nat),
    Toy.white_to_move (Toy.push b m) = negb (Toy.white_to_move b).
Proof. reflexivity. Qed.

Lemma toy_san_round_trip :
  forall (b : Toy.board) (m : nat),
    In m (Toy.legal b) -> Toy.parse_san b (Toy.san m) = inr m.
Proof.
  intros [pile w st] m. unfold Toy.parse_san, Toy.legal. simpl.
  destruct pile as [|[|n]]; simpl; intros H;
    repeat (destruct H as [<-|H]; [reflexivity|]); destruct H.
Qed.

Lemma toy_no_moves_is_terminal :
  forall b : Toy.board,
    Toy.legal b = [] -> (Toy.pile b =? 0) || false = true.
Proof.
  intros [pile w st]. unfold Toy.legal. simpl.
  destruct pile as [|[|n]]; simpl; intros H; [reflexivity | | ];
    discriminate.
Qed.



Lemma wrong_turn_rejected_witness :
  In "1"%string (legal_moves ai_first)
  /\ is_current_turn HUMAN ai_first = false
  /\ apply_move HUMAN "1" ai_first
     = (Raise (ValueError (ArgStr "Not player's turn.")), ai_first, []).
Proof.
  split; [simpl; auto|]. split; [reflexivity|].
  exact (proj1 (ArbiterFacts.wrong_turn_rejected
                  HUMAN "1" ai_first eq_refl)).
Defined.

Lemma turn_alternates_witness :
  is_ai_turn ai_first = true
  /\ is_ai_turn (set_board ai_first (Toy.push Toy.start 1)) = false.
Proof.
  split; [reflexivity|].
  exact (proj1 (ArbiterFacts.turn_alternates
                  toy_push_turn AUTOMATED "1" ai_first
                  (g' := set_board ai_first (Toy.push Toy.start 1))
                  (t := []) eq_refl eq_refl)).
Defined.

Lemma fallback_commits_first_legal_move_witness :
  exists first t1,
    act act_tools max_prediction_rounds (agent_confused 0) ai_first
    = (Ok tt, ai_first, t1)
    /\ hd_error (Toy.legal Toy.start) = Some first
    /\ hd_error (legal_moves ai_first) = Some (Toy.san first)
    /\ ai_turn (agent_confused 0) ai_first
       = (Ok tt, set_board ai_first (Toy.push Toy.start first),
          t1 ++ [EvSubmit T_make_ai_move (Toy.san first)
                   (Committed (Toy.push Toy.start first))])
    /\ commits
         (t1 ++ [EvSubmit T_make_ai_move (Toy.san first)
                   (Committed (Toy.push Toy.start first))])
       = [EvSubmit T_make_ai_move (Toy.san first)
            (Committed (Toy.push Toy.start first))].
Proof.
  exact (AgentFacts.fallback_commits_first_legal_move
           toy_san_round_trip toy_no_moves_is_terminal
           (agent_confused 0) ai_first eq_refl eq_refl eq_refl).
Defined.

Lemma one_ai_ply_per_turn_witness :
  exists m text t,
    ai_turn (agent_greedy 0) ai_first
    = (Ok tt, set_board ai_first (Toy.push Toy.start m), t)
    /\ commits t
       = [EvSubmit T_make_ai_move text (Committed (Toy.push Toy.start m))].
Proof.
  exact (proj1 (AgentFacts.one_ai_ply_per_turn
                  toy_push_turn toy_san_round_trip toy_no_moves_is_terminal
                  (agent_greedy 0) ai_first eq_refl eq_refl)).
Defined.

Lemma help_shows_legal_moves_witness :
  exists r g' t,
    user_turn prompt_white ["1"%string] human_first = (r, g', t)
    /\ user_turn prompt_white ["HeLp"; "1"]%string human_first
       = (r, g',
          EvInput prompt_white "HeLp"
            :: EvPrintMoves ["1"; "2"]%string :: t).
Proof.
  destruct (UserFacts.help_shows_legal_moves
              prompt_white "HeLp" ["1"%string] human_first eq_refl)
    as (r & g' & t & H1 & H2 & _).
  exists r, g', t. split; [exact H1 | exact H2].
Defined.

Lemma quit_ends_session_witness :
  lower "QUIT" = "quit"%string
  /\ In (EvInput prompt_black "QUIT")
        (snd (session 0 agent_greedy ["help"; "9"; "QUIT"; "1"]%string))
  /\ fst (fst (session 0 agent_greedy ["help"; "9"; "QUIT"; "1"]%string))
     = Ok (Some UserQuit).
Proof.
  pose (t := snd (session 0 agent_greedy ["help"; "9"; "QUIT"; "1"]%string)).
  split; [reflexivity|]. split; [vm_compute; tauto|].
  exact (proj1 (proj2 (proj2
           (SessionFacts.quit_ends_session
              0 agent_greedy ["help"; "9"; "QUIT"; "1"]%string
              (firstn 13 t) (skipn 14 t) prompt_black "QUIT"
              eq_refl eq_refl)))).
Defined.

Lemma checkmate_ends_session_witness :
  In (EvSubmit T_make_user_move "1"
        (Committed {| Toy.pile := 0; Toy.white_to_move := true;
                      Toy.stack := [2; 1] |}))
     (snd (session 0 agent_greedy ["1"; "help"]%string))
  /\ fst (fst (session 0 agent_greedy ["1"; "help"]%string))
     = Ok (Some (GameOver "Checkmate!")).
Proof.
  pose (t := snd (session 0 agent_greedy ["1"; "help"]%string)).
  split; [vm_compute; tauto|].
  exact (proj1 (proj2 (proj2
           (SessionFacts.checkmate_ends_session
              toy_push_turn 0 agent_greedy ["1"; "help"]%string
              (firstn 9 t) (skipn 10 t) T_make_user_move "1"
              {| Toy.pile := 0; Toy.white_to_move := true;
                 Toy.stack := [2; 1] |}
              eq_refl) eq_refl))).
Defined.

(** The claim C8 as it was written fails: the agent is invoked
    without [is_ai_turn], one of the five queries of the
    specification. *)
Lemma agent_tools_counterexample :
  exists tools n,
    In (EvAct tools n) (snd (session 0 agent_silent []))
    /\ ~ incl spec_capability_set tools.
Proof.
  exists act_tools, 5. split; [vm_compute; auto|].
  intros H. specialize (H T_is_ai_turn).
  simpl in H. intuition discriminate.
Qed.

End ToyFacts.

(* ------------------------------------------------------------------ *)
(** ** More on [split_text]: the shape of the chunks *)

Module ChunkFacts.
Import PyStr PyStrFacts SplitText ChunkShape.

Lemma words_cost_nonneg (ws : list str) : (0 <= words_cost ws)%Z.
Proof. induction ws as [|w ws IH]; simpl; lia. Qed.

Lemma words_cost_app (a b : list str) :
  words_cost (a ++ b) = (words_cost a + words_cost b)%Z.
Proof. induction a as [|w a IH]; simpl; lia. Qed.

Lemma join_length (w : str) (ws : list str) :
  Z.of_nat (List.length (join [space] (w :: ws)))
  = (words_cost (w :: ws) - 1)%Z.
Proof.
  revert w. induction ws as [|v ws IH]; intros w.
  - simpl. lia.
  - change (join [space] (w :: v :: ws))
      with (w ++ space :: join [space] (v :: ws)).
    rewrite length_app.
    change (List.length (space :: join [space] (v :: ws)))
      with (S (List.length (join [space] (v :: ws)))).
    rewrite Nat2Z.inj_add, Nat2Z.inj_succ, IH.
    change (words_cost (w :: v :: ws))
      with (Z.of_nat (List.length w) + 1 + words_cost (v :: ws))%Z.
    lia.
Qed.

Lemma join_words_nonempty (w : str) (ws : list str) :
  is_word w -> join [space] (w :: ws) <> [].
Proof.
  intros [Hne _]. destruct ws as [|v ws]; simpl; [assumption|].
  destruct w; [contradiction | discriminate].
Qed.

(** What [split] returns costs at most the text and one more. *)
Lemma split_from_cost (s cur : str) :
  (words_cost (split_from cur s)
   <= Z.of_nat (List.length cur) + Z.of_nat (List.length s) + 1)%Z.
Proof.
  revert cur. induction s as [|c s IH]; intros cur.
  - simpl. destruct cur as [|x cur]; simpl; [lia|].
    rewrite length_app, length_rev. simpl. lia.
  - simpl. destruct (isspace c).
    + rewrite words_cost_app. specialize (IH []). simpl in IH.
      destruct cur as [|x cur]; simpl flush; simpl words_cost.
      * simpl List.length. lia.
      * rewrite length_app, length_rev. simpl List.length. lia.
    + specialize (IH (c :: cur)). simpl List.length in *. lia.
Qed.

Lemma split_cost (s : str) :
  (words_cost (split s) <= Z.of_nat (List.length s) + 1)%Z.
Proof. pose proof (split_from_cost s []). simpl in *. exact H. Qed.

(** A text has no word exactly when it is blank throughout. *)
Lemma split_from_nil (s cur : str) :
  split_from cur s = [] <-> cur = [] /\ forallb isspace s = true.
Proof.
  revert cur. induction s as [|c s IH]; intros cur; simpl.
  - destruct cur; simpl; split; intros H; try discriminate; auto.
    destruct H; discriminate.
  - destruct (isspace c); simpl.
    + split.
      * intros H. apply app_eq_nil in H as [Hf Hs].
        apply IH in Hs as [_ Hs]. destruct cur; [auto | discriminate].
      * intros [-> Hs]. simpl. apply IH. auto.
    + rewrite IH. split; intros [H1 H2]; discriminate.
Qed.

Lemma split_nil (s : str) : split s = [] <-> forallb isspace s = true.
Proof.
  unfold split. rewrite split_from_nil. split; [now intros [_ H] | auto].
Qed.

(** The words of the chunks are the words of the text (the fact behind
    the word-preservation claim, restated from its lemmas). *)
Lemma split_text_preserves_words_aux (text : str) (max_tokens : Z) :
  List.concat (map split (split_text text max_tokens)) = split text.
Proof. apply SplitTextFacts.split_text_chunks. Qed.

(** *** The loop *)

Lemma loop_body_well_formed (max_tokens : Z) (st : loop_state) (word : str) :
  well_formed max_tokens st -> is_word word ->
  well_formed max_tokens (loop_body max_tokens st word).
Proof.
  intros (Hcl & Hws & Hfit & Hchunks) Hw. unfold loop_body, well_formed.
  destruct (current_length st + _ >? max_tokens)%Z eqn:Hflush; simpl.
  - split; [lia|]. split; [now constructor|]. split; [left; lia|].
    apply Forall_app. split; [assumption|].
    constructor; [|constructor].
    exists (current_chunk st). repeat split; try assumption.
    destruct Hfit as [H|H]; [now left | right; lia].
  - rewrite Z.gtb_ltb in Hflush. apply Z.ltb_ge in Hflush.
    split; [rewrite words_cost_app; simpl; lia|].
    split; [apply Forall_app; split; [assumption | now constructor]|].
    split; [right; lia | assumption].
Qed.

Lemma loop_well_formed (max_tokens : Z) (words : list str) (st : loop_state) :
  well_formed max_tokens st -> Forall is_word words ->
  well_formed max_tokens (fold_left (loop_body max_tokens) words st).
Proof.
  intros Hst Hws. revert st Hst.
  induction Hws as [|w ws Hw _ IH]; intros st Hst; simpl; [assumption|].
  apply IH. now apply loop_body_well_formed.
Qed.

(** Every chunk is a space-join of words of which there is at most one,
    or which are within the budget. *)
Lemma chunk_made_of (text : str) (max_tokens : Z) (c : str) :
  In c (split_text text max_tokens) -> exists ws, made_of max_tokens c ws.
Proof.
  unfold split_text.
  set (st0 := {| chunks := []; current_chunk := []; current_length := 0 |}).
  assert (H0 : well_formed max_tokens st0).
  { unfold well_formed. simpl. repeat split; auto. }
  destruct (loop_well_formed H0 (split_words text))
    as (Hcl & Hws & Hfit & Hchunks).
  rewrite Forall_forall in Hchunks.
  destruct (current_chunk _) as [|w ws] eqn:Hcur; intros Hin.
  - now apply Hchunks.
  - apply in_app_or in Hin as [Hin|[<-|[]]]; [now apply Hchunks|].
    exists (w :: ws). repeat split; try assumption.
    destruct Hfit as [H|H]; [now left | right; lia].
Qed.

(** X2. A chunk of [split_text] is shorter than [max_tokens], unless it
    is a single word (which is then kept whole whatever its length) or
    empty. *)
Theorem chunk_within_budget (text : str) (max_tokens : Z) (c : str) :
  In c (split_text text max_tokens) ->
  c = [] \/ is_word c \/ (Z.of_nat (List.length c) < max_tokens)%Z.
Proof.
  intros Hin. apply chunk_made_of in Hin as (ws & Hws & -> & Hfit).
  destruct ws as [|w [|v ws]].
  - now left.
  - right. left. now inversion Hws.
  - right. right. destruct Hfit as [H|H]; [simpl in H; lia|].
    rewrite join_length. lia.
Qed.

(** X3. A chunk of [split_text] has its words separated by single
    spaces, with no blank at either end: splitting it and joining the
    words with spaces gives the chunk back. *)
Theorem chunk_is_normalised (text : str) (max_tokens : Z) (c : str) :
  In c (split_text text max_tokens) ->
  join [space] (split c) = c.
Proof.
  intros Hin. apply chunk_made_of in Hin as (ws & Hws & -> & _).
  now rewrite split_join_words.
Qed.

(** X1. [split_text] returns no chunk exactly for a text without a
    word: the empty text, or blanks only. *)
Theorem no_chunk_iff_blank (text : str) (max_tokens : Z) :
  split_text text max_tokens = [] <-> forallb isspace text = true.
Proof.
  rewrite <- split_nil. split.
  - intros H. pose proof (split_text_preserves_words_aux text max_tokens) as Hw.
    rewrite H in Hw. simpl in Hw. now symmetry.
  - intros H. unfold split_text. now rewrite H.
Qed.

(** *** Empty chunks *)

(** Once a word is pending, the loop adds non-empty chunks only and a
    word stays pending. *)
Lemma loop_adds_nonempty (max_tokens : Z) (words : list str) (st : loop_state) :
  Forall is_word words ->
  Forall is_word (current_chunk st) ->
  current_chunk st <> [] ->
  exists new,
    chunks (fold_left (loop_body max_tokens) words st) = chunks st ++ new
    /\ Forall (fun c => c <> []) new
    /\ current_chunk (fold_left (loop_body max_tokens) words st) <> []
    /\ Forall is_word
              (current_chunk (fold_left (loop_body max_tokens) words st)).
Proof.
  intros Hws. revert st.
  induction Hws as [|w ws Hw _ IH]; intros st Hcur Hne; simpl.
  - exists []. rewrite app_nil_r. repeat split; auto.
  - destruct (IH (loop_body max_tokens st w))
      as (new & Hch & Hnew & Hne' & Hcur').
    + unfold loop_body.
      destruct (current_length st + _ >? max_tokens)%Z; simpl.
      * now constructor.
      * apply Forall_app. split; [assumption | now constructor].
    + unfold loop_body.
      destruct (current_length st + _ >? max_tokens)%Z; simpl;
        [discriminate|].
      destruct (current_chunk st); [contradiction | discriminate].
    + assert (Hstep : exists extra,
                 chunks (loop_body max_tokens st w) = chunks st ++ extra
                 /\ Forall (fun c => c <> []) extra).
      { unfold loop_body.
        destruct (current_length st + _ >? max_tokens)%Z; simpl.
        - exists [join [space] (current_chunk st)]. split; [reflexivity|].
          constructor; [|constructor].
          destruct (current_chunk st) as [|v vs]; [contradiction|].
          apply join_words_nonempty. now inversion Hcur.
        - exists []. now rewrite app_nil_r. }
      destruct Hstep as (extra & He & Hextra).
      exists (extra ++ new). rewrite Hch, He, <- app_assoc.
      split; [reflexivity|]. split; [now apply Forall_app|]. now split.
Qed.

(** X4. When the text has a word, [split_text] returns at least one
    chunk; only the first can be empty, and it is empty exactly when the
    first word alone exceeds the budget (its length and one for the
    space are more than [max_tokens]). *)
Theorem only_first_chunk_empty (text : str) (max_tokens : Z)
        (w : str) (ws : list str) :
  split text = w :: ws ->
  exists c cs,
    split_text text max_tokens = c :: cs
    /\ Forall (fun d => d <> []) cs
    /\ (c = [] <-> (Z.of_nat (List.length w) + 1 > max_tokens)%Z).
Proof.
  intros Hsplit. pose proof (split_words text) as Hwords.
  rewrite Hsplit in Hwords. inversion Hwords as [|? ? Hw Hws]; subst.
  unfold split_text. rewrite Hsplit. simpl fold_left.
  set (st0 := {| chunks := []; current_chunk := []; current_length := 0 |}).
  set (st1 := loop_body max_tokens st0 w).
  assert (Hcur1 : current_chunk st1 = [w]).
  { unfold st1, loop_body. simpl.
    now destruct (_ >? max_tokens)%Z. }
  destruct (@loop_adds_nonempty max_tokens ws st1 Hws)
    as (new & Hch & Hnew & Hne & Hcur).
  { rewrite Hcur1. now constructor. }
  { rewrite Hcur1. discriminate. }
  destruct (current_chunk (fold_left _ ws st1)) as [|v vs] eqn:Hlast;
    [contradiction|].
  assert (Hjoin : join [space] (v :: vs) <> [])
    by (apply join_words_nonempty; now inversion Hcur).
  rewrite Hch.
  unfold st1, loop_body at 1. simpl.
  destruct (_ >? max_tokens)%Z eqn:Hbig.
  - simpl. exists [], (new ++ [join [space] (v :: vs)]).
    split; [reflexivity|].
    split; [apply Forall_app; split; [assumption | now constructor]|].
    rewrite Z.gtb_ltb in Hbig. apply Z.ltb_lt in Hbig.
    split; [lia | reflexivity].
  - simpl. rewrite Z.gtb_ltb in Hbig. apply Z.ltb_ge in Hbig.
    destruct new as [|c new].
    + exists (join [space] (v :: vs)), []. split; [reflexivity|].
      split; [constructor|]. split; [contradiction | lia].
    + inversion Hnew as [|? ? Hc Hnew']; subst.
      exists c, (new ++ [join [space] (v :: vs)]). split; [reflexivity|].
      split; [apply Forall_app; split; [assumption | now constructor]|].
      split; [contradiction | lia].
Qed.

(** *** One chunk *)

Lemma loop_no_flush (max_tokens : Z) (words : list str) (st : loop_state) :
  (current_length st + words_cost words <= max_tokens)%Z ->
  fold_left (loop_body max_tokens) words st
  = {| chunks := chunks st;
       current_chunk := current_chunk st ++ words;
       current_length := (current_length st + words_cost words)%Z |}.
Proof.
  revert st. induction words as [|w ws IH]; intros st H; simpl.
  - rewrite app_nil_r, Z.add_0_r. now destruct st.
  - simpl in H. pose proof (words_cost_nonneg ws).
    rewrite IH; unfold loop_body;
      replace (current_length st + (Z.of_nat (List.length w) + 1)
               >? max_tokens)%Z with false
        by (symmetry; rewrite Z.gtb_ltb; apply Z.ltb_ge; lia);
      simpl.
    + rewrite <- app_assoc. simpl. f_equal. lia.
    + lia.
Qed.

(** X5. A text that has a word and is shorter than [max_tokens] comes
    back as one chunk: its words joined by single spaces. *)
Theorem short_text_is_one_chunk (text : str) (max_tokens : Z) :
  split text <> [] ->
  (Z.of_nat (List.length text) < max_tokens)%Z ->
  split_text text max_tokens = [join [space] (split text)].
Proof.
  intros Hne Hlen. unfold split_text.
  pose proof (split_cost text) as Hcost.
  rewrite loop_no_flush by (simpl; lia). simpl.
  destruct (split text); [contradiction | reflexivity].
Qed.

(** *** No wasted room *)

Lemma tight_change_last (max_tokens : Z) (cs : list str) (d d' : str) :
  (forall w ws, split d = w :: ws -> exists ws', split d' = w :: ws') ->
  tight max_tokens (cs ++ [d]) -> tight max_tokens (cs ++ [d']).
Proof.
  intros Hhead. induction cs as [|c cs IH]; [simpl; auto|].
  destruct cs as [|c' cs].
  - simpl. intros [[H|(w & ws & Hd & Hlt)] _]; (split; [|auto]).
    + now left.
    + right. destruct (Hhead _ _ Hd) as (ws' & Hd'). eauto.
  - intros [H1 H2]. split; [exact H1 | exact (IH H2)].
Qed.

Lemma tight_snoc (max_tokens : Z) (cs : list str) (c d : str) :
  tight max_tokens (cs ++ [c]) ->
  (c = []
   \/ exists w ws,
       split d = w :: ws
       /\ (Z.of_nat (List.length c) + 1
           + (Z.of_nat (List.length w) + 1) > max_tokens)%Z) ->
  tight max_tokens ((cs ++ [c]) ++ [d]).
Proof.
  intros Ht Hcd. induction cs as [|c0 cs IH].
  - simpl. auto.
  - destruct cs as [|c1 cs].
    + simpl in *. destruct Ht as [H1 _]. auto.
    + destruct Ht as [H1 H2]. split; [exact H1 | exact (IH H2)].
Qed.

Lemma loop_body_tight (max_tokens : Z) (st : loop_state) (word : str) :
  well_formed max_tokens st -> is_word word ->
  tight max_tokens (chunks st ++ [join [space] (current_chunk st)]) ->
  tight max_tokens
        (chunks (loop_body max_tokens st word)
           ++ [join [space] (current_chunk (loop_body max_tokens st word))]).
Proof.
  intros (Hcl & Hws & _ & _) Hw Ht. unfold loop_body.
  destruct (current_length st + _ >? max_tokens)%Z eqn:Hflush; simpl.
  - apply tight_snoc; [assumption|].
    destruct (current_chunk st) as [|v vs] eqn:Hcur; [now left|].
    right. exists word, []. split; [now apply split_word|].
    rewrite join_length, <- Hcl.
    rewrite Z.gtb_ltb in Hflush. apply Z.ltb_lt in Hflush. lia.
  - revert Ht. apply tight_change_last. intros w ws Hd.
    rewrite split_join_words in Hd by assumption.
    rewrite split_join_words
      by (apply Forall_app; split; [assumption | now constructor]).
    rewrite Hd. simpl. eauto.
Qed.

Lemma loop_tight (max_tokens : Z) (words : list str) (st : loop_state) :
  well_formed max_tokens st -> Forall is_word words ->
  tight max_tokens (chunks st ++ [join [space] (current_chunk st)]) ->
  tight max_tokens
        (chunks (fold_left (loop_body max_tokens) words st)
           ++ [join [space]
                 (current_chunk (fold_left (loop_body max_tokens) words st))]).
Proof.
  intros Hst Hws. revert st Hst.
  induction Hws as [|w ws Hw _ IH]; intros st Hst Ht; simpl; [assumption|].
  apply IH; [now apply loop_body_well_formed | now apply loop_body_tight].
Qed.

Lemma tight_without_last (max_tokens : Z) (cs : list str) (d : str) :
  tight max_tokens (cs ++ [d]) -> tight max_tokens cs.
Proof.
  induction cs as [|c cs IH]; [simpl; auto|].
  destruct cs as [|c' cs].
  - simpl. auto.
  - intros [H1 H2]. split; [exact H1 | exact (IH H2)].
Qed.

Lemma tight_at (max_tokens : Z) (pre : list str) (c d : str)
      (post : list str) :
  tight max_tokens (pre ++ c :: d :: post) ->
  c = []
  \/ exists w ws,
      split d = w :: ws
      /\ (Z.of_nat (List.length c) + 1
          + (Z.of_nat (List.length w) + 1) > max_tokens)%Z.
Proof.
  induction pre as [|x pre IH]; [now intros [H _]|].
  intros H. apply IH. destruct pre; now destruct H.
Qed.

(** X6. [split_text] starts a new chunk only when it must: for two
    chunks in a row of which the first is not empty, the first, a space,
    the first word of the second and its own space exceed
    [max_tokens]. *)
Theorem chunks_leave_no_room (text : str) (max_tokens : Z)
        (pre post : list str) (c d : str) :
  split_text text max_tokens = pre ++ c :: d :: post ->
  c <> [] ->
  exists w ws,
    split d = w :: ws
    /\ (Z.of_nat (List.length c) + 1 + (Z.of_nat (List.length w) + 1)
        > max_tokens)%Z.
Proof.
  intros Hres Hc.
  assert (Ht : tight max_tokens (split_text text max_tokens)).
  { unfold split_text.
    set (st0 := {| chunks := []; current_chunk := []; current_length := 0 |}).
    assert (H0 : well_formed max_tokens st0)
      by (unfold well_formed; simpl; repeat split; auto).
    pose proof (loop_tight H0 (split_words text)) as H.
    specialize (H ltac:(simpl; auto)).
    destruct (current_chunk _) as [|v vs] eqn:Hcur; [|exact H].
    exact (tight_without_last _ _ _ H). }
  rewrite Hres in Ht. apply tight_at in Ht as [H|H]; [contradiction | exact H].
Qed.

End ChunkFacts.

(* ------------------------------------------------------------------ *)
(** ** [get_letter_frequency] counts *)

Module LetterFrequencyFacts.
Import PyStr LetterFrequency.

Lemma contains_getitem (d : dict) (k : char) :
  contains d k = true <-> getitem d k <> None.
Proof.
  induction d as [|[k' v] d IH]; simpl.
  - split; [discriminate | congruence].
  - destruct (k' =? k)%N; simpl; [split; [discriminate | reflexivity]|].
    exact IH.
Qed.

Lemma contains_keys (d : dict) (k : char) :
  contains d k = true <-> In k (keys d).
Proof.
  induction d as [|[k' v] d IH]; simpl.
  - split; [discriminate | contradiction].
  - destruct (k' =? k)%N eqn:Hk; simpl.
    + apply N.eqb_eq in Hk. split; auto.
    + apply N.eqb_neq in Hk. rewrite IH. unfold keys.
      split; [auto | now intros [H|H]].
Qed.

Lemma getitem_setitem (d : dict) (k k' : char) (v : Z) :
  getitem (setitem d k v) k'
  = if (k =? k')%N then Some v else getitem d k'.
Proof.
  induction d as [|[k0 v0] d IH]; simpl.
  - reflexivity.
  - destruct (k0 =? k)%N eqn:H0; simpl.
    + apply N.eqb_eq in H0. subst k0. now destruct (k =? k')%N.
    + rewrite IH. destruct (k0 =? k')%N eqn:H1; [|reflexivity].
      apply N.eqb_eq in H1. subst k0. now rewrite N.eqb_sym, H0.
Qed.

Lemma keys_setitem (d : dict) (k : char) (v : Z) :
  keys (setitem d k v) = if contains d k then keys d else keys d ++ [k].
Proof.
  unfold keys. induction d as [|[k0 v0] d IH]; simpl; [reflexivity|].
  destruct (k0 =? k)%N; simpl; [reflexivity|].
  rewrite IH. now destruct (contains d k).
Qed.

Lemma sum_values_setitem (d : dict) (k : char) (v : Z) :
  sum_values (setitem d k v)
  = (sum_values d + v
     - match getitem d k with Some n => n | None => 0 end)%Z.
Proof.
  induction d as [|[k0 v0] d IH]; simpl; [lia|].
  destruct (k0 =? k)%N; simpl; [lia|]. rewrite IH. lia.
Qed.

Lemma count_occ_snoc (l : str) (c x : char) :
  count_occ N.eq_dec (l ++ [c]) x
  = count_occ N.eq_dec l x + (if (c =? x)%N then 1 else 0).
Proof.
  rewrite count_occ_app. simpl.
  destruct (N.eq_dec c x) as [->|Hne].
  - now rewrite N.eqb_refl.
  - apply N.eqb_neq in Hne. now rewrite Hne.
Qed.

Lemma first_seen_snoc (l : str) (c : char) :
  first_seen (l ++ [c])
  = if in_dec N.eq_dec c l then first_seen l else first_seen l ++ [c].
Proof.
  unfold first_seen. rewrite rev_app_distr. simpl.
  destruct (in_dec N.eq_dec c (rev l)) as [Hin|Hout];
    destruct (in_dec N.eq_dec c l) as [Hin'|Hout']; try reflexivity.
  - apply in_rev in Hin. contradiction.
  - apply in_rev in Hin'. contradiction.
Qed.

Lemma counted_nil : counted [] [].
Proof. repeat split. Qed.

Lemma count_letter_counted (seen : str) (d : dict) (letter : char) :
  counted seen d ->
  exists d', count_letter d letter = Some d'
             /\ counted (seen ++ [letter]) d'.
Proof.
  intros (Hget & Hkeys & Hsum). unfold count_letter.
  assert (Hin : contains d letter = true <-> In letter seen).
  { rewrite contains_getitem, Hget.
    rewrite (count_occ_In N.eq_dec).
    destruct (count_occ N.eq_dec seen letter); simpl; split;
      try congruence; try lia; discriminate. }
  destruct (contains d letter) eqn:Hc.
  - assert (Hseen : In letter seen) by now apply Hin.
    pose proof Hseen as Hpos. rewrite (count_occ_In N.eq_dec) in Hpos.
    pose proof (Hget letter) as Hl.
    destruct (count_occ N.eq_dec seen letter) as [|n] eqn:Hn; [lia|].
    simpl in Hl. rewrite Hl. eexists. split; [reflexivity|].
    repeat split.
    + intros c. rewrite getitem_setitem, count_occ_snoc, Hget.
      destruct (letter =? c)%N eqn:Hlc.
      * apply N.eqb_eq in Hlc. subst c. rewrite Hn.
        replace (S n + 1 =? 0) with false by (symmetry; apply Nat.eqb_neq; lia).
        f_equal. lia.
      * now rewrite Nat.add_0_r.
    + rewrite keys_setitem, Hc, first_seen_snoc, Hkeys.
      now destruct (in_dec N.eq_dec letter seen).
    + rewrite sum_values_setitem, Hl, Hsum, length_app. simpl. lia.
  - assert (Hnot : ~ In letter seen) by (rewrite <- Hin; discriminate).
    pose proof Hnot as Hzero. rewrite (count_occ_not_In N.eq_dec) in Hzero.
    eexists. split; [reflexivity|].
    repeat split.
    + intros c. rewrite getitem_setitem, count_occ_snoc, Hget.
      destruct (letter =? c)%N eqn:Hlc.
      * apply N.eqb_eq in Hlc. subst c. now rewrite Hzero.
      * now rewrite Nat.add_0_r.
    + rewrite keys_setitem, Hc, first_seen_snoc, Hkeys.
      now destruct (in_dec N.eq_dec letter seen).
    + rewrite sum_values_setitem, Hsum, length_app.
      pose proof (Hget letter) as Hl. rewrite Hzero in Hl. simpl in Hl.
      rewrite Hl. simpl. lia.
Qed.

Lemma loop_counted (rest seen : str) (d : dict) :
  counted seen d ->
  exists d',
    fold_left
      (fun acc letter =>
         match acc with
         | Some letter_frequencies => count_letter letter_frequencies letter
         | None => None
         end)
      rest (Some d) = Some d'
    /\ counted (seen ++ rest) d'.
Proof.
  revert seen d. induction rest as [|c rest IH]; intros seen d Hd; simpl.
  - exists d. now rewrite app_nil_r.
  - destruct (count_letter_counted c Hd) as (d1 & -> & Hd1).
    destruct (IH _ _ Hd1) as (d' & Hd' & Hc).
    exists d'. split; [assumption|]. now rewrite <- app_assoc in Hc.
Qed.

(** The loop never meets a missing key, and what it returns has
    counted the whole word. *)
Lemma get_letter_frequency_counted (word : str) :
  exists d, get_letter_frequency word = Some d /\ counted word d.
Proof. exact (loop_counted word counted_nil). Qed.

(** X8. [get_letter_frequency] never raises, and in the dictionary it
    returns a letter of the word is bound to the number of times it
    occurs in the word; a letter that does not occur is no key. *)
Theorem letter_frequency_is_count (word : str) :
  exists d,
    get_letter_frequency word = Some d
    /\ forall c,
      getitem d c
      = if count_occ N.eq_dec word c =? 0 then None
        else Some (Z.of_nat (count_occ N.eq_dec word c)).
Proof.
  destruct (get_letter_frequency_counted word) as (d & Hd & Hget & _).
  now exists d.
Qed.

(** X9. The keys of the dictionary are the letters of the word, each
    once, in the order in which they first appear. *)
Theorem letter_frequency_keys (word : str) (d : dict) :
  get_letter_frequency word = Some d ->
  keys d = first_seen word
  /\ NoDup (keys d)
  /\ forall c, In c (keys d) <-> In c word.
Proof.
  intros Hd.
  destruct (get_letter_frequency_counted word) as (d' & Hd' & _ & Hkeys & _).
  rewrite Hd in Hd'. injection Hd' as <-.
  split; [assumption|]. rewrite Hkeys. unfold first_seen. split.
  - apply NoDup_rev, NoDup_nodup.
  - intros c. rewrite <- in_rev, nodup_In, <- in_rev. reflexivity.
Qed.

(** X10. The counts add up to the length of the word. *)
Theorem letter_frequency_total (word : str) (d : dict) :
  get_letter_frequency word = Some d ->
  sum_values d = Z.of_nat (List.length word).
Proof.
  intros Hd.
  destruct (get_letter_frequency_counted word) as (d' & Hd' & _ & _ & Hsum).
  rewrite Hd in Hd'. now injection Hd' as <-.
Qed.

Example blackberry :
  get_letter_frequency (of_string "blackberry")
  = Some [(of_ascii "b", 2); (of_ascii "l", 1); (of_ascii "a", 1);
          (of_ascii "c", 1); (of_ascii "k", 1); (of_ascii "e", 1);
          (of_ascii "r", 2); (of_ascii "y", 1)]%Z.
Proof. reflexivity. Qed.

End LetterFrequencyFacts.

(* ------------------------------------------------------------------ *)
(** ** [generate_analysis_with_watsonx]: one call per chunk *)

Module ContractAnalysisFacts.
Import PyStr PyStrFacts SplitText ContractAnalysis.
Import ChunkFacts.

Section WithModel.
Variable Prompt : Type.
Variable LLM : Type.
Variable format_prompt : str -> Prompt.
Variable invoke : LLM -> Prompt -> str * LLM.

Lemma loop_invokes (n_chunks : nat) (ichunks : list (nat * str))
      (st : analysis_state Prompt LLM) :
  let st' :=
    fold_left (analysis_step format_prompt invoke n_chunks) ichunks st in
  let run :=
    invoke_each invoke (watson_llm st)
                (map (fun ic => format_prompt (snd ic)) ichunks) in
  results st' = results st ++ fst run
  /\ watson_llm st' = snd run
  /\ replies_of (log st') = replies_of (log st) ++ fst run
  /\ prompts_of (log st')
     = prompts_of (log st)
         ++ map (fun ic => format_prompt (snd ic)) ichunks.
Proof.
  revert st. induction ichunks as [|[i chunk] l IH]; intros st; simpl.
  - now rewrite !app_nil_r.
  - destruct (invoke (watson_llm st) (format_prompt chunk))
      as [reply llm'] eqn:Hinv.
    match goal with
    | |- context [fold_left _ l ?s] =>
        destruct (IH s) as (Hres & Hllm & Hr & Hp)
    end.
    simpl in Hres, Hllm, Hr, Hp. unfold prompts_of, replies_of in *.
    rewrite flat_map_app in Hr, Hp. simpl in Hr, Hp.
    destruct (invoke_each invoke llm'
                (map (fun ic => format_prompt (snd ic)) l))
      as [replies llm2].
    simpl in *. rewrite Hres, Hllm, Hr, Hp, <- !app_assoc.
    simpl. auto.
Qed.

Lemma map_snd_combine_seq (chunks : list str) (start : nat) :
  map snd (combine (seq start (List.length chunks)) chunks) = chunks.
Proof.
  revert start. induction chunks as [|c l IH]; intros start; simpl;
    [reflexivity|]. now rewrite IH.
Qed.

(** X7. [generate_analysis_with_watsonx] calls the model once per
    chunk of [split_text(text, 100000)], in the order of the chunks:
    the call for a chunk is made on [format_prompt(chunk=chunk)] and on
    the model object the call before left.  The report is the replies
    of these calls in that order, joined by two newlines, and nothing
    else is asked of the model. *)
Theorem analysis_calls_each_chunk (text : str) (llm : LLM) :
  prompts_of
    (snd (generate_analysis_with_watsonx format_prompt invoke text llm))
  = map format_prompt (split_text text 100000)
  /\ replies_of
       (snd (generate_analysis_with_watsonx format_prompt invoke text llm))
     = fst (invoke_each invoke llm
                        (map format_prompt (split_text text 100000)))
  /\ fst (generate_analysis_with_watsonx format_prompt invoke text llm)
     = (join [newline; newline]
             (fst (invoke_each invoke llm
                               (map format_prompt
                                    (split_text text 100000)))),
        snd (invoke_each invoke llm
                         (map format_prompt (split_text text 100000)))).
Proof.
  unfold generate_analysis_with_watsonx.
  match goal with
  | |- context [fold_left ?f ?l ?s] =>
      destruct (loop_invokes (List.length (split_text text 100000)) l s)
        as (Hres & Hllm & Hr & Hp)
  end.
  simpl in Hres, Hllm, Hr, Hp.
  rewrite <- (map_map snd format_prompt), map_snd_combine_seq
    in Hres, Hllm, Hr, Hp.
  simpl. rewrite Hres, Hllm, Hr, Hp. auto.
Qed.

(** X11. For a text without a word the model is not called at all, its
    object is returned as it was given, and the report is the empty
    string; one line is logged. *)
Theorem analysis_of_blank_text (text : str) (llm : LLM) :
  forallb isspace text = true ->
  generate_analysis_with_watsonx format_prompt invoke text llm
  = ([], llm,
     [LogInfo Prompt
        (of_string "Split text into 0 chunks for processing.")]).
Proof.
  intros Hblank.
  unfold generate_analysis_with_watsonx.
  apply ChunkFacts.split_nil in Hblank.
  assert (Hnone : split_text text 100000 = [])
    by (unfold split_text; now rewrite Hblank).
  rewrite Hnone. reflexivity.
Qed.

(** X12. For a text that has a word and fewer than 100000 characters the
    model is called exactly once, on the words of the text joined by
    single spaces, and its reply is the report as it stands. *)
Theorem analysis_of_short_text (text : str) (llm : LLM) :
  split text <> [] ->
  (Z.of_nat (List.length text) < 100000)%Z ->
  let prompt := format_prompt (join [space] (split text)) in
  fst (generate_analysis_with_watsonx format_prompt invoke text llm)
  = invoke llm prompt
  /\ prompts_of
       (snd (generate_analysis_with_watsonx format_prompt invoke text llm))
     = [prompt].
Proof.
  intros Hword Hlen prompt.
  unfold generate_analysis_with_watsonx.
  assert (Hone : split_text text 100000 = [join [space] (split text)]).
  { unfold split_text. pose proof (ChunkFacts.split_cost text) as Hcost.
    rewrite ChunkFacts.loop_no_flush by (simpl; lia). simpl.
    destruct (split text); [contradiction | reflexivity]. }
  rewrite Hone. simpl. fold prompt.
  destruct (invoke llm prompt) as [reply llm']. simpl. auto.
Qed.

End WithModel.
End ContractAnalysisFacts.

(* ------------------------------------------------------------------ *)
(** ** More on the turns *)

Module BlockFacts.
Import Chess ArbiterFacts AgentFacts UserFacts SessionFacts SessionShape.

Section WithEngine.
Context {E : RulesEngine}.

(** *** [ai_pos] is never written *)

Lemma run_tool_calls_ai_pos (cs : list ToolCall) (g : Globals) :
  ai_pos (snd (fst (run_tool_calls act_tools cs g))) = ai_pos g.
Proof.
  revert g. induction cs as [|c cs IH]; intros g; simpl; [reflexivity|].
  unfold bind.
  destruct (run_tool_call_result c g) as (g1 & t1 & -> & _ & Hcase).
  specialize (IH g1).
  destruct (run_tool_calls act_tools cs g1) as [[r2 g2] t2].
  simpl in *. rewrite IH.
  destruct Hcase as [[-> _]|(_ & m & text & _ & -> & _)]; reflexivity.
Qed.

Lemma ai_turn_ai_pos (rounds : list (list ToolCall)) (g g1 : Globals)
      (r : result unit) (t : list Event) :
  ai_turn rounds g = (r, g1, t) -> ai_pos g1 = ai_pos g.
Proof.
  unfold ai_turn, bind. rewrite act_events.
  pose proof (run_tool_calls_ai_pos
                (List.concat (firstn max_prediction_rounds rounds)) g) as Hp.
  destruct (run_tool_calls_events
              (List.concat (firstn max_prediction_rounds rounds)) g)
    as (g0 & t0 & H0 & _).
  rewrite H0 in *. simpl in Hp. unfold get_globals.
  destruct (is_ai_turn g0).
  - destruct (legal_moves g0) as [|first rest].
    + intros H. injection H as _ <- _. exact Hp.
    + destruct (call_make_ai_move_cases first g0)
        as [[_ ->]|[(_ & e & _ & ->)|(_ & m & _ & ->)]];
        intros H; injection H as _ <- _; exact Hp.
  - intros H. injection H as _ <- _. exact Hp.
Qed.

Lemma user_turn_ai_pos (prompt : string) (lines : list string)
      (g g1 : Globals) (r : result (bool * list string)) (t : list Event) :
  user_turn prompt lines g = (r, g1, t) -> ai_pos g1 = ai_pos g.
Proof.
  destruct (user_turn_summary prompt lines g)
    as (t0 & _
        & [->|[(s & rest & _ & _ & ->)|(s & rest & m & _ & _ & _ & ->)]]);
    intros H; injection H as _ <- _; reflexivity.
Qed.

(** *** What the user's turn shows *)

Lemma user_turn_events (prompt : string) (lines : list string)
      (g g1 : Globals) (r : result (bool * list string)) (t : list Event) :
  user_turn prompt lines g = (r, g1, t) ->
  Forall (of_user_turn prompt) t.
Proof.
  revert r g1 t. induction lines as [|s rest IH]; intros r g1 t.
  - rewrite user_turn_eof. intros H. injection H as _ _ <-. constructor.
  - destruct (String.eqb (lower s) "quit") eqn:Hq.
    { rewrite user_turn_quit by assumption.
      intros H. injection H as _ _ <-. repeat constructor. }
    destruct (String.eqb (lower s) "help") eqn:Hh.
    + rewrite user_turn_help by assumption.
      destruct (user_turn prompt rest g) as [[r0 g0] t0] eqn:H0.
      intros H. injection H as _ _ <-.
      repeat (constructor; [exact I || reflexivity|]). now apply (IH r0 g0).
    + destruct (user_turn_move prompt s rest g Hq Hh)
        as [(e & _ & ->)|(_ & m & _ & ->)].
      * destruct (user_turn prompt rest g) as [[r0 g0] t0] eqn:H0.
        intros H. injection H as _ _ <-.
        repeat (constructor; [exact I || reflexivity|]). now apply (IH r0 g0).
      * intros H. injection H as _ _ <-. repeat constructor.
Qed.

(** *** Moves that are accepted, lines that are not *)

Section RoundTrip.
Hypothesis san_round_trip :
  forall (b : Board) (m : Move),
    In m (board_legal_moves b) ->
    board_parse_san b (board_san b m) = inr m.

(** X13. On a side's own turn, every move that [legal_moves()] lists is
    accepted when that side submits it: the board becomes the position
    after that move, nothing is raised and [ai_pos] stays. *)
Theorem legal_move_accepted (side : Side) (g : Globals) (m : Move) :
  is_current_turn side g = true ->
  In m (board_legal_moves (board g)) ->
  In (board_san (board g) m) (legal_moves g)
  /\ apply_move side (board_san (board g) m) g
     = (Ok tt, set_board g (board_push (board g) m), []).
Proof.
  intros Hturn Hin. split; [unfold legal_moves; now apply in_map|].
  rewrite apply_move_on_turn by assumption.
  now rewrite san_round_trip.
Qed.
End RoundTrip.

(** X14. A line that is neither [quit] nor [help] and that
    [make_user_move] refuses costs nothing: the error is printed and the
    loop goes on with the next line on the same globals. *)
Theorem refused_line_reprompts (prompt user_move : string)
        (rest : list string) (g : Globals) (e : Exn) :
  String.eqb (lower user_move) "quit" = false ->
  String.eqb (lower user_move) "help" = false ->
  fst (fst (make_user_move user_move g)) = Raise e ->
  exists r g' t,
    user_turn prompt rest g = (r, g', t)
    /\ user_turn prompt (user_move :: rest) g
       = (r, g',
          EvInput prompt user_move
            :: EvSubmit T_make_user_move user_move (Rejected e)
            :: EvPrintExn e :: t).
Proof.
  intros Hq Hh Hraise.
  destruct (user_turn_move prompt user_move rest g Hq Hh)
    as [(e' & Hcall & ->)|(Hturn & m & Hp & _)].
  - assert (e' = e) as ->.
    { unfold call_make_user_move, logged in Hcall.
      destruct (make_user_move user_move g) as [[r0 g0] t0].
      simpl in Hraise. subst r0. now injection Hcall as ->. }
    destruct (user_turn prompt rest g) as [[r g'] t]. now exists r, g', t.
  - exfalso.
    assert (Hh' : is_current_turn HUMAN g = true) by (simpl; now rewrite Hturn).
    pose proof (apply_move_on_turn HUMAN user_move g Hh') as Hm.
    simpl in Hm. rewrite Hm, Hp in Hraise. discriminate.
Qed.

(** X15. When the AI is to move, the position has no legal move
    (a case the loop's end check keeps the AI's turn away from on an
    engine that reports mate and stalemate) and the invocation of the
    agent committed nothing, the invocation left the globals as they
    were and the failsafe raises [IndexError] on [legal_moves()[0]]:
    the turn ends on this exception, on the same globals, having
    shown what the invocation showed. *)
Theorem failsafe_without_moves (rounds : list (list ToolCall))
        (g : Globals) :
  is_ai_turn g = true ->
  board_legal_moves (board g) = [] ->
  commits (snd (act act_tools max_prediction_rounds rounds g)) = [] ->
  exists t,
    act act_tools max_prediction_rounds rounds g = (Ok tt, g, t)
    /\ ai_turn rounds g = (Raise IndexError, g, t).
Proof.
  intros Hturn Hnone Hc. unfold ai_turn, bind.
  rewrite act_events in *.
  destruct (run_tool_calls_no_commit
              (List.concat (firstn max_prediction_rounds rounds)) g)
    as (t & Hrun & _).
  { destruct (run_tool_calls act_tools _ g) as [[r g'] t]. exact Hc. }
  rewrite Hrun. unfold get_globals. rewrite Hturn.
  unfold legal_moves. rewrite Hnone. simpl.
  exists (EvAct act_tools max_prediction_rounds :: t).
  now rewrite app_nil_r.
Qed.

End WithEngine.
End BlockFacts.

(* ------------------------------------------------------------------ *)
(** ** The invocations of the agent *)

Module InvocationFacts.
Import Chess ArbiterFacts AgentFacts UserFacts TraceFacts SessionFacts.
Import TurnFacts BlockFacts.

Section WithEngine.
Context {E : RulesEngine}.

(** *** Nothing in the AI's turn is a ply of the user *)

Lemma free_of_join (P : Event -> bool) (a b : list Event) :
  free_of P a -> free_of P b -> free_of P (a ++ b).
Proof.
  unfold free_of. intros Ha Hb. now rewrite existsb_app, Ha, Hb.
Qed.

Lemma call_make_ai_move_quiet (move : string) (g : Globals) :
  free_of is_open_user_ply (snd (call_make_ai_move move g)).
Proof.
  destruct (call_make_ai_move_cases move g)
    as [[_ ->]|[(_ & e & _ & ->)|(_ & m & _ & ->)]]; reflexivity.
Qed.

Lemma run_tool_call_quiet (c : ToolCall) (g : Globals) :
  free_of is_open_user_ply (snd (run_tool_call act_tools c g)).
Proof.
  rewrite run_tool_call_act_tools.
  destruct c as [f|f move]; [reflexivity|].
  destruct f; try reflexivity. unfold reported.
  pose proof (call_make_ai_move_quiet move g) as H.
  now destruct (call_make_ai_move move g) as [[r g1] t].
Qed.

Lemma run_tool_calls_quiet (cs : list ToolCall) (g : Globals) :
  free_of is_open_user_ply (snd (run_tool_calls act_tools cs g)).
Proof.
  revert g. induction cs as [|c cs IH]; intros g; simpl; [reflexivity|].
  unfold bind. pose proof (run_tool_call_quiet c g) as H1.
  destruct (run_tool_call act_tools c g) as [[[[]|e] g1] t1];
    simpl in *; [|exact H1].
  pose proof (IH g1) as H2.
  destruct (run_tool_calls act_tools cs g1) as [[r2 g2] t2].
  now apply free_of_join.
Qed.

Lemma ai_turn_quiet (rounds : list (list ToolCall)) (g : Globals) :
  free_of is_open_user_ply (snd (ai_turn rounds g)).
Proof.
  unfold ai_turn, bind. rewrite act_events.
  pose proof (run_tool_calls_quiet
                (List.concat (firstn max_prediction_rounds rounds)) g)
    as H1.
  destruct (run_tool_calls act_tools _ g) as [[[[]|e] g1] t1];
    simpl in *; [|exact H1].
  unfold get_globals. destruct (is_ai_turn g1).
  - destruct (legal_moves g1) as [|first rest].
    + simpl. rewrite app_nil_r. exact H1.
    + pose proof (call_make_ai_move_quiet first g1) as H2.
      destruct (call_make_ai_move first g1) as [[r2 g2] t2].
      simpl in *.
      change (free_of is_open_user_ply (t1 ++ t2)).
      now apply free_of_join.
  - simpl. rewrite app_nil_r. exact H1.
Qed.

Lemma noise_quiet (t : list Event) :
  forallb is_noise t = true -> free_of is_open_user_ply t.
Proof.
  unfold free_of. induction t as [|e t IH]; [reflexivity|].
  simpl. intros H. apply andb_true_iff in H as [He Ht].
  rewrite (IH Ht), orb_false_r.
  destruct e; try reflexivity.
  destruct f; try reflexivity. destruct r; [discriminate | reflexivity].
Qed.

(** *** The loop, a ply at a time *)

(** A run that begins with the AI's part begins with the invocation;
    no ply of the user is in the AI's turn, so what holds after the
    user's plies holds when it holds of what follows. *)
Lemma ai_ply_invokes (rounds : list (list ToolCall)) (move : Z)
      (k : Z -> Prog (option Exit)) (g : Globals)
      (r : result (option Exit)) (g' : Globals) (t : list Event) :
  (forall g1 r1 g1' t1,
      ai_pos g1 = ai_pos g ->
      k (move + 1)%Z g1 = (r1, g1', t1) ->
      after_each is_open_user_ply agent_is_next t1) ->
  ai_ply rounds move k g = (r, g', t) ->
  after_each is_open_user_ply agent_is_next t
  /\ exists t', t = EvAct act_tools max_prediction_rounds :: t'.
Proof.
  intros Hk Hrun. unfold ai_ply, bind in Hrun.
  destruct (ai_turn_events rounds g) as (r1 & g1 & t1 & Hturn & _).
  pose proof (ai_turn_quiet rounds g) as Hq.
  pose proof (ai_turn_ai_pos _ _ Hturn) as Hpos.
  rewrite Hturn in Hrun, Hq. simpl in Hq.
  destruct r1 as [[]|e].
  - rewrite after_ply_eq in Hrun.
    destruct (get_end_state g1) as [msg|] eqn:Hend.
    + injection Hrun as <- <- <-. split; [|simpl; eauto].
      change (after_each is_open_user_ply agent_is_next
                ((EvAct act_tools max_prediction_rounds :: t1)
                   ++ shown_after_ply move g1 ++ [EvPrint msg])).
      apply after_each_free. now apply free_of_join.
    + destruct (k (move + 1)%Z g1) as [[r2 g2] t2] eqn:Hk2.
      injection Hrun as <- <- <-. split; [|simpl; eauto].
      change (after_each is_open_user_ply agent_is_next
                ((EvAct act_tools max_prediction_rounds :: t1)
                   ++ shown_after_ply move g1 ++ t2)).
      apply after_each_app_free; [exact Hq|].
      apply after_each_app_free; [reflexivity|].
      eapply Hk; eassumption.
  - injection Hrun as <- <- <-. split; [|eauto].
    now apply after_each_free.
Qed.

(** A ply of the user after which the game goes on is followed by the
    display and by what the loop does next. *)
Lemma user_ply_invokes (prompt : string) (lines : list string) (move : Z)
      (k : list string -> Z -> Prog (option Exit)) (g : Globals)
      (r : result (option Exit)) (g' : Globals) (t : list Event) :
  (forall rest g1 r1 g1' t1,
      List.length rest < List.length lines ->
      ai_pos g1 = ai_pos g ->
      k rest (move + 1)%Z g1 = (r1, g1', t1) ->
      after_each is_open_user_ply agent_is_next t1
      /\ exists t', t1 = EvAct act_tools max_prediction_rounds :: t') ->
  user_ply prompt lines move k g = (r, g', t) ->
  after_each is_open_user_ply agent_is_next t.
Proof.
  intros Hk Hrun. unfold user_ply, bind in Hrun.
  destruct (user_turn_summary prompt lines g)
    as (t0 & Hn
        & [H0|[(s & rest & _ & _ & H0)
              |(s & rest & m & _ & Hlen & _ & H0)]]);
    rewrite H0 in Hrun; apply noise_quiet in Hn.
  - injection Hrun as <- <- <-. now apply after_each_free.
  - simpl in Hrun. injection Hrun as <- <- <-.
    apply after_each_free. rewrite app_nil_r. now apply free_of_join.
  - rewrite after_ply_eq in Hrun.
    set (g1 := set_board g (board_push (board g) m)) in *.
    destruct (get_end_state g1) as [msg|] eqn:Hend.
    + injection Hrun as <- <- <-. apply after_each_free.
      apply free_of_join; [|reflexivity].
      apply free_of_join; [exact Hn|].
      unfold free_of. simpl.
      change (end_state_of (board_push (board g) m))
        with (get_end_state g1).
      now rewrite Hend.
    + destruct (k rest (move + 1)%Z g1) as [[r2 g2] t2] eqn:Hk2.
      injection Hrun as <- <- <-.
      destruct (Hk rest g1 r2 g2 t2 Hlen eq_refl Hk2) as [Ht2 [t' ->]].
      rewrite <- app_assoc. apply after_each_app_free; [exact Hn|].
      simpl. split; [discriminate|]. split.
      * intros _. now exists move, g1, t'.
      * split; [discriminate|]. split; [discriminate|].
        split; [discriminate|]. exact Ht2.
Qed.

(** With more fuel than lines to read: every ply of the user after
    which the game goes on is answered by an invocation, and the run
    opens with one when the AI drew white. *)
Lemma game_loop_invokes (fuel : nat) (agent : Z -> list (list ToolCall))
      (move : Z) (lines : list string) (g : Globals)
      (r : result (option Exit)) (g' : Globals) (t : list Event) :
  List.length lines < fuel ->
  game_loop fuel agent move lines g = (r, g', t) ->
  after_each is_open_user_ply agent_is_next t
  /\ ((ai_pos g =? 0)%Z = true ->
      exists t', t = EvAct act_tools max_prediction_rounds :: t').
Proof.
  revert move lines g r g' t.
  induction fuel as [|fuel IH]; intros move lines g r g' t Hlen; [lia|].
  rewrite game_loop_head. destruct (ai_pos g =? 0)%Z eqn:Hpos.
  - intros Hrun.
    apply ai_ply_invokes in Hrun; [destruct Hrun; auto|].
    intros g1 r1 g1' t1 Hpos1.
    apply user_ply_invokes.
    intros rest g2 r2 g2' t2 Hrest Hpos2 Hrun2.
    apply IH in Hrun2; [|lia]. destruct Hrun2 as [H1 H2].
    split; [exact H1|]. apply H2. now rewrite Hpos2, Hpos1.
  - intros Hrun. split; [|discriminate].
    revert Hrun. apply user_ply_invokes.
    intros rest g1 r1 g1' t1 Hrest Hpos1.
    apply ai_ply_invokes.
    intros g2 r2 g2' t2 Hpos2 Hrun2.
    apply IH in Hrun2; [|lia]. exact (proj1 Hrun2).
Qed.

(** C8, amended. Every automated turn invokes the agent, once, and
    gives it exactly [get_move_history], [legal_moves],
    [possible_captures], [possible_checks] and [make_ai_move], with a
    cap of five prediction rounds; [is_ai_turn] is not among them, and
    neither is [make_user_move].  The AI's turn, whatever the agent
    requests and whatever the position, begins with this invocation,
    and what follows in the turn are calls of the move function.  In
    every session the invocation is the first thing after the opening
    display when the AI drew white, and the first thing after the
    display that follows a ply of the user unless that ply ended the
    game; and no invocation in a session is made with another list or
    another cap. *)
Theorem agent_tools_as_written (draw : Z)
        (agent : Z -> list (list ToolCall)) (lines : list string) :
  (forall rounds g,
      exists r g' t,
        ai_turn rounds g
        = (r, g', EvAct act_tools max_prediction_rounds :: t)
        /\ forallb is_submit t = true)
  /\ (draw = 0%Z ->
      exists t',
        snd (session draw agent lines)
        = EvClearOutput :: EvDisplay board_reset false
            :: EvAct act_tools max_prediction_rounds :: t')
  /\ after_each is_open_user_ply agent_is_next
                (snd (session draw agent lines))
  /\ (forall tools n,
         In (EvAct tools n) (snd (session draw agent lines)) ->
         tools = [T_get_move_history; T_legal_moves; T_possible_captures;
                  T_possible_checks; T_make_ai_move]
         /\ n = 5
         /\ ~ In T_is_ai_turn tools
         /\ ~ In T_make_user_move tools).
Proof.
  split; [exact ai_turn_events|].
  assert (Hloop : forall r g' t,
             game_loop (S (List.length lines)) agent 0 lines
                       {| board := board_reset; ai_pos := draw |}
             = (r, g', t) ->
             after_each is_open_user_ply agent_is_next t
             /\ ((draw =? 0)%Z = true ->
                 exists t',
                   t = EvAct act_tools max_prediction_rounds :: t')).
  { intros r g' t Hrun.
    apply game_loop_invokes in Hrun; [exact Hrun | lia]. }
  split; [|split].
  - intros ->. rewrite session_eq.
    destruct (game_loop _ _ _ _ _) as [[r g'] t] eqn:Hrun.
    destruct (Hloop _ _ _ eq_refl) as [_ [t' ->]]; [reflexivity|].
    simpl. eauto.
  - rewrite session_eq.
    destruct (game_loop _ _ _ _ _) as [[r g'] t] eqn:Hrun.
    destruct (Hloop _ _ _ eq_refl) as [H _].
    simpl. split; [discriminate|]. split; [discriminate|]. exact H.
  - intros tools n Hin.
    destruct (session draw agent lines) as [[r g'] t] eqn:Hrun.
    destruct (session_good_io _ _ _ Hrun) as (_ & _ & _ & Hact).
    rewrite Forall_forall in Hact. destruct (Hact _ Hin) as [-> ->].
    repeat split; intros H; simpl in H; intuition discriminate.
Qed.

End WithEngine.
End InvocationFacts.

(* ------------------------------------------------------------------ *)
(** ** A rule for the loop *)

Module LoopRule.
Import Chess ArbiterFacts AgentFacts UserFacts SessionFacts TurnFacts.
Import SessionShape BlockFacts.

Section WithEngine.
Context {E : RulesEngine}.

(** [Post move g r g' t]: a run from ply count [move] and globals [g]
    ends with [r] on [g'] and shows [t].  [Pre_ai] and [Pre_user] are
    what is known of the globals when the AI's turn and the user's turn
    begin.  The hypotheses say that [Post] holds of every way a turn can
    end the run, and is carried over a turn after which the run goes
    on. *)
Variable Post :
  Z -> Globals -> result (option Exit) -> Globals -> list Event -> Prop.
Variables Pre_ai Pre_user : Globals -> Prop.

Hypothesis post_fuel : forall move g, Post move g (Ok None) g [].

Hypothesis post_ai_raise :
  forall move g rounds e g1 t1,
    Pre_ai g -> ai_turn rounds g = (Raise e, g1, t1) ->
    Post move g (Raise e) g1 t1.

Hypothesis post_ai_over :
  forall move g rounds g1 t1 msg,
    Pre_ai g -> ai_turn rounds g = (Ok tt, g1, t1) ->
    get_end_state g1 = Some msg ->
    Post move g (Ok (Some (GameOver msg))) g1
         (t1 ++ shown_after_ply move g1 ++ [EvPrint msg]).

Hypothesis post_ai_next :
  forall move g rounds g1 t1,
    Pre_ai g -> ai_turn rounds g = (Ok tt, g1, t1) ->
    get_end_state g1 = None ->
    Pre_user g1
    /\ forall r g' t2,
        Post (move + 1)%Z g1 r g' t2 ->
        Post move g r g' (t1 ++ shown_after_ply move g1 ++ t2).

Hypothesis post_user_raise :
  forall move g lines e g1 t1,
    Pre_user g ->
    user_turn (user_prompt (ai_pos g)) lines g = (Raise e, g1, t1) ->
    Post move g (Raise e) g1 t1.

Hypothesis post_user_quit :
  forall move g lines rest g1 t1,
    Pre_user g ->
    user_turn (user_prompt (ai_pos g)) lines g = (Ok (true, rest), g1, t1) ->
    Post move g (Ok (Some UserQuit)) g1 t1.

Hypothesis post_user_over :
  forall move g lines rest g1 t1 msg,
    Pre_user g ->
    user_turn (user_prompt (ai_pos g)) lines g = (Ok (false, rest), g1, t1) ->
    get_end_state g1 = Some msg ->
    Post move g (Ok (Some (GameOver msg))) g1
         (t1 ++ shown_after_ply move g1 ++ [EvPrint msg]).

Hypothesis post_user_next :
  forall move g lines rest g1 t1,
    Pre_user g ->
    user_turn (user_prompt (ai_pos g)) lines g = (Ok (false, rest), g1, t1) ->
    get_end_state g1 = None ->
    Pre_ai g1
    /\ forall r g' t2,
        Post (move + 1)%Z g1 r g' t2 ->
        Post move g r g' (t1 ++ shown_after_ply move g1 ++ t2).

Lemma rule_ai_ply (rounds : list (list ToolCall)) (move : Z)
      (k : Z -> Prog (option Exit)) (g : Globals) :
  Pre_ai g ->
  (forall g1 r g' t,
      Pre_user g1 -> ai_pos g1 = ai_pos g ->
      k (move + 1)%Z g1 = (r, g', t) -> Post (move + 1)%Z g1 r g' t) ->
  forall r g' t,
    ai_ply rounds move k g = (r, g', t) -> Post move g r g' t.
Proof.
  intros Hpre Hk r g' t. unfold ai_ply, bind.
  destruct (ai_turn rounds g) as [[[[]|e] g1] t1] eqn:Hturn.
  - rewrite after_ply_eq.
    destruct (get_end_state g1) as [msg|] eqn:Hend.
    + intros H. injection H as <- <- <-. eapply post_ai_over; eauto.
    + destruct (@post_ai_next move g rounds g1 t1 Hpre Hturn Hend)
        as [Hpre1 Hnext].
      destruct (k (move + 1)%Z g1) as [[r2 g2] t2] eqn:Hk2.
      intros H. injection H as <- <- <-. apply Hnext.
      apply Hk; [assumption | | assumption].
      eapply ai_turn_ai_pos; exact Hturn.
  - intros H. injection H as <- <- <-. eapply post_ai_raise; eauto.
Qed.

Lemma rule_user_ply (lines : list string) (move : Z)
      (k : list string -> Z -> Prog (option Exit)) (g : Globals) :
  Pre_user g ->
  (forall rest g1 r g' t,
      Pre_ai g1 -> ai_pos g1 = ai_pos g ->
      k rest (move + 1)%Z g1 = (r, g', t) -> Post (move + 1)%Z g1 r g' t) ->
  forall r g' t,
    user_ply (user_prompt (ai_pos g)) lines move k g = (r, g', t) ->
    Post move g r g' t.
Proof.
  intros Hpre Hk r g' t. unfold user_ply, bind.
  destruct (user_turn (user_prompt (ai_pos g)) lines g)
    as [[[[[|] rest]|e] g1] t1] eqn:Hturn.
  - simpl. intros H. injection H as <- <- <-. rewrite app_nil_r.
    eapply post_user_quit; eauto.
  - rewrite after_ply_eq.
    destruct (get_end_state g1) as [msg|] eqn:Hend.
    + intros H. injection H as <- <- <-. eapply post_user_over; eauto.
    + destruct (@post_user_next move g lines rest g1 t1 Hpre Hturn Hend)
        as [Hpre1 Hnext].
      destruct (k rest (move + 1)%Z g1) as [[r2 g2] t2] eqn:Hk2.
      intros H. injection H as <- <- <-. apply Hnext.
      apply (Hk rest); [assumption | | assumption].
      eapply user_turn_ai_pos; exact Hturn.
  - intros H. injection H as <- <- <-. eapply post_user_raise; eauto.
Qed.

(** The rule: [Post] holds of every run of the loop, with any fuel. *)
Lemma loop_rule (fuel : nat) (agent : Z -> list (list ToolCall))
      (move : Z) (lines : list string) (g : Globals)
      (r : result (option Exit)) (g' : Globals) (t : list Event) :
  (if (ai_pos g =? 0)%Z then Pre_ai g else Pre_user g) ->
  game_loop fuel agent move lines g = (r, g', t) ->
  Post move g r g' t.
Proof.
  revert move lines g r g' t.
  induction fuel as [|fuel IH]; intros move lines g r g' t Hpre.
  - intros H. injection H as <- <- <-. apply post_fuel.
  - rewrite game_loop_head.
    destruct (ai_pos g =? 0)%Z eqn:Hpos.
    + apply rule_ai_ply; [assumption|].
      intros g1 r1 g1' t1 Hpre1 Hpos1.
      replace prompt_black with (user_prompt (ai_pos g1))
        by (unfold user_prompt; now rewrite Hpos1, Hpos).
      apply rule_user_ply; [assumption|].
      intros rest g2 r2 g2' t2 Hpre2 Hpos2. apply IH.
      now rewrite Hpos2, Hpos1, Hpos.
    + replace prompt_white with (user_prompt (ai_pos g))
        by (unfold user_prompt; now rewrite Hpos).
      apply rule_user_ply; [assumption|].
      intros rest g1 r1 g1' t1 Hpre1 Hpos1.
      apply rule_ai_ply; [assumption|].
      intros g2 r2 g2' t2 Hpre2 Hpos2. apply IH.
      now rewrite Hpos2, Hpos1, Hpos.
Qed.

End WithEngine.
End LoopRule.

(* ------------------------------------------------------------------ *)
(** ** What every session keeps *)

Module SessionShapeFacts.
Import Chess ArbiterFacts AgentFacts UserFacts SessionFacts TurnFacts.
Import SessionShape BlockFacts LoopRule.

Section WithEngine.
Context {E : RulesEngine}.

(** *** The draw, the orientation and the prompt *)

Lemma submits_assigned (a : Z) (t : list Event) :
  forallb is_submit t = true -> Forall (as_assigned a) t.
Proof.
  induction t as [|e t IH]; simpl; intros H; constructor.
  - apply andb_true_iff in H as [He _]. destruct e; try discriminate.
    exact I.
  - apply andb_true_iff in H as [_ Ht]. auto.
Qed.

Lemma ai_turn_assigned (a : Z) (rounds : list (list ToolCall))
      (g g1 : Globals) (r : result unit) (t : list Event) :
  ai_turn rounds g = (r, g1, t) -> Forall (as_assigned a) t.
Proof.
  intros H. destruct (ai_turn_events rounds g) as (r0 & g0 & t0 & H0 & Hs).
  rewrite H in H0. injection H0 as _ _ ->.
  constructor; [exact I|]. now apply submits_assigned.
Qed.

Lemma user_turn_assigned (a : Z) (lines : list string) (g g1 : Globals)
      (r : result (bool * list string)) (t : list Event) :
  user_turn (user_prompt a) lines g = (r, g1, t) ->
  Forall (as_assigned a) t.
Proof.
  intros H. apply user_turn_events in H.
  eapply Forall_impl; [|exact H].
  intros [] He; simpl in *; auto; contradiction.
Qed.

Lemma shown_assigned (move : Z) (g : Globals) :
  Forall (as_assigned (ai_pos g)) (shown_after_ply move g).
Proof. unfold shown_after_ply. repeat constructor. Qed.

Lemma kept_stop (move : Z) (g g1 : Globals) (e : Exn) (t1 : list Event) :
  ai_pos g1 = ai_pos g ->
  Forall (as_assigned (ai_pos g)) t1 ->
  assignment_kept move g (Raise e) g1 t1.
Proof.
  intros Hpos Ht. split; [assumption|]. split; [assumption|].
  split; [intros msg H|intros H]; discriminate.
Qed.

Lemma kept_over (move : Z) (g g1 : Globals) (t1 : list Event)
      (msg : string) :
  ai_pos g1 = ai_pos g ->
  Forall (as_assigned (ai_pos g)) t1 ->
  get_end_state g1 = Some msg ->
  assignment_kept move g (Ok (Some (GameOver msg))) g1
                  (t1 ++ shown_after_ply move g1 ++ [EvPrint msg]).
Proof.
  intros Hpos Ht Hend. split; [assumption|]. split.
  - apply Forall_app. split; [assumption|].
    apply Forall_app. split.
    + rewrite <- Hpos. apply shown_assigned.
    + repeat constructor.
  - split.
    + intros msg' H. injection H as <-. split; [assumption|].
      exists (t1 ++ shown_after_ply move g1). now rewrite <- app_assoc.
    + discriminate.
Qed.

Lemma kept_next (move : Z) (g g1 : Globals) (t1 : list Event) :
  ai_pos g1 = ai_pos g ->
  Forall (as_assigned (ai_pos g)) t1 ->
  forall r g' t2,
    assignment_kept (move + 1) g1 r g' t2 ->
    assignment_kept move g r g' (t1 ++ shown_after_ply move g1 ++ t2).
Proof.
  intros Hpos Ht r g' t2 (Hpos' & Ht2 & Hover & Hquit).
  rewrite Hpos in *. split; [assumption|]. split.
  - apply Forall_app. split; [assumption|].
    apply Forall_app. split; [|assumption].
    rewrite <- Hpos. apply shown_assigned.
  - split.
    + intros msg H. destruct (Hover msg H) as [Hend (pre & ->)].
      split; [assumption|].
      exists (t1 ++ shown_after_ply move g1 ++ pre).
      now rewrite <- !app_assoc.
    + intros H. destruct (Hquit H) as (pre & reply & -> & Hq).
      exists (t1 ++ shown_after_ply move g1 ++ pre), reply.
      split; [now rewrite <- !app_assoc | assumption].
Qed.

Lemma kept_quit (move : Z) (g g1 : Globals) (lines rest : list string)
      (t1 : list Event) :
  user_turn (user_prompt (ai_pos g)) lines g = (Ok (true, rest), g1, t1) ->
  assignment_kept move g (Ok (Some UserQuit)) g1 t1.
Proof.
  intros H. split; [eapply user_turn_ai_pos; exact H|].
  split; [eapply user_turn_assigned; exact H|].
  split; [discriminate|]. intros _.
  destruct (user_turn_summary (user_prompt (ai_pos g)) lines g)
    as (t0 & _ & [H0|[(s & rest0 & Hq & _ & H0)
                     |(s & rest0 & m & _ & _ & _ & H0)]]);
    rewrite H in H0; try discriminate.
  injection H0 as _ _ ->. now exists t0, s.
Qed.

(** Every run of the loop keeps the draw, with any fuel. *)
Lemma game_loop_keeps_assignment
      (fuel : nat) (agent : Z -> list (list ToolCall)) (move : Z)
      (lines : list string) (g : Globals) (r : result (option Exit))
      (g' : Globals) (t : list Event) :
  game_loop fuel agent move lines g = (r, g', t) ->
  assignment_kept move g r g' t.
Proof.
  apply loop_rule
    with (Pre_ai := fun _ : Globals => True)
         (Pre_user := fun _ : Globals => True).
  - intros m g0. split; [reflexivity|]. split; [constructor|].
    split; [intros msg H|intros H]; discriminate.
  - intros m g0 rounds e g1 t1 _ H.
    apply kept_stop;
      [eapply ai_turn_ai_pos | eapply ai_turn_assigned]; exact H.
  - intros m g0 rounds g1 t1 msg _ H Hend.
    apply kept_over; [eapply ai_turn_ai_pos; exact H
                     |eapply ai_turn_assigned; exact H | assumption].
  - intros m g0 rounds g1 t1 _ H _. split; [exact I|].
    apply kept_next;
      [eapply ai_turn_ai_pos | eapply ai_turn_assigned]; exact H.
  - intros m g0 ls e g1 t1 _ H.
    apply kept_stop;
      [eapply user_turn_ai_pos | eapply user_turn_assigned]; exact H.
  - intros m g0 ls rest g1 t1 _ H. eapply kept_quit; exact H.
  - intros m g0 ls rest g1 t1 msg _ H Hend.
    apply kept_over; [eapply user_turn_ai_pos; exact H
                     |eapply user_turn_assigned; exact H | assumption].
  - intros m g0 ls rest g1 t1 _ H _. split; [exact I|].
    apply kept_next;
      [eapply user_turn_ai_pos | eapply user_turn_assigned]; exact H.
  - destruct (ai_pos g =? 0)%Z; exact I.
Qed.

Lemma session_keeps (draw : Z) (agent : Z -> list (list ToolCall))
      (lines : list string) (r : result (option Exit)) (g' : Globals)
      (t : list Event) :
  session draw agent lines = (r, g', t) ->
  exists t',
    t = EvClearOutput :: EvDisplay board_reset (draw =? 1)%Z :: t'
    /\ assignment_kept 0 {| board := board_reset; ai_pos := draw |}
                       r g' t'.
Proof.
  rewrite session_eq.
  destruct (game_loop (S (List.length lines)) agent 0 lines
                      {| board := board_reset; ai_pos := draw |})
    as [[r0 g0] t0] eqn:Hloop.
  intros H. injection H as <- <- <-. exists t0. split; [reflexivity|].
  eapply game_loop_keeps_assignment; exact Hloop.
Qed.

(** *** The order of the plies *)

Lemma committers_app (a b : list Event) :
  committers (a ++ b) = committers a ++ committers b.
Proof. apply flat_map_app. Qed.

Lemma committers_commits (t : list Event) :
  committers (commits t) = committers t.
Proof.
  induction t as [|e t IH]; [reflexivity|].
  unfold commits in *. destruct e; simpl; try exact IH.
  destruct r; simpl; [now rewrite IH | exact IH].
Qed.

Lemma commits_cons (e : Event) (t : list Event) :
  commits (e :: t) = if is_commit e then e :: commits t else commits t.
Proof. reflexivity. Qed.

Lemma submits_no_display (t : list Event) :
  forallb is_submit t = true ->
  Forall (fun e => forall b w, e <> EvDisplay b w) t.
Proof.
  induction t as [|e t IH]; simpl; intros H; constructor.
  - apply andb_true_iff in H as [He _]. destruct e; discriminate.
  - apply andb_true_iff in H as [_ Ht]. auto.
Qed.

Lemma user_turn_no_display (prompt : string) (lines : list string)
      (g g1 : Globals) (r : result (bool * list string)) (t : list Event) :
  user_turn prompt lines g = (r, g1, t) ->
  Forall (fun e => forall b w, e <> EvDisplay b w) t.
Proof.
  intros H. apply user_turn_events in H.
  eapply Forall_impl; [|exact H].
  intros [] He b0 w0; simpl in *; try discriminate; contradiction.
Qed.

Lemma noise_no_commit (t : list Event) :
  forallb is_noise t = true -> commits t = [].
Proof.
  induction t as [|e t IH]; [reflexivity|]. intros H.
  rewrite commits_cons. simpl in H.
  apply andb_true_iff in H as [He Ht].
  destruct (is_commit e) eqn:Hc; [|auto].
  destruct e; try discriminate. destruct r; discriminate.
Qed.

Lemma next_board_event_skip (t tl : list Event) :
  Forall (fun e => forall b w, e <> EvDisplay b w) t ->
  commits t = [] ->
  next_board_event (t ++ tl) = next_board_event tl.
Proof.
  induction 1 as [|e t He _ IH]; [reflexivity|].
  rewrite commits_cons. simpl.
  destruct e; simpl; auto.
  - now destruct (He b white_below).
  - destruct r; simpl; [discriminate | auto].
Qed.

Lemma rendered_no_commit (t : list Event) :
  commits t = [] -> rendered t.
Proof.
  induction t as [|e t IH]; [exact (fun _ => I)|].
  rewrite commits_cons. simpl.
  destruct e; simpl; auto.
  destruct r; simpl; [discriminate | auto].
Qed.

(** A turn that showed no board and committed at most one ply, the
    position [b], followed by a display of [b]. *)
Lemma rendered_turn (t1 tl : list Event) (b : Board) (w : bool) :
  Forall (fun e => forall b w, e <> EvDisplay b w) t1 ->
  (commits t1 = []
   \/ exists f x, commits t1 = [EvSubmit f x (Committed b)]) ->
  next_board_event tl = Some (EvDisplay b w) ->
  rendered tl ->
  rendered (t1 ++ tl).
Proof.
  intros Hd Hc Htl Hr. induction Hd as [|e t1 He Hd IH]; [exact Hr|].
  rewrite commits_cons in Hc. simpl.
  destruct e; simpl in *; try (split; [exact I | exact (IH Hc)]).
  destruct r; simpl in *; [|split; [exact I | exact (IH Hc)]].
  destruct Hc as [Hc|(f0 & x0 & Hc)]; [discriminate|].
  injection Hc as _ _ -> Hc. split.
  - exists w. now rewrite next_board_event_skip.
  - apply IH. now left.
Qed.

Lemma plies_stop (move : Z) (g : Globals) (r : result (option Exit))
      (t1 : list Event) :
  commits t1 = [] -> plies_in_turn move g r g t1.
Proof.
  intros Hc. unfold plies_in_turn.
  rewrite <- committers_commits, Hc. simpl.
  rewrite xorb_false_r. split; [exact I|]. split; [reflexivity|].
  now apply rendered_no_commit.
Qed.

Lemma plies_next (side : bool) (move : Z) (g g1 : Globals)
      (t1 : list Event) :
  Forall (fun e => forall b w, e <> EvDisplay b w) t1 ->
  (g1 = g /\ commits t1 = [])
  \/ (is_ai_turn g = side /\ is_ai_turn g1 = negb side
      /\ exists x,
        commits t1
        = [EvSubmit (if side then T_make_ai_move else T_make_user_move)
                    x (Committed (board g1))]) ->
  forall r g' t2,
    plies_in_turn (move + 1) g1 r g' t2 ->
    plies_in_turn move g r g' (t1 ++ shown_after_ply move g1 ++ t2).
Proof.
  intros Hd Hcase r g' t2 (Halt & Hpar & Hren).
  assert (Hr : rendered (t1 ++ shown_after_ply move g1 ++ t2)).
  { apply rendered_turn with (b := board g1) (w := (ai_pos g1 =? 1)%Z).
    - exact Hd.
    - destruct Hcase as [[_ Hc]|(_ & _ & x & Hc)]; [now left|].
      right. eauto.
    - reflexivity.
    - simpl. auto. }
  unfold plies_in_turn. rewrite !committers_app.
  rewrite <- (committers_commits t1).
  destruct Hcase as [[-> Hc]|(Hs & Hs1 & x & Hc)]; rewrite Hc; simpl.
  - auto.
  - rewrite Hs. rewrite Hs1 in Halt, Hpar. split; [auto|].
    split; [|exact Hr].
    rewrite Hpar, Nat.odd_succ, <- Nat.negb_odd.
    now destruct side, (Nat.odd _).
Qed.

Lemma plies_over (side : bool) (move : Z) (g g1 : Globals)
      (t1 : list Event) (r : result (option Exit)) (msg : string) :
  Forall (fun e => forall b w, e <> EvDisplay b w) t1 ->
  (g1 = g /\ commits t1 = [])
  \/ (is_ai_turn g = side /\ is_ai_turn g1 = negb side
      /\ exists x,
        commits t1
        = [EvSubmit (if side then T_make_ai_move else T_make_user_move)
                    x (Committed (board g1))]) ->
  plies_in_turn move g r g1
                (t1 ++ shown_after_ply move g1 ++ [EvPrint msg]).
Proof.
  intros Hd Hcase. apply plies_next with (side := side); try assumption.
  now apply plies_stop.
Qed.

Section InTurn.
Hypothesis push_turn :
  forall (b : Board) (m : Move),
    board_turn (board_push b m) = negb (board_turn b).

Lemma ai_turn_shape (rounds : list (list ToolCall)) (g g1 : Globals)
      (r : result unit) (t : list Event) :
  ai_turn rounds g = (r, g1, t) ->
  Forall (fun e => forall b w, e <> EvDisplay b w) t
  /\ ((g1 = g /\ commits t = [])
      \/ (r = Ok tt /\ is_ai_turn g = true /\ is_ai_turn g1 = negb true
          /\ exists x,
            commits t
            = [EvSubmit T_make_ai_move x (Committed (board g1))])).
Proof.
  intros H.
  destruct (ai_turn_result push_turn rounds g)
    as (r0 & g0 & t0 & H0 & Hs & Hcase).
  rewrite H in H0. injection H0 as <- <- ->. split.
  - constructor; [discriminate|]. now apply submits_no_display.
  - rewrite commits_cons. simpl.
    destruct Hcase as [(-> & Hc & _)|(-> & Hon & Hoff & m & x & _ & _ & Hc)].
    + now left.
    + right. repeat split; try assumption. now exists x.
Qed.

Lemma user_turn_shape (prompt : string) (lines : list string)
      (g g1 : Globals) (r : result (bool * list string)) (t : list Event) :
  user_turn prompt lines g = (r, g1, t) ->
  (g1 = g /\ commits t = [] /\ forall rest, r <> Ok (false, rest))
  \/ (is_ai_turn g = false /\ is_ai_turn g1 = negb false
      /\ exists x,
        commits t = [EvSubmit T_make_user_move x (Committed (board g1))]).
Proof.
  intros H.
  destruct (user_turn_summary prompt lines g)
    as (t0 & Hn & [H0|[(s & rest0 & _ & _ & H0)
                      |(s & rest0 & m & _ & _ & Hoff & H0)]]);
    rewrite H in H0; injection H0 as -> -> ->;
    apply noise_no_commit in Hn.
  - left. split; [reflexivity|]. split; [assumption|]. discriminate.
  - left. split; [reflexivity|].
    split; [rewrite commits_app, Hn; reflexivity|]. discriminate.
  - right. split; [assumption|].
    split; [now rewrite (is_ai_turn_push push_turn), Hoff|].
    exists s. rewrite commits_app, Hn. reflexivity.
Qed.

(** Every run of the loop commits its plies in turn, with any fuel. *)
Lemma game_loop_plies_in_turn
      (fuel : nat) (agent : Z -> list (list ToolCall)) (move : Z)
      (lines : list string) (g : Globals) (r : result (option Exit))
      (g' : Globals) (t : list Event) :
  game_loop fuel agent move lines g = (r, g', t) ->
  plies_in_turn move g r g' t.
Proof.
  apply loop_rule
    with (Pre_ai := fun _ : Globals => True)
         (Pre_user := fun _ : Globals => True).
  - intros m g0. now apply plies_stop.
  - intros m g0 rounds e g1 t1 _ H.
    destruct (ai_turn_shape _ _ H) as [_ [[-> Hc]|(Hr & _)]];
      [now apply plies_stop | discriminate].
  - intros m g0 rounds g1 t1 msg _ H _.
    destruct (ai_turn_shape _ _ H) as [Hd Hcase].
    apply plies_over with (side := true); [assumption|].
    destruct Hcase as [Hc|(_ & Hc)]; [now left | now right].
  - intros m g0 rounds g1 t1 _ H _. split; [exact I|].
    destruct (ai_turn_shape _ _ H) as [Hd Hcase].
    apply plies_next with (side := true); [assumption|].
    destruct Hcase as [Hc|(_ & Hc)]; [now left | now right].
  - intros m g0 ls e g1 t1 _ H.
    destruct (user_turn_shape _ _ _ H) as [(-> & Hc & _)|(_ & _ & x & Hc)].
    + now apply plies_stop.
    + exfalso.
      destruct (user_turn_summary (user_prompt (ai_pos g0)) ls g0)
        as (t0 & Hn & [H0|[(s & rest0 & _ & _ & H0)
                          |(s & rest0 & m0 & _ & _ & _ & H0)]]);
        rewrite H in H0; try discriminate.
      injection H0 as _ _ ->. apply noise_no_commit in Hn.
      rewrite Hn in Hc. discriminate.
  - intros m g0 ls rest g1 t1 _ H.
    destruct (user_turn_summary (user_prompt (ai_pos g0)) ls g0)
      as (t0 & Hn & [H0|[(s & rest0 & _ & _ & H0)
                        |(s & rest0 & m0 & _ & _ & _ & H0)]]);
      rewrite H in H0; try discriminate.
    injection H0 as _ -> ->. apply plies_stop.
    apply noise_no_commit in Hn. rewrite commits_app, Hn. reflexivity.
  - intros m g0 ls rest g1 t1 msg _ H _.
    apply plies_over with (side := false);
      [eapply user_turn_no_display; exact H|].
    destruct (user_turn_shape _ _ _ H) as [(Hg & Hc & _)|Hc];
      [now left | now right].
  - intros m g0 ls rest g1 t1 _ H _. split; [exact I|].
    apply plies_next with (side := false);
      [eapply user_turn_no_display; exact H|].
    destruct (user_turn_shape _ _ _ H) as [(Hg & Hc & _)|Hc];
      [now left | now right].
  - destruct (ai_pos g =? 0)%Z; exact I.
Qed.

(** *** No exception but the end of the typed lines *)

Section Lawful.
Hypothesis san_round_trip :
  forall (b : Board) (m : Move),
    In m (board_legal_moves b) ->
    board_parse_san b (board_san b m) = inr m.
Hypothesis no_moves_is_terminal :
  forall b : Board,
    board_legal_moves b = [] ->
    board_is_checkmate b || board_is_stalemate b = true.

(** In a position that is not terminal the AI's turn does not raise:
    the failsafe finds a first legal move and the engine reads it
    back. *)
Lemma ai_turn_no_raise (rounds : list (list ToolCall)) (g g1 : Globals)
      (e : Exn) (t : list Event) :
  get_end_state g = None ->
  ai_turn rounds g = (Raise e, g1, t) -> False.
Proof.
  intros Hend H. unfold ai_turn, bind in H. rewrite act_events in H.
  destruct (run_tool_calls_result
              push_turn (List.concat (firstn max_prediction_rounds rounds)) g)
    as (g2 & t2 & H2 & _ & Hcase).
  rewrite H2 in H. unfold get_globals in H.
  destruct Hcase as [[-> _]|(_ & Hoff & _)].
  - destruct (is_ai_turn g) eqn:Hturn.
    + destruct (playable_has_move no_moves_is_terminal g Hend)
        as (first & rest & Hl).
      destruct (failsafe_commits san_round_trip g Hl Hturn)
        as [Hlm Hcall].
      rewrite Hlm, Hcall in H. discriminate.
    + discriminate.
  - rewrite Hoff in H. discriminate.
Qed.

Lemma game_loop_no_crash
      (fuel : nat) (agent : Z -> list (list ToolCall)) (move : Z)
      (lines : list string) (g : Globals) (r : result (option Exit))
      (g' : Globals) (t : list Event) :
  get_end_state g = None ->
  game_loop fuel agent move lines g = (r, g', t) ->
  no_crash move g r g' t.
Proof.
  intros Hend.
  apply loop_rule
    with (Pre_ai := fun g : Globals => get_end_state g = None)
         (Pre_user := fun g : Globals => get_end_state g = None).
  - intros m g0 e H. discriminate.
  - intros m g0 rounds e g1 t1 Hpre H. exfalso.
    eapply ai_turn_no_raise; [exact Hpre | exact H].
  - intros m g0 rounds g1 t1 msg _ _ _ e H. discriminate.
  - intros m g0 rounds g1 t1 _ _ Hend1. split; [assumption|].
    intros r0 g0' t2 H. exact H.
  - intros m g0 ls e g1 t1 _ H e' He'. injection He' as <-.
    destruct (user_turn_summary (user_prompt (ai_pos g0)) ls g0)
      as (t0 & _ & [H0|[(s & rest0 & _ & _ & H0)
                       |(s & rest0 & m0 & _ & _ & _ & H0)]]);
      rewrite H in H0; try discriminate.
    now injection H0 as ->.
  - intros m g0 ls rest g1 t1 _ _ e H. discriminate.
  - intros m g0 ls rest g1 t1 msg _ _ _ e H. discriminate.
  - intros m g0 ls rest g1 t1 _ _ Hend1. split; [assumption|].
    intros r0 g0' t2 H. exact H.
  - destruct (ai_pos g =? 0)%Z; exact Hend.
Qed.

(** X21. On an engine that hands the move over at every push, reads
    back the notation it prints for a legal move and has a legal move
    in every position that is not mate or stalemate, a session that
    starts from a playable position never ends on an exception of the
    move functions or of [legal_moves()[0]]: it leaves the loop through
    one of its two [break]s, or the typed lines ran out. *)
Theorem lawful_session_ends_cleanly
        (draw : Z) (agent : Z -> list (list ToolCall))
        (lines : list string) :
  end_state_of board_reset = None ->
  (exists x, fst (fst (session draw agent lines)) = Ok (Some x))
  \/ fst (fst (session draw agent lines)) = Raise EOFError.
Proof.
  intros Hstart.
  pose proof (session_live draw agent lines) as Hlive.
  rewrite session_eq in *.
  destruct (game_loop (S (List.length lines)) agent 0 lines
                      {| board := board_reset; ai_pos := draw |})
    as [[r g'] t] eqn:Hloop.
  simpl in Hlive. simpl. destruct r as [[x|]|e].
  - left. now exists x.
  - now destruct Hlive.
  - right. f_equal.
    apply game_loop_no_crash in Hloop; [|exact Hstart].
    exact (Hloop e eq_refl).
Qed.

(** *** The captions of the boards *)

Lemma submits_no_clear (t : list Event) :
  forallb is_submit t = true -> Forall (fun e => e <> EvClearOutput) t.
Proof.
  induction t as [|e t IH]; simpl; intros H; constructor.
  - apply andb_true_iff in H as [He _]. destruct e; discriminate.
  - apply andb_true_iff in H as [_ Ht]. auto.
Qed.

Lemma user_turn_no_clear (prompt : string) (lines : list string)
      (g g1 : Globals) (r : result (bool * list string)) (t : list Event) :
  user_turn prompt lines g = (r, g1, t) ->
  Forall (fun e => e <> EvClearOutput) t.
Proof.
  intros H. apply user_turn_events in H.
  eapply Forall_impl; [|exact H].
  intros [] He; simpl in *; try discriminate; contradiction.
Qed.

Lemma captions_skip (t tl : list Event) :
  Forall (fun e => e <> EvClearOutput) t ->
  captions (t ++ tl) = captions tl.
Proof.
  induction 1 as [|e t He _ IH]; [reflexivity|].
  destruct e; simpl; auto. contradiction.
Qed.

Lemma captioned_stop (move : Z) (g g1 : Globals)
      (r : result (option Exit)) (t1 : list Event) :
  Forall (fun e => e <> EvClearOutput) t1 ->
  commits t1 = [] ->
  captioned move g r g1 t1.
Proof.
  intros Hd Hc. unfold captioned.
  rewrite <- committers_commits, Hc. simpl.
  rewrite <- (app_nil_r t1). now rewrite captions_skip.
Qed.

Lemma captioned_next (move : Z) (g g1 : Globals) (t1 : list Event)
      (f : Tool) (x : string) (b : Board) :
  Forall (fun e => e <> EvClearOutput) t1 ->
  commits t1 = [EvSubmit f x (Committed b)] ->
  forall r g' t2,
    captioned (move + 1) g1 r g' t2 ->
    captioned move g r g' (t1 ++ shown_after_ply move g1 ++ t2).
Proof.
  intros Hd Hc r g' t2 H. unfold captioned in *.
  rewrite captions_skip by assumption.
  rewrite !committers_app, <- (committers_commits t1), Hc. simpl.
  rewrite H, <- seq_shift, map_map, Z.add_0_r. f_equal.
  apply map_ext. intros k. f_equal. lia.
Qed.

Section Opening.
Hypothesis white_first : board_turn board_reset = true.

Lemma ai_turn_on_turn (rounds : list (list ToolCall)) (g g1 : Globals)
      (t : list Event) :
  is_ai_turn g = true ->
  ai_turn rounds g = (Ok tt, g1, t) ->
  Forall (fun e => e <> EvClearOutput) t
  /\ is_ai_turn g1 = false
  /\ exists x,
    commits t = [EvSubmit T_make_ai_move x (Committed (board g1))].
Proof.
  intros Hon H.
  destruct (ai_turn_result push_turn rounds g)
    as (r0 & g0 & t0 & H0 & Hs & Hcase).
  rewrite H in H0. injection H0 as <- <- ->. split.
  - constructor; [discriminate|]. now apply submits_no_clear.
  - rewrite commits_cons. simpl.
    destruct Hcase as [(_ & _ & Hr)|(_ & _ & Hoff & m & x & _ & _ & Hc)].
    + rewrite Hr in Hon by reflexivity. discriminate.
    + split; [assumption|]. now exists x.
Qed.

Lemma user_turn_on_turn (prompt : string) (lines rest : list string)
      (g g1 : Globals) (t : list Event) :
  user_turn prompt lines g = (Ok (false, rest), g1, t) ->
  is_ai_turn g1 = true
  /\ exists x,
    commits t = [EvSubmit T_make_user_move x (Committed (board g1))].
Proof.
  intros H.
  destruct (user_turn_shape _ _ _ H) as [(_ & _ & Hr)|(_ & Hon & Hc)].
  - now destruct (Hr rest).
  - now split.
Qed.

Lemma game_loop_captioned
      (fuel : nat) (agent : Z -> list (list ToolCall)) (move : Z)
      (lines : list string) (g : Globals) (r : result (option Exit))
      (g' : Globals) (t : list Event) :
  is_ai_turn g = (ai_pos g =? 0)%Z ->
  get_end_state g = None ->
  game_loop fuel agent move lines g = (r, g', t) ->
  captioned move g r g' t.
Proof.
  intros Hturn Hend.
  apply loop_rule
    with (Pre_ai := fun g : Globals =>
                      is_ai_turn g = true /\ get_end_state g = None)
         (Pre_user := fun g : Globals => is_ai_turn g = false).
  - intros m g0. now apply captioned_stop.
  - intros m g0 rounds e g1 t1 [_ Hpre] H. exfalso.
    eapply ai_turn_no_raise; [exact Hpre | exact H].
  - intros m g0 rounds g1 t1 msg [Hon _] H _.
    destruct (@ai_turn_on_turn _ _ _ _ Hon H) as (Hd & _ & x & Hc).
    eapply captioned_next; [exact Hd | exact Hc |].
    apply captioned_stop; [repeat constructor; discriminate | reflexivity].
  - intros m g0 rounds g1 t1 [Hon _] H _.
    destruct (@ai_turn_on_turn _ _ _ _ Hon H) as (Hd & Hoff & x & Hc).
    split; [assumption|]. intros r0 g0' t2.
    eapply captioned_next; [exact Hd | exact Hc].
  - intros m g0 ls e g1 t1 _ H.
    apply captioned_stop; [eapply user_turn_no_clear; exact H|].
    destruct (user_turn_shape _ _ _ H) as [(_ & Hc & _)|(_ & _ & x & Hc)];
      [assumption|].
    exfalso.
    destruct (user_turn_summary (user_prompt (ai_pos g0)) ls g0)
      as (t0 & Hn & [H0|[(s & rest0 & _ & _ & H0)
                        |(s & rest0 & m0 & _ & _ & _ & H0)]]);
      rewrite H in H0; try discriminate.
    injection H0 as _ _ ->. apply noise_no_commit in Hn.
    rewrite Hn in Hc. discriminate.
  - intros m g0 ls rest g1 t1 _ H.
    apply captioned_stop; [eapply user_turn_no_clear; exact H|].
    destruct (user_turn_summary (user_prompt (ai_pos g0)) ls g0)
      as (t0 & Hn & [H0|[(s & rest0 & _ & _ & H0)
                        |(s & rest0 & m0 & _ & _ & _ & H0)]]);
      rewrite H in H0; try discriminate.
    injection H0 as _ _ ->. apply noise_no_commit in Hn.
    rewrite commits_app, Hn. reflexivity.
  - intros m g0 ls rest g1 t1 msg _ H _.
    destruct (@user_turn_on_turn _ _ _ _ _ _ H) as (_ & x & Hc).
    eapply captioned_next;
      [eapply user_turn_no_clear; exact H | exact Hc |].
    apply captioned_stop; [repeat constructor; discriminate | reflexivity].
  - intros m g0 ls rest g1 t1 _ H Hend1.
    destruct (@user_turn_on_turn _ _ _ _ _ _ H) as (Hon & x & Hc).
    split; [now split|]. intros r0 g0' t2.
    eapply captioned_next;
      [eapply user_turn_no_clear; exact H | exact Hc].
  - rewrite Hturn. destruct (ai_pos g =? 0)%Z; auto.
Qed.

(** X22. On such an engine, when white moves first and the game is
    not over at the start, the boards that [update_board] shows are
    captioned ["Board after move 1"], ["Board after move 2"], ... in
    this order, one caption for every committed ply. *)
Theorem boards_are_numbered_by_ply
        (draw : Z) (agent : Z -> list (list ToolCall))
        (lines : list string) :
  end_state_of board_reset = None ->
  captions (snd (session draw agent lines))
  = map (fun k => board_caption (Z.of_nat k))
        (seq 0 (List.length
                  (committers (snd (session draw agent lines))))).
Proof.
  intros Hstart. rewrite session_eq.
  destruct (game_loop (S (List.length lines)) agent 0 lines
                      {| board := board_reset; ai_pos := draw |})
    as [[r g'] t] eqn:Hloop.
  apply game_loop_captioned in Hloop; [exact Hloop | | exact Hstart].
  unfold is_ai_turn. simpl. rewrite white_first.
  now destruct (draw =? 0)%Z.
Qed.

End Opening.

End Lawful.

(** X19. When a push hands the move over, the plies of a session are
    committed by the two sides in turn, whatever the agent requests and
    the user types: by [make_ai_move] first when the AI is to move at
    the start, by [make_user_move] first otherwise; and who is to move
    at the end follows from the number of plies. *)
Theorem plies_come_in_turn
        (draw : Z) (agent : Z -> list (list ToolCall))
        (lines : list string) :
  alternate (is_ai_turn {| board := board_reset; ai_pos := draw |})
            (committers (snd (session draw agent lines)))
  /\ is_ai_turn (snd (fst (session draw agent lines)))
     = xorb (is_ai_turn {| board := board_reset; ai_pos := draw |})
            (Nat.odd (List.length
                        (committers (snd (session draw agent lines))))).
Proof.
  rewrite session_eq.
  destruct (game_loop (S (List.length lines)) agent 0 lines
                      {| board := board_reset; ai_pos := draw |})
    as [[r g'] t] eqn:Hloop.
  apply game_loop_plies_in_turn in Hloop as (Halt & Hpar & _).
  split; assumption.
Qed.

(** X20. When a push hands the move over, every ply committed in a
    session is followed by a display of the position it led to, before
    any other ply is committed and any other board is shown. *)
Theorem every_ply_is_displayed
        (draw : Z) (agent : Z -> list (list ToolCall))
        (lines : list string) :
  rendered (snd (session draw agent lines)).
Proof.
  rewrite session_eq.
  destruct (game_loop (S (List.length lines)) agent 0 lines
                      {| board := board_reset; ai_pos := draw |})
    as [[r g'] t] eqn:Hloop.
  apply game_loop_plies_in_turn in Hloop as (_ & _ & Hren).
  simpl. auto.
Qed.

End InTurn.

(** X16. The draw made at the start is never changed: at the end of a
    session [ai_pos] is the draw, every board was shown from white's
    side exactly when the draw was 1, and every prompt was the one of
    the colour the draw gave the user. *)
Theorem session_keeps_draw
        (draw : Z) (agent : Z -> list (list ToolCall))
        (lines : list string) :
  ai_pos (snd (fst (session draw agent lines))) = draw
  /\ Forall (as_assigned draw) (snd (session draw agent lines)).
Proof.
  destruct (session draw agent lines) as [[r g'] t] eqn:H.
  apply session_keeps in H as (t' & -> & Hpos & Ht & _).
  simpl in *. split; [exact Hpos|].
  constructor; [exact I|]. constructor; [reflexivity | exact Ht].
Qed.

(** X17. A session that ends with a game-over message ends on a
    position for which [get_end_state] gives this message, and the
    message is the last thing it printed. *)
Theorem game_over_is_end_state
        (draw : Z) (agent : Z -> list (list ToolCall))
        (lines : list string) (msg : string) (g' : Globals)
        (t : list Event) :
  session draw agent lines = (Ok (Some (GameOver msg)), g', t) ->
  get_end_state g' = Some msg
  /\ exists pre, t = pre ++ [EvPrint msg].
Proof.
  intros H.
  apply session_keeps in H as (t' & -> & _ & _ & Hover & _).
  destruct (Hover msg eq_refl) as [Hend (pre & ->)].
  split; [exact Hend|].
  now exists (EvClearOutput
                :: EvDisplay board_reset (draw =? 1)%Z :: pre).
Qed.

(** X18. A session ends as a user exit only on [quit]: the last line
    read at the prompt is [quit] in some casing, and
    ["Game ended by user."] is the last thing printed. *)
Theorem user_exit_follows_quit
        (draw : Z) (agent : Z -> list (list ToolCall))
        (lines : list string) (g' : Globals) (t : list Event) :
  session draw agent lines = (Ok (Some UserQuit), g', t) ->
  exists pre reply,
    t = pre ++ [EvInput (user_prompt draw) reply;
                EvPrint "Game ended by user."]
    /\ String.eqb (lower reply) "quit" = true.
Proof.
  intros H.
  apply session_keeps in H as (t' & -> & _ & _ & _ & Hquit).
  destruct (Hquit eq_refl) as (pre & reply & -> & Hq).
  now exists (EvClearOutput
                :: EvDisplay board_reset (draw =? 1)%Z :: pre), reply.
Qed.

End WithEngine.
End SessionShapeFacts.

(* ------------------------------------------------------------------ *)
(** ** The later properties on small inputs *)

Module WorkedExamples.
Import PyStr SplitText LetterFrequency ContractAnalysis.
Import Chess Examples SessionShape ToyFacts.
#[local] Existing Instance Toy.engine.

Lemma chunk_within_budget_witness :
  In (of_string "the quick")
     (split_text (of_string " the quick  brown fox ") 10)
  /\ (of_string "the quick" = []
      \/ is_word (of_string "the quick")
      \/ (Z.of_nat (List.length (of_string "the quick")) < 10)%Z).
Proof.
  assert (H : In (of_string "the quick")
                 (split_text (of_string " the quick  brown fox ") 10))
    by (vm_compute; auto).
  split; [exact H|].
  exact (ChunkFacts.chunk_within_budget
           (of_string " the quick  brown fox ") 10
           (of_string "the quick") H).
Defined.

Lemma chunk_is_normalised_witness :
  In (of_string "brown fox")
     (split_text (of_string " the quick  brown fox ") 10)
  /\ join [space] (split (of_string "brown fox")) = of_string "brown fox".
Proof.
  assert (H : In (of_string "brown fox")
                 (split_text (of_string " the quick  brown fox ") 10))
    by (vm_compute; auto).
  split; [exact H|].
  exact (ChunkFacts.chunk_is_normalised
           (of_string " the quick  brown fox ") 10
           (of_string "brown fox") H).
Defined.

Lemma only_first_chunk_empty_witness :
  split (of_string "abcdef  gh i")
  = of_string "abcdef" :: [of_string "gh"; of_string "i"]
  /\ exists c cs,
    split_text (of_string "abcdef  gh i") 4 = c :: cs
    /\ Forall (fun d => d <> []) cs
    /\ (c = []
        <-> (Z.of_nat (List.length (of_string "abcdef")) + 1 > 4)%Z).
Proof.
  split; [reflexivity|].
  exact (ChunkFacts.only_first_chunk_empty
           (of_string "abcdef  gh i") 4
           (w := of_string "abcdef")
           (ws := [of_string "gh"; of_string "i"]) eq_refl).
Defined.

Lemma short_text_is_one_chunk_witness :
  split (of_string " hi  there ") <> []
  /\ (Z.of_nat (List.length (of_string " hi  there ")) < 100)%Z
  /\ split_text (of_string " hi  there ") 100
     = [join [space] (split (of_string " hi  there "))].
Proof.
  assert (H1 : split (of_string " hi  there ") <> [])
    by (vm_compute; discriminate).
  assert (H2 : (Z.of_nat (List.length (of_string " hi  there ")) < 100)%Z)
    by (vm_compute; reflexivity).
  split; [exact H1|]. split; [exact H2|].
  exact (@ChunkFacts.short_text_is_one_chunk
           (of_string " hi  there ") 100 H1 H2).
Defined.

Lemma chunks_leave_no_room_witness :
  split_text (of_string " the quick  brown fox ") 10
  = [] ++ of_string "the quick" :: of_string "brown fox" :: []
  /\ exists w ws,
    split (of_string "brown fox") = w :: ws
    /\ (Z.of_nat (List.length (of_string "the quick")) + 1
        + (Z.of_nat (List.length w) + 1) > 10)%Z.
Proof.
  split; [reflexivity|].
  apply (ChunkFacts.chunks_leave_no_room
           (of_string " the quick  brown fox ") 10 [] []
           (c := of_string "the quick") (of_string "brown fox")).
  - reflexivity.
  - discriminate.
Defined.

Lemma letter_frequency_keys_witness :
  get_letter_frequency (of_string "abba")
  = Some [(of_ascii "a", 2); (of_ascii "b", 2)]%Z
  /\ keys [(of_ascii "a", 2); (of_ascii "b", 2)]%Z
     = first_seen (of_string "abba")
  /\ NoDup (keys [(of_ascii "a", 2); (of_ascii "b", 2)]%Z)
  /\ forall c,
      In c (keys [(of_ascii "a", 2); (of_ascii "b", 2)]%Z)
      <-> In c (of_string "abba").
Proof.
  split; [reflexivity|].
  exact (LetterFrequencyFacts.letter_frequency_keys
           (of_string "abba")
           (d := [(of_ascii "a", 2); (of_ascii "b", 2)]%Z) eq_refl).
Defined.

Lemma letter_frequency_total_witness :
  get_letter_frequency (of_string "abba")
  = Some [(of_ascii "a", 2); (of_ascii "b", 2)]%Z
  /\ sum_values [(of_ascii "a", 2); (of_ascii "b", 2)]%Z
     = Z.of_nat (List.length (of_string "abba")).
Proof.
  split; [reflexivity|].
  exact (LetterFrequencyFacts.letter_frequency_total
           (of_string "abba")
           (d := [(of_ascii "a", 2); (of_ascii "b", 2)]%Z) eq_refl).
Defined.

(** A model that answers with its prompt and counts its calls. *)
Lemma analysis_of_blank_text_witness :
  forallb isspace (of_string "   ") = true
  /\ generate_analysis_with_watsonx
       (fun chunk : str => chunk)
       (fun (calls : nat) (prompt : str) => (prompt, S calls))
       (of_string "   ") 0
     = ([], 0,
        [LogInfo str
           (of_string "Split text into 0 chunks for processing.")]).
Proof.
  split; [reflexivity|].
  exact (ContractAnalysisFacts.analysis_of_blank_text
           (fun chunk : str => chunk)
           (fun (calls : nat) (prompt : str) => (prompt, S calls))
           (of_string "   ") 0 eq_refl).
Defined.

Lemma analysis_of_short_text_witness :
  split (of_string " a  b ") <> []
  /\ (Z.of_nat (List.length (of_string " a  b ")) < 100000)%Z
  /\ fst (generate_analysis_with_watsonx
            (fun chunk : str => chunk)
            (fun (calls : nat) (prompt : str) => (prompt, S calls))
            (of_string " a  b ") 0)
     = (join [space] (split (of_string " a  b ")), 1).
Proof.
  assert (H1 : split (of_string " a  b ") <> [])
    by (vm_compute; discriminate).
  assert (H2 : (Z.of_nat (List.length (of_string " a  b ")) < 100000)%Z)
    by (vm_compute; reflexivity).
  split; [exact H1|]. split; [exact H2|].
  exact (proj1 (ContractAnalysisFacts.analysis_of_short_text
                  (fun chunk : str => chunk)
                  (fun (calls : nat) (prompt : str) => (prompt, S calls))
                  (of_string " a  b ") 0 H1 H2)).
Defined.

Lemma legal_move_accepted_witness :
  is_current_turn AUTOMATED ai_first = true
  /\ In 1 (Toy.legal Toy.start)
  /\ In (Toy.san 1) (legal_moves ai_first)
  /\ apply_move AUTOMATED (Toy.san 1) ai_first
     = (Ok tt, set_board ai_first (Toy.push Toy.start 1), []).
Proof.
  assert (H : In 1 (Toy.legal Toy.start)) by (simpl; auto).
  split; [reflexivity|]. split; [exact H|].
  exact (BlockFacts.legal_move_accepted
           toy_san_round_trip AUTOMATED ai_first 1 eq_refl H).
Defined.

Lemma refused_line_reprompts_witness :
  fst (fst (make_user_move "9" human_first))
  = Raise (ValueError (ArgExn (SanException "invalid san"%string)))
  /\ exists r g' t,
    user_turn prompt_white ["1"%string] human_first = (r, g', t)
    /\ user_turn prompt_white ["9"; "1"]%string human_first
       = (r, g',
          EvInput prompt_white "9"
            :: EvSubmit T_make_user_move "9"
                 (Rejected
                    (ValueError (ArgExn (SanException "invalid san"%string))))
            :: EvPrintExn
                 (ValueError (ArgExn (SanException "invalid san"%string)))
            :: t).
Proof.
  split; [reflexivity|].
  exact (BlockFacts.refused_line_reprompts
           prompt_white "9" ["1"%string] human_first
           (e := ValueError (ArgExn (SanException "invalid san"%string)))
           eq_refl eq_refl eq_refl).
Defined.

Lemma failsafe_without_moves_witness :
  is_ai_turn
    {| board := {| Toy.pile := 0; Toy.white_to_move := true;
                   Toy.stack := [2; 1] |};
       ai_pos := 0 |} = true
  /\ commits
       (snd (act act_tools max_prediction_rounds (agent_greedy 2)
                 {| board := {| Toy.pile := 0; Toy.white_to_move := true;
                                Toy.stack := [2; 1] |};
                    ai_pos := 0 |})) = []
  /\ exists t,
    act act_tools max_prediction_rounds (agent_greedy 2)
        {| board := {| Toy.pile := 0; Toy.white_to_move := true;
                       Toy.stack := [2; 1] |};
           ai_pos := 0 |}
    = (Ok tt,
       {| board := {| Toy.pile := 0; Toy.white_to_move := true;
                      Toy.stack := [2; 1] |};
          ai_pos := 0 |}, t)
    /\ ai_turn (agent_greedy 2)
               {| board := {| Toy.pile := 0; Toy.white_to_move := true;
                              Toy.stack := [2; 1] |};
                  ai_pos := 0 |}
       = (Raise IndexError,
          {| board := {| Toy.pile := 0; Toy.white_to_move := true;
                         Toy.stack := [2; 1] |};
             ai_pos := 0 |}, t).
Proof.
  split; [reflexivity|]. split; [reflexivity|].
  exact (BlockFacts.failsafe_without_moves
           (agent_greedy 2)
           {| board := {| Toy.pile := 0; Toy.white_to_move := true;
                          Toy.stack := [2; 1] |};
              ai_pos := 0 |}
           eq_refl eq_refl eq_refl).
Defined.

Lemma lawful_session_ends_cleanly_witness :
  end_state_of Toy.start = None
  /\ ((exists x,
          fst (fst (session 0 agent_greedy ["1"; "help"]%string))
          = Ok (Some x))
      \/ fst (fst (session 0 agent_greedy ["1"; "help"]%string))
         = Raise EOFError).
Proof.
  split; [reflexivity|].
  exact (SessionShapeFacts.lawful_session_ends_cleanly
           toy_push_turn toy_san_round_trip toy_no_moves_is_terminal
           0 agent_greedy ["1"; "help"]%string eq_refl).
Defined.

Lemma boards_are_numbered_by_ply_witness :
  Toy.white_to_move Toy.start = true
  /\ end_state_of Toy.start = None
  /\ captions (snd (session 1 agent_silent ["2"; "help"; "1"]%string))
     = map (fun k => board_caption (Z.of_nat k))
           (seq 0 (List.length
                     (committers
                        (snd (session 1 agent_silent
                                      ["2"; "help"; "1"]%string))))).
Proof.
  split; [reflexivity|]. split; [reflexivity|].
  exact (SessionShapeFacts.boards_are_numbered_by_ply
           toy_push_turn toy_san_round_trip toy_no_moves_is_terminal
           eq_refl 1 agent_silent ["2"; "help"; "1"]%string eq_refl).
Defined.

Lemma plies_come_in_turn_witness :
  alternate (is_ai_turn human_first)
            (committers
               (snd (session 1 agent_silent ["2"; "help"; "1"]%string)))
  /\ is_ai_turn
       (snd (fst (session 1 agent_silent ["2"; "help"; "1"]%string)))
     = xorb (is_ai_turn human_first)
            (Nat.odd
               (List.length
                  (committers
                     (snd (session 1 agent_silent
                                   ["2"; "help"; "1"]%string))))).
Proof.
  exact (SessionShapeFacts.plies_come_in_turn
           toy_push_turn 1 agent_silent ["2"; "help"; "1"]%string).
Defined.

Lemma every_ply_is_displayed_witness :
  rendered (snd (session 0 agent_greedy ["1"; "help"]%string)).
Proof.
  exact (SessionShapeFacts.every_ply_is_displayed
           toy_push_turn 0 agent_greedy ["1"; "help"]%string).
Defined.

Lemma game_over_is_end_state_witness :
  fst (fst (session 0 agent_greedy ["1"; "help"]%string))
  = Ok (Some (GameOver "Checkmate!"))
  /\ get_end_state (snd (fst (session 0 agent_greedy ["1"; "help"]%string)))
     = Some "Checkmate!"%string
  /\ exists pre,
    snd (session 0 agent_greedy ["1"; "help"]%string)
    = pre ++ [EvPrint "Checkmate!"].
Proof.
  split; [reflexivity|].
  apply (SessionShapeFacts.game_over_is_end_state
           0 agent_greedy ["1"; "help"]%string).
  reflexivity.
Defined.

Lemma user_exit_follows_quit_witness :
  fst (fst (session 0 agent_greedy ["help"; "9"; "QUIT"; "1"]%string))
  = Ok (Some UserQuit)
  /\ exists pre reply,
    snd (session 0 agent_greedy ["help"; "9"; "QUIT"; "1"]%string)
    = pre ++ [EvInput (user_prompt 0) reply;
              EvPrint "Game ended by user."]
    /\ String.eqb (lower reply) "quit" = true.
Proof.
  split; [reflexivity|].
  apply (SessionShapeFacts.user_exit_follows_quit
           0 agent_greedy ["help"; "9"; "QUIT"; "1"]%string
           (g' := snd (fst (session 0 agent_greedy
                                    ["help"; "9"; "QUIT"; "1"]%string)))).
  reflexivity.
Defined.

Lemma agent_tools_as_written_witness :
  (exists t',
      snd (session 0 agent_silent [])
      = EvClearOutput :: EvDisplay Toy.start false
          :: EvAct act_tools max_prediction_rounds :: t')
  /\ after_each is_open_user_ply agent_is_next
                (snd (session 1 agent_silent ["help"; "2"]%string))
  /\ act_tools = [T_get_move_history; T_legal_moves; T_possible_captures;
                  T_possible_checks; T_make_ai_move].
Proof.
  assert (H : In (EvAct act_tools 5)
                 (snd (session 1 agent_silent ["help"; "2"]%string)))
    by (vm_compute; tauto).
  split; [|split].
  - exact (proj1 (proj2 (InvocationFacts.agent_tools_as_written
                           0 agent_silent [])) eq_refl).
  - exact (proj1 (proj2 (proj2
             (InvocationFacts.agent_tools_as_written
                1 agent_silent ["help"; "2"]%string)))).
  - exact (proj1 (proj2 (proj2 (proj2
             (InvocationFacts.agent_tools_as_written
                1 agent_silent ["help"; "2"]%string)))
             act_tools 5 H)).
Defined.

End WorkedExamples.
